(** * drf-dynamic-read: dynamic field selection and query-hint derivation

    A shallow embedding of [dynamic_read/utils.py] and
    [dynamic_read/serializers.py], followed by the properties of the
    selector parser, the field resolver, the relation-graph walker and
    the hint filter.

    Python values are modelled as follows.
    - [str] is [string]; [a.startswith(b)] is [String.prefix b a].
    - [set] of field names is [gset string].
    - [dict] keyed by field names is an insertion-ordered association
      list with unique keys ([dict_get], [dict_set]).
    - Exceptions are the constructors of [exn]; code that may raise
      lives in the [result] monad, and [with suppress(...)] is
      [suppress].
    - A serializer object graph is a tree ([Field], [Serializer]); an
      attribute assignment on a nested serializer is written back into
      the enclosing [fields_map].
    - Python's recursion limit is the [depth_limit] argument of the
      recursive walker; exhausting it raises [RecursionError]. *)

From stdpp Require Import gmap strings list.
From Stdlib Require Import String Ascii.

#[local] Open Scope string_scope.
#[local] Open Scope list_scope.
#[local] Set Warnings "-register-all,-clear-no-such-hyp".

(** ** Python primitives *)

Inductive exn : Type :=
| AssertionError (msg : string)
| AttributeError
| ChildNotSupported
| IndexError
| KeyError (key : string)
| RecursionError
| TypeError.

Inductive result (A : Type) : Type :=
| Ok (a : A)
| Raise (e : exn).

Arguments Ok {A} a.
Arguments Raise {A} e.

#[global] Instance result_ret : MRet result := λ A a, Ok a.

#[global] Instance result_bind : MBind result := λ A B k r,
  match r with
  | Ok a => k a
  | Raise e => Raise e
  end.

(** [for x in xs: st = body(st, x)], stopping at the first exception. *)
Fixpoint foldM {S X : Type} (body : S → X → result S) (xs : list X) (st : S)
  : result S :=
  match xs with
  | [] => Ok st
  | x :: xs' => st' ← body st x; foldM body xs' st'
  end.

(** [with suppress(...)]: an exception of a listed class ends the block
    and execution continues after it, with the state as it was when the
    exception was raised ([st]); any other exception propagates. *)
Definition suppress {S : Type} (caught : exn → bool) (st : S) (block : result S)
  : result S :=
  match block with
  | Ok st' => Ok st'
  | Raise e => if caught e then Ok st else Raise e
  end.

Definition is_ChildNotSupported (e : exn) : bool :=
  match e with ChildNotSupported => true | _ => false end.

Definition is_KeyError (e : exn) : bool :=
  match e with KeyError _ => true | _ => false end.

Definition is_IndexError (e : exn) : bool :=
  match e with IndexError => true | _ => false end.

(** [s.startswith(p)] *)
Definition startswith (s p : string) : bool := String.prefix p s.

(** [s.split(sep)] for a non-empty [sep]: leftmost, non-overlapping
    occurrences of [sep] cut [s]; [skip] counts the characters of a
    matched separator that are still to be passed over and [cur] is the
    segment read so far. *)
Fixpoint split_from (sep s : string) (skip : nat) (cur : string) : list string :=
  match s with
  | EmptyString => [cur]
  | String c s' =>
      match skip with
      | S k => split_from sep s' k cur
      | O =>
          if String.prefix sep s
          then cur :: split_from sep s' (String.length sep - 1) ""
          else split_from sep s' 0 (cur +:+ String c "")
      end
  end.

Definition split (s sep : string) : list string := split_from sep s 0 "".

(** [xs[-1]] *)
Definition last_item {A : Type} (xs : list A) : result A :=
  match last xs with
  | Some x => Ok x
  | None => Raise IndexError
  end.

(** Insertion-ordered [dict] with string keys. *)
Fixpoint dict_get {V : Type} (d : list (string * V)) (k : string) : option V :=
  match d with
  | [] => None
  | (k', v) :: d' => if String.eqb k k' then Some v else dict_get d' k
  end.

(** [d[k] = v]: an existing key keeps its position, a new one goes last. *)
Fixpoint dict_set {V : Type} (d : list (string * V)) (k : string) (v : V)
  : list (string * V) :=
  match d with
  | [] => [(k, v)]
  | (k', v') :: d' =>
      if String.eqb k k' then (k', v) :: d' else (k', v') :: dict_set d' k v
  end.

(** [d[k]] *)
Definition getitem {V : Type} (d : list (string * V)) (k : string) : result V :=
  match dict_get d k with
  | Some v => Ok v
  | None => Raise (KeyError k)
  end.

(** [set(d.keys())] *)
Definition keys {V : Type} (d : list (string * V)) : gset string :=
  list_to_set (map fst d).

(** Truthiness of a sequence. *)
Definition nonempty {A : Type} (xs : list A) : bool :=
  match xs with [] => false | _ :: _ => true end.

(** Truthiness of an optional sequence argument ([None] or a sequence). *)
Definition truthy {A : Type} (o : option (list A)) : bool :=
  match o with Some xs => nonempty xs | None => false end.

(** [tuple() if not xs else tuple(xs)] *)
Definition to_tuple {A : Type} (o : option (list A)) : list A :=
  match o with Some xs => xs | None => [] end.

(** ** utils.py *)

Definition LOOKUP_SEP : string := "__".

(** The [fields] entry of a selection node: a [set] of names, or the
    marker [ALL_FIELDS] of rest_framework. *)
Inductive fields_entry : Type :=
| ALL_FIELDS
| field_set (names : gset string).

(** The dict built by [dynamic_read_meta()]: one selection node. *)
Inductive dr_meta_t : Type :=
| mk_dr_meta (meta_fields : fields_entry) (meta_omit : gset string)
             (meta_nested : list (string * dr_meta_t)).

Definition meta_fields (m : dr_meta_t) : fields_entry :=
  match m with mk_dr_meta f _ _ => f end.

Definition meta_omit (m : dr_meta_t) : gset string :=
  match m with mk_dr_meta _ o _ => o end.

Definition meta_nested (m : dr_meta_t) : list (string * dr_meta_t) :=
  match m with mk_dr_meta _ _ n => n end.

Definition dynamic_read_meta : dr_meta_t := mk_dr_meta (field_set ∅) ∅ [].

(** A Python reference to a node of the tree under construction: the
    keys of the [nested] dicts on the way from the root to the node. *)
Definition meta_ref : Type := list string.

(** Read through a reference. *)
Fixpoint node_at (r : meta_ref) (m : dr_meta_t) : option dr_meta_t :=
  match r with
  | [] => Some m
  | k :: r' =>
      match dict_get (meta_nested m) k with
      | Some child => node_at r' child
      | None => None
      end
  end.

(** Mutate the node behind a reference. Each hop is an access
    [node["nested"][k]] on a [defaultdict(dynamic_read_meta)], which
    creates the entry when it is missing. *)
Fixpoint modify_at (r : meta_ref) (f : dr_meta_t → result dr_meta_t)
    (m : dr_meta_t) : result dr_meta_t :=
  match r with
  | [] => f m
  | k :: r' =>
      let child := default dynamic_read_meta (dict_get (meta_nested m) k) in
      child' ← modify_at r' f child;
      Ok (mk_dr_meta (meta_fields m) (meta_omit m)
                     (dict_set (meta_nested m) k child'))
  end.

(** [field_meta["fields"].add(field)]; the marker [ALL_FIELDS] is a
    [str] and has no [add]. *)
Definition fields_add (field : string) (m : dr_meta_t) : result dr_meta_t :=
  match meta_fields m with
  | field_set names =>
      Ok (mk_dr_meta (field_set ({[field]} ∪ names)) (meta_omit m) (meta_nested m))
  | ALL_FIELDS => Raise AttributeError
  end.

(** [field_meta["fields"] = ALL_FIELDS] *)
Definition fields_assign_all (m : dr_meta_t) : result dr_meta_t :=
  Ok (mk_dr_meta ALL_FIELDS (meta_omit m) (meta_nested m)).

(** [meta["omit"].add(field)] *)
Definition omit_add (field : string) (m : dr_meta_t) : result dr_meta_t :=
  Ok (mk_dr_meta (meta_fields m) ({[field]} ∪ meta_omit m) (meta_nested m)).

(** The node the loop body works on: the root when [parent_info] is
    [None], otherwise [parent_meta["nested"][parent_field]]. *)
Definition field_meta_ref (parent_info : option (string * meta_ref)) : meta_ref :=
  match parent_info with
  | None => []
  | Some (parent_field, parent_meta) => parent_meta ++ [parent_field]
  end.

(** Body of the inner loop over the segments of one path; [mark] is the
    statement applied to [field_meta]. *)
Definition segment_step (mark : string → dr_meta_t → result dr_meta_t)
    (st : dr_meta_t * option (string * meta_ref)) (field : string)
  : result (dr_meta_t * option (string * meta_ref)) :=
  let '(dr_meta, parent_info) := st in
  let field_meta := field_meta_ref parent_info in
  dr_meta' ← modify_at field_meta (mark field) dr_meta;
  Ok (dr_meta', Some (field, field_meta)).

(** Body of [for field_list in filter_fields]. *)
Definition process_filter_path (dr_meta : dr_meta_t) (field_list : list string)
  : result dr_meta_t :=
  '(dr_meta', _) ← foldM (segment_step fields_add) field_list (dr_meta, None);
  Ok dr_meta'.

(** Body of [for field_list in omit_fields]. *)
Definition process_omit_path (dr_meta : dr_meta_t) (field_list : list string)
  : result dr_meta_t :=
  '(dr_meta', parent_info) ←
    foldM (segment_step (λ _, fields_assign_all)) field_list (dr_meta, None);
  suppress is_IndexError dr_meta'
    (field_to_omit ← last_item field_list;
     match parent_info with
     | None => Raise TypeError
     | Some (_, parent_meta) => modify_at parent_meta (omit_add field_to_omit) dr_meta'
     end).

Definition process_field_options (filter_fields omit_fields : list string)
  : result dr_meta_t :=
  let filter_fields := map (λ each, split each LOOKUP_SEP) filter_fields in
  let omit_fields := map (λ each, split each LOOKUP_SEP) omit_fields in
  dr_meta ← foldM process_filter_path filter_fields dynamic_read_meta;
  foldM process_omit_path omit_fields dr_meta.

(** [each.startswith(field) or field.startswith(each)] *)
Definition prefix_related (each field : string) : bool :=
  startswith each field || startswith field each.

(** [get_prefetch_select]; [all_select_prefetch] is the value of
    [serializer_class.all_select_prefetch]. The [lru_cache] decorator
    does not change the value returned. *)
Definition get_prefetch_select (all_select_prefetch : list string * list string)
    (filter_fields omit_fields : list string) : list string * list string :=
  let '(all_select, all_prefetch) := all_select_prefetch in
  if negb (nonempty filter_fields || nonempty omit_fields)
  then (all_select, all_prefetch)
  else if nonempty filter_fields
  then
    fold_left
      (λ '(final_select, final_prefetch) field,
         (final_select ++ List.filter (λ each, prefix_related each field) all_select,
          final_prefetch ++ List.filter (λ each, prefix_related each field) all_prefetch))
      filter_fields ([], [])
  else
    let final_select := [] in
    let final_prefetch := [] in
    let final_select := if nonempty final_select then final_select else all_select in
    let final_prefetch :=
      if nonempty final_prefetch then final_prefetch else all_prefetch in
    (List.filter (λ each, negb (existsb (λ field, prefix_related each field) omit_fields))
            final_select,
     List.filter (λ each, negb (existsb (λ field, prefix_related each field) omit_fields))
            final_prefetch).

(** ** serializers.py *)

(** A field object as the serializer code tells them apart with
    [isinstance]: an instance of [DynamicReadSerializerMixin], a
    [ListSerializer] around a [child], or anything else. A serializer
    carries the keys of [get_relational_fields(self.__class__)], the
    dict returned by [get_fields()] and its [dr_meta] attribute. *)
Inductive Field : Type :=
| OtherField
| DynamicSerializer (s : Serializer)
| ListSerializer (child : Field)
with Serializer : Type :=
| mk_serializer (relational_fields : list string)
                (get_fields : list (string * Field))
                (dr_meta : option dr_meta_t).

Definition relational_fields (self : Serializer) : list string :=
  match self with mk_serializer r _ _ => r end.

Definition get_fields (self : Serializer) : list (string * Field) :=
  match self with mk_serializer _ g _ => g end.

Definition dr_meta (self : Serializer) : option dr_meta_t :=
  match self with mk_serializer _ _ m => m end.

(** [self.dr_meta = m] *)
Definition set_dr_meta (self : Serializer) (m : option dr_meta_t) : Serializer :=
  mk_serializer (relational_fields self) (get_fields self) m.

(** [DynamicReadSerializerMixin.__init__] for a serializer class with
    the given relational accessor names and declared fields. *)
Definition __init__ (relational : list string) (declared : list (string * Field))
    (filter_fields omit_fields : option (list string)) : result Serializer :=
  if truthy filter_fields && truthy omit_fields
  then Raise (AssertionError "Pass either filter_fields or omit_fields, not both")
  else
    let filter_fields := if negb (truthy filter_fields) then [] else to_tuple filter_fields in
    let omit_fields := if negb (truthy omit_fields) then [] else to_tuple omit_fields in
    dr_meta ←
      (if nonempty filter_fields || nonempty omit_fields
       then meta ← process_field_options filter_fields omit_fields; Ok (Some meta)
       else Ok None);
    Ok (mk_serializer relational declared dr_meta).

Definition extract_serializer_from_child (child : Field) : result Serializer :=
  match child with
  | DynamicSerializer s => Ok s
  | ListSerializer (DynamicSerializer s) => Ok s
  | _ => Raise ChildNotSupported
  end.

Definition is_child_multiple (child : Field) : bool :=
  match child with ListSerializer _ => true | _ => false end.

(** The field object [child] after an attribute of the serializer that
    [extract_serializer_from_child] returned for it was assigned,
    leaving that serializer as [s']. *)
Definition with_serializer (child : Field) (s' : Serializer) : Field :=
  match child with
  | DynamicSerializer _ => DynamicSerializer s'
  | ListSerializer (DynamicSerializer _) => ListSerializer (DynamicSerializer s')
  | other => other
  end.

(** Body of [for field, field_meta in self.dr_meta["nested"].items()];
    the state is [fields_map], whose nested serializers are mutated. *)
Definition attach_nested (fields_map : list (string * Field))
    (item : string * dr_meta_t) : result (list (string * Field)) :=
  let '(field, field_meta) := item in
  suppress (λ e, is_ChildNotSupported e || is_KeyError e) fields_map
    (child ← getitem fields_map field;
     nested_field ← extract_serializer_from_child child;
     match dr_meta nested_field with
     | None =>
         Ok (dict_set fields_map field
               (with_serializer child (set_dr_meta nested_field (Some field_meta))))
     | Some _ => Ok fields_map
     end).

(** [derive_desired_fields]: the set returned, and [fields_map] as the
    call leaves it. [self.dr_meta[...]] on [None] is a [TypeError]. *)
Definition derive_desired_fields (self : Serializer)
    (fields_map : list (string * Field))
  : result (gset string * list (string * Field)) :=
  match dr_meta self with
  | None => Raise TypeError
  | Some meta =>
      let field_names := keys fields_map in
      let desired_field_names :=
        if bool_decide (meta_omit meta ≠ ∅)
        then field_names ∖ meta_omit meta
        else
          match meta_fields meta with
          | ALL_FIELDS => field_names
          | field_set names => names ∩ field_names
          end in
      fields_map' ← foldM attach_nested (meta_nested meta) fields_map;
      Ok (desired_field_names, fields_map')
  end.

(** The [fields] property: the bound fields, by name. *)
Definition fields (self : Serializer) : result (list (string * Field)) :=
  let fields_map := get_fields self in
  '(field_names, fields_map) ←
    match dr_meta self with
    | Some _ => derive_desired_fields self fields_map
    | None => Ok (keys fields_map, fields_map)
    end;
  foldM (λ fields field, v ← getitem fields_map field; Ok (dict_set fields field v))
        (elements field_names) [].

(** Body of [for field_name in relational_fields] in
    [evaluate_select_prefetch]; [recurse] is the recursive call
    [field_obj.evaluate_select_prefetch(accessor_prefix=...)]. *)
Definition visit_relation
    (recurse : Serializer → string → result (list string * list string))
    (fields : list (string * Field)) (accessor_prefix : string)
    (st : list string * list string) (field_name : string)
  : result (list string * list string) :=
  let '(final_select, final_prefetch) := st in
  match dict_get fields field_name with
  | None => Ok (final_select, final_prefetch)
  | Some field_obj =>
      let is_many := is_child_multiple field_obj in
      suppress is_ChildNotSupported (final_select, final_prefetch)
        (field_obj ← extract_serializer_from_child field_obj;
         '(sub_select_related, sub_prefetch_related) ←
           recurse field_obj (accessor_prefix +:+ field_name +:+ LOOKUP_SEP);
         let '(final_select, final_prefetch) :=
           if nonempty sub_select_related
           then
             if negb is_many
             then (final_select ++ sub_select_related, final_prefetch)
             else (final_select, final_prefetch ++ sub_select_related)
           else
             if negb is_many
             then (final_select ++ [accessor_prefix +:+ field_name], final_prefetch)
             else (final_select, final_prefetch) in
         let final_prefetch :=
           if nonempty sub_prefetch_related
           then final_prefetch ++ sub_prefetch_related
           else
             if is_many
             then final_prefetch ++ [accessor_prefix +:+ field_name]
             else final_prefetch in
         Ok (final_select, final_prefetch))
  end.

(** [evaluate_select_prefetch]; [depth_limit] is the number of nested
    calls the interpreter still allows. *)
Fixpoint evaluate_select_prefetch (depth_limit : nat) (self : Serializer)
    (accessor_prefix : string) : result (list string * list string) :=
  match depth_limit with
  | O => Raise RecursionError
  | S depth_limit' =>
      fields ← fields self;
      foldM (visit_relation (evaluate_select_prefetch depth_limit') fields
                            accessor_prefix)
            (relational_fields self) ([], [])
  end.

(** [DynamicReadSerializerMeta.all_select_prefetch], that is
    [cls().evaluate_select_prefetch()], for the serializer class with
    the given relational accessor names and declared fields. *)
Definition all_select_prefetch (depth_limit : nat) (relational : list string)
    (declared : list (string * Field)) : result (list string * list string) :=
  self ← __init__ relational declared None None;
  evaluate_select_prefetch depth_limit self "".

(** Nesting depth of a serializer graph. *)
Fixpoint field_depth (f : Field) : nat :=
  match f with
  | OtherField => 0
  | DynamicSerializer s => serializer_depth s
  | ListSerializer child => field_depth child
  end
with serializer_depth (s : Serializer) : nat :=
  match s with
  | mk_serializer _ g _ => S (list_max (map (λ item, field_depth (snd item)) g))
  end.

(** ** The Book scenario *)

Definition plain (relational : list string) (declared : list (string * Field))
  : Serializer := mk_serializer relational declared None.

Definition UserSerializer : Serializer :=
  plain [] [("id", OtherField); ("name", OtherField)].

Definition AuthorSerializer : Serializer :=
  plain [] [("id", OtherField); ("name", OtherField)].

Definition ReviewSerializer : Serializer :=
  plain ["reviewer"]
        [("id", OtherField); ("text", OtherField);
         ("reviewer", DynamicSerializer UserSerializer)].

Definition BookSerializer : Serializer :=
  plain ["author"; "reviews"]
        [("id", OtherField); ("title", OtherField);
         ("author", DynamicSerializer AuthorSerializer);
         ("reviews", ListSerializer (DynamicSerializer ReviewSerializer))].


(** ** Vocabulary for the selection tree *)

(** The node that [modify_at r] mutates: the node behind [r], or the
    default node that the [defaultdict] creates on the way. *)
Fixpoint target (r : meta_ref) (m : dr_meta_t) : dr_meta_t :=
  match r with
  | [] => m
  | k :: r' => target r' (default dynamic_read_meta (dict_get (meta_nested m) k))
  end.

(** Every node of the tree satisfies [P]. *)
Definition all_nodes (P : dr_meta_t → Prop) (m : dr_meta_t) : Prop :=
  ∀ r n, node_at r m = Some n → P n.

(** [m'] has every node of [m]; a node marked [ALL_FIELDS] stays marked
    and an [omit] set only gains names. *)
Definition grows (m m' : dr_meta_t) : Prop :=
  ∀ r n, node_at r m = Some n →
    ∃ n', node_at r m' = Some n'
          ∧ (meta_fields n = ALL_FIELDS → meta_fields n' = ALL_FIELDS)
          ∧ meta_omit n ⊆ meta_omit n'.

(** A statement of the omit loop: it keeps [nested], keeps an
    [ALL_FIELDS] mark and only adds to [omit]. *)
Definition monotone_stmt (f : dr_meta_t → result dr_meta_t) : Prop :=
  ∀ n n', f n = Ok n' →
    meta_nested n' = meta_nested n
    ∧ (meta_fields n = ALL_FIELDS → meta_fields n' = ALL_FIELDS)
    ∧ meta_omit n ⊆ meta_omit n'.

(** The data-model invariant of a selection node: [omit] is used only
    where [fields] is [ALL_FIELDS]. *)
Definition omit_only_under_all (n : dr_meta_t) : Prop :=
  meta_fields n = ALL_FIELDS ∨ meta_omit n = ∅.

(** What the omit loop leaves in the tree for one path: every node of
    the chain, one per segment, is marked [ALL_FIELDS], and the last
    segment is in the [omit] set of the last node of the chain. *)
Definition omit_path_recorded (field_list : list string) (root : dr_meta_t) : Prop :=
  (∀ i, i < List.length field_list →
        ∃ n, node_at (take i field_list) root = Some n ∧ meta_fields n = ALL_FIELDS)
  ∧ (∀ field_to_omit, last field_list = Some field_to_omit →
        ∃ n, node_at (take (List.length field_list - 1) field_list) root = Some n
             ∧ field_to_omit ∈ meta_omit n).

(** A node as the include pass leaves it: a set of names, nothing
    omitted. *)
Definition include_node (n : dr_meta_t) : Prop :=
  meta_fields n ≠ ALL_FIELDS ∧ meta_omit n = ∅.

(** ** Vocabulary for the field resolver *)

(** A nested selector for [field] has no effect on [fields_map]: the
    name is not a key, or its value is not a selection-capable node. *)
Definition not_attachable (fields_map : list (string * Field)) (field : string)
  : Prop :=
  match dict_get fields_map field with
  | None => True
  | Some child => extract_serializer_from_child child = Raise ChildNotSupported
  end.

(** ** Vocabulary for the relation-graph walker *)

(** The same serializer over a model whose relational accessor names
    are [relational]. *)
Definition with_relational (self : Serializer) (relational : list string)
  : Serializer :=
  mk_serializer relational (get_fields self) (dr_meta self).

(** ** Further scenarios *)

(** Relations rendered by fields that are not dynamic-read serializers:
    a single-valued one and a list-valued one. *)
Definition CatalogSerializer : Serializer :=
  plain ["publisher"; "tags"]
        [("id", OtherField); ("publisher", OtherField);
         ("tags", ListSerializer OtherField)].

(** A to-many relation beneath a to-many relation. *)
Definition CommentSerializer : Serializer :=
  plain [] [("id", OtherField); ("body", OtherField)].

Definition ThreadSerializer : Serializer :=
  plain ["comments"]
        [("id", OtherField);
         ("comments", ListSerializer (DynamicSerializer CommentSerializer))].

Definition ForumSerializer : Serializer :=
  plain ["threads"]
        [("id", OtherField);
         ("threads", ListSerializer (DynamicSerializer ThreadSerializer))].

(** ** utils.py: relational fields of a model *)

(** A field of [cls.Meta.model._meta.get_fields()], as
    [get_relational_fields] looks at it: its [name], its [is_relation]
    flag, and its [get_accessor_name] method when it has one ([None]
    when the attribute is missing, otherwise what the call returns,
    which is [None] or a string). *)
Record model_field : Type := mk_model_field {
  name : string;
  is_relation : bool;
  get_accessor_name : option (option string);
}.

(** [(hasattr(each, "get_accessor_name") and each.get_accessor_name())
    or each.name]: the accessor name when the method exists and returns
    a non-empty string, the field name otherwise. *)
Definition relation_key (each : model_field) : string :=
  match get_accessor_name each with
  | Some (Some accessor) =>
      match accessor with
      | EmptyString => name each
      | String _ _ => accessor
      end
  | Some None => name each
  | None => name each
  end.

(** [get_relational_fields], on the fields of the serializer's model;
    a dict comprehension inserts in iteration order and a repeated key
    keeps its position and takes the later value. *)
Definition get_relational_fields (model_fields : list model_field)
  : list (string * model_field) :=
  fold_left
    (λ d each, if is_relation each then dict_set d (relation_key each) each else d)
    model_fields [].

(** ** views.py *)

(** [self.request.query_params.get(param, "")]. The query parameters
    are the key and value pairs of the query string, in order; the
    [QueryDict] keeps every value of a repeated key and [get] returns
    the last of them, or the default when the key is absent. *)
Definition query_param (query_params : list (string * string)) (param : string)
  : string :=
  default ""
    (last (map snd (List.filter (λ item, String.eqb (fst item) param) query_params))).

(** [unparsed.split(",") if unparsed else None] *)
Definition parse_param (unparsed : string) : option (list string) :=
  match unparsed with
  | EmptyString => None
  | String _ _ => Some (split unparsed ",")
  end.

(** The [fields] property of [DynamicReadViewMixin]. *)
Definition view_fields (query_params : list (string * string))
  : option (list string) :=
  parse_param (query_param query_params "fields").

(** The [omit] property of [DynamicReadViewMixin]. *)
Definition view_omit (query_params : list (string * string))
  : option (list string) :=
  parse_param (query_param query_params "omit").

(** What [get_serializer_class()] returns: a subclass of
    [DynamicReadSerializerMixin], given by its relational accessor
    names and declared fields, or any other serializer class. *)
Inductive serializer_class : Type :=
| DynamicReadClass (relational : list string) (declared : list (string * Field))
| OtherClass.

(** [DynamicReadViewMixin.get_serializer]; the serializer built from a
    class that is not a dynamic-read serializer is an [OtherField]. *)
Definition get_serializer (cls : serializer_class)
    (query_params : list (string * string)) : result Field :=
  match cls with
  | DynamicReadClass relational declared =>
      self ← __init__ relational declared (view_fields query_params)
                      (view_omit query_params);
      Ok (DynamicSerializer self)
  | OtherClass => Ok OtherField
  end.

(** ** Further vocabulary *)

(** The names in the [fields] set of the node behind [r]; empty when
    there is no such node or it is marked [ALL_FIELDS]. *)
Definition names_at (r : meta_ref) (m : dr_meta_t) : gset string :=
  match node_at r m with
  | Some n =>
      match meta_fields n with
      | field_set names => names
      | ALL_FIELDS => ∅
      end
  | None => ∅
  end.

(** The selection node a nested serializer ends up with after its
    parent resolved its fields against [nested]: its own when it has
    one, otherwise the entry of [nested] for the field. *)
Definition attached_dr_meta (nested : list (string * dr_meta_t)) (field : string)
    (s : Serializer) : option dr_meta_t :=
  match dr_meta s with
  | Some own => Some own
  | None => dict_get nested field
  end.

(** The field [child] after its parent resolved its fields against
    [nested]: a selection-capable node carries [attached_dr_meta],
    anything else is untouched. *)
Definition after_attach (nested : list (string * dr_meta_t)) (field : string)
    (child : Field) : Field :=
  match extract_serializer_from_child child with
  | Ok s => with_serializer child (set_dr_meta s (attached_dr_meta nested field s))
  | Raise _ => child
  end.

(** The [omit] set of the node behind [r]; empty when there is no such
    node. *)
Definition omit_at (r : meta_ref) (m : dr_meta_t) : gset string :=
  match node_at r m with
  | Some n => meta_omit n
  | None => ∅
  end.

(** The node behind [r] exists and is marked [ALL_FIELDS]. *)
Definition marked_all (r : meta_ref) (m : dr_meta_t) : Prop :=
  ∃ n, node_at r m = Some n ∧ meta_fields n = ALL_FIELDS.
(** * Properties *)

(** ** The [result] monad and loops *)

Lemma bind_Ok_inv {A B : Type} (r : result A) (k : A → result B) (b : B) :
  (r ≫= k) = Ok b → ∃ a, r = Ok a ∧ k a = Ok b.
Proof. destruct r as [a|e]; [eauto | discriminate]. Qed.

Lemma foldM_app {S X : Type} (body : S → X → result S) (xs ys : list X) (st : S) :
  foldM body (xs ++ ys) st = (foldM body xs st ≫= foldM body ys).
Proof.
  revert st. induction xs as [|x xs IH]; intros st; simpl; [reflexivity|].
  destruct (body st x) as [st'|e]; simpl; [apply IH | reflexivity].
Qed.

(** A loop whose body preserves an invariant and cannot raise under it
    runs to completion and ends in a state satisfying the invariant. *)
Lemma foldM_invariant {S X : Type} (I : S → Prop) (body : S → X → result S)
    (xs : list X) (st : S) :
  I st →
  (∀ s x, I s → In x xs → ∃ s', body s x = Ok s' ∧ I s') →
  ∃ st', foldM body xs st = Ok st' ∧ I st'.
Proof.
  revert st. induction xs as [|x xs IH]; intros st Hst Hbody; simpl.
  - eauto.
  - destruct (Hbody st x Hst) as (s' & -> & Hs'); [left; reflexivity|]. simpl.
    apply IH; [exact Hs'|]. intros s y Hs Hy. apply Hbody; [exact Hs | right; exact Hy].
Qed.

(** ** Dictionaries *)

Lemma dict_get_set_eq {V : Type} (d : list (string * V)) (k : string) (v : V) :
  dict_get (dict_set d k v) k = Some v.
Proof.
  induction d as [|[k' v'] d IH]; simpl.
  - rewrite String.eqb_refl. reflexivity.
  - destruct (String.eqb k k') eqn:E; simpl; rewrite E; [reflexivity | exact IH].
Qed.

Lemma dict_get_set_ne {V : Type} (d : list (string * V)) (k k' : string) (v : V) :
  k ≠ k' → dict_get (dict_set d k v) k' = dict_get d k'.
Proof.
  intros Hne. induction d as [|[k0 v0] d IH]; simpl.
  - destruct (String.eqb_spec k' k) as [->|_]; [congruence | reflexivity].
  - destruct (String.eqb_spec k k0) as [->|Hk]; simpl.
    + destruct (String.eqb_spec k' k0); [congruence | reflexivity].
    + destruct (String.eqb_spec k' k0); [reflexivity | exact IH].
Qed.

Lemma dict_get_set {V : Type} (d : list (string * V)) (k k' : string) (v : V) :
  dict_get (dict_set d k v) k' = if String.eqb k k' then Some v else dict_get d k'.
Proof.
  destruct (String.eqb_spec k k') as [->|Hne].
  - apply dict_get_set_eq.
  - apply dict_get_set_ne, Hne.
Qed.

Lemma dict_set_keys {V : Type} (d : list (string * V)) (k : string) (v : V) :
  is_Some (dict_get d k) → map fst (dict_set d k v) = map fst d.
Proof.
  induction d as [|[k0 v0] d IH]; simpl; intros [x Hx]; [discriminate|].
  destruct (String.eqb k k0) eqn:E; simpl; [reflexivity|].
  f_equal. apply IH. eauto.
Qed.

Lemma dict_get_Some_In {V : Type} (d : list (string * V)) (k : string) (v : V) :
  dict_get d k = Some v → In (k, v) d.
Proof.
  induction d as [|[k0 v0] d IH]; simpl; [discriminate|].
  destruct (String.eqb_spec k k0) as [->|_].
  - intros [= ->]. left; reflexivity.
  - intros H. right. apply IH, H.
Qed.

Lemma dict_get_None {V : Type} (d : list (string * V)) (k : string) :
  dict_get d k = None ↔ k ∉ keys d.
Proof.
  unfold keys. induction d as [|[k0 v0] d IH]; simpl.
  - split; [intros _; apply not_elem_of_empty | reflexivity].
  - rewrite not_elem_of_union, not_elem_of_singleton.
    destruct (String.eqb_spec k k0) as [->|Hne].
    + split; [discriminate | intros [[] _]; reflexivity].
    + rewrite IH. tauto.
Qed.

Lemma dict_get_is_Some {V : Type} (d : list (string * V)) (k : string) :
  is_Some (dict_get d k) ↔ k ∈ keys d.
Proof.
  destruct (dict_get d k) eqn:E.
  - split; [intros _ | eauto].
    destruct (decide (k ∈ keys d)) as [|Hn]; [assumption|].
    apply dict_get_None in Hn. congruence.
  - split; [intros [x Hx]; discriminate|].
    intros Hin. apply dict_get_None in E. contradiction.
Qed.

(** ** Hint filtering ([get_prefetch_select]) *)

Section HintFilter.
Variables all_select all_prefetch : list string.

Let include_step : list string * list string → string → list string * list string :=
  λ '(final_select, final_prefetch) field,
    (final_select ++ List.filter (λ each, prefix_related each field) all_select,
     final_prefetch ++ List.filter (λ each, prefix_related each field) all_prefetch).

Lemma include_loop (filter_fields : list string) (fs fp : list string) :
  fold_left include_step filter_fields (fs, fp) =
  (fs ++ flat_map (λ field, List.filter (λ each, prefix_related each field) all_select)
                  filter_fields,
   fp ++ flat_map (λ field, List.filter (λ each, prefix_related each field) all_prefetch)
                  filter_fields).
Proof.
  revert fs fp. induction filter_fields as [|f l IH]; intros fs fp; simpl.
  - rewrite !app_nil_r. reflexivity.
  - rewrite IH, <- !app_assoc. reflexivity.
Qed.

Lemma get_prefetch_select_include (filter_fields omit_fields : list string) :
  filter_fields ≠ [] →
  get_prefetch_select (all_select, all_prefetch) filter_fields omit_fields =
  (flat_map (λ field, List.filter (λ each, prefix_related each field) all_select)
            filter_fields,
   flat_map (λ field, List.filter (λ each, prefix_related each field) all_prefetch)
            filter_fields).
Proof.
  intros Hne. unfold get_prefetch_select.
  destruct filter_fields as [|f l]; [congruence|].
  cbn [nonempty orb negb]. apply (include_loop (f :: l) [] []).
Qed.

Lemma get_prefetch_select_omit (omit_fields : list string) :
  omit_fields ≠ [] →
  get_prefetch_select (all_select, all_prefetch) [] omit_fields =
  (List.filter (λ each, negb (existsb (λ field, prefix_related each field) omit_fields))
               all_select,
   List.filter (λ each, negb (existsb (λ field, prefix_related each field) omit_fields))
               all_prefetch).
Proof.
  intros Hne. unfold get_prefetch_select.
  destruct omit_fields as [|f l]; [congruence|]. reflexivity.
Qed.
End HintFilter.

Lemma prefix_related_spec (each field : string) :
  prefix_related each field = true ↔
  String.prefix each field = true ∨ String.prefix field each = true.
Proof.
  unfold prefix_related, startswith. rewrite orb_true_iff. tauto.
Qed.

Lemma in_include_hints (all filter_fields : list string) (each : string) :
  In each (flat_map (λ field, List.filter (λ each, prefix_related each field) all)
                    filter_fields) ↔
  In each all ∧
  ∃ field, In field filter_fields ∧
           (String.prefix each field = true ∨ String.prefix field each = true).
Proof.
  rewrite in_flat_map. split.
  - intros (field & Hf & Hin). apply filter_In in Hin as [Hin Hrel].
    apply prefix_related_spec in Hrel. eauto.
  - intros (Hin & field & Hf & Hrel). exists field. split; [exact Hf|].
    apply filter_In. split; [exact Hin|]. apply prefix_related_spec, Hrel.
Qed.

Lemma in_omit_hints (all omit_fields : list string) (each : string) :
  In each (List.filter
             (λ each, negb (existsb (λ field, prefix_related each field) omit_fields))
             all) ↔
  In each all ∧
  ∀ field, In field omit_fields →
           ¬ (String.prefix each field = true ∨ String.prefix field each = true).
Proof.
  rewrite filter_In, negb_true_iff. split.
  - intros [Hin Hex]. split; [exact Hin|]. intros field Hf Hrel.
    apply prefix_related_spec in Hrel.
    assert (existsb (λ field, prefix_related each field) omit_fields = true) as Ht
      by (apply existsb_exists; eauto).
    congruence.
  - intros [Hin Hall]. split; [exact Hin|].
    destruct (existsb _ omit_fields) eqn:E; [|reflexivity].
    apply existsb_exists in E as (field & Hf & Hrel).
    apply prefix_related_spec in Hrel. destruct (Hall field Hf Hrel).
Qed.

(** C5. Tier-2 hints are the Tier-1 hints filtered by the prefix
    relationship. With an include list, an entry of [direct_join] or
    [batched_load] is kept exactly when it is a prefix of, or is
    prefixed by, some requested path. With an omit list (and no include
    list), an entry is kept exactly when it stands in that relationship
    with no omitted path. With neither, the Tier-1 pair is returned
    as it is. For Tier-1 [direct_join = {"author"}],
    [batched_load = {"reviews", "reviews.reviewer"}] and
    [include = ("author",)] the result is [direct_join = {"author"}],
    [batched_load = {}]. *)
Theorem get_prefetch_select_filters_tier1
    (all_select all_prefetch filter_fields omit_fields : list string) :
  let tier2 := get_prefetch_select (all_select, all_prefetch) filter_fields omit_fields in
  let related (each field : string) :=
    String.prefix each field = true ∨ String.prefix field each = true in
  (filter_fields ≠ [] →
     (∀ each, In each tier2.1 ↔
              In each all_select ∧ ∃ field, In field filter_fields ∧ related each field) ∧
     (∀ each, In each tier2.2 ↔
              In each all_prefetch ∧ ∃ field, In field filter_fields ∧ related each field))
  ∧ (filter_fields = [] → omit_fields ≠ [] →
     (∀ each, In each tier2.1 ↔
              In each all_select ∧ ∀ field, In field omit_fields → ¬ related each field) ∧
     (∀ each, In each tier2.2 ↔
              In each all_prefetch ∧ ∀ field, In field omit_fields → ¬ related each field))
  ∧ (filter_fields = [] → omit_fields = [] → tier2 = (all_select, all_prefetch))
  ∧ get_prefetch_select (["author"], ["reviews"; "reviews.reviewer"]) ["author"] []
    = (["author"], []).
Proof.
  cbv zeta. split; [|split; [|split]].
  - intros Hne. rewrite (get_prefetch_select_include _ _ _ _ Hne). cbn [fst snd].
    split; intros each; apply in_include_hints.
  - intros -> Hne. rewrite (get_prefetch_select_omit _ _ _ Hne). cbn [fst snd].
    split; intros each; apply in_omit_hints.
  - intros -> ->. reflexivity.
  - reflexivity.
Qed.

Lemma get_prefetch_select_filters_tier1_witness :
  (∀ each, In each (get_prefetch_select (["author"], ["reviews"; "reviews__reviewer"])
                                        ["reviews__reviewer__name"] []).2 ↔
           In each ["reviews"; "reviews__reviewer"] ∧
           ∃ field, In field ["reviews__reviewer__name"] ∧
                    (String.prefix each field = true ∨ String.prefix field each = true))
  ∧ (∀ each, In each (get_prefetch_select (["author"], ["reviews"; "reviews__reviewer"])
                                          [] ["reviews"]).1 ↔
             In each ["author"] ∧
             ∀ field, In field ["reviews"] →
                      ¬ (String.prefix each field = true ∨ String.prefix field each = true)).
Proof.
  split.
  - pose proof (get_prefetch_select_filters_tier1
                  ["author"] ["reviews"; "reviews__reviewer"]
                  ["reviews__reviewer__name"] []) as (Hinclude & _).
    apply Hinclude. discriminate.
  - pose proof (get_prefetch_select_filters_tier1
                  ["author"] ["reviews"; "reviews__reviewer"]
                  [] ["reviews"]) as (_ & Homit & _).
    apply Homit; [reflexivity | discriminate].
Defined.

(** C10. The hint filter compares raw strings, not path segments: the
    include entry ["auth"] is a proper character prefix of the accessor
    path ["author"], it does not end at a separator boundary and its
    segments are not a prefix of the path's segments, yet the Tier-1
    entry ["author"] is kept. *)
Theorem get_prefetch_select_raw_string_prefix :
  ∃ field each : string,
    String.prefix field each = true ∧ field ≠ each
    ∧ (∀ rest, each ≠ field +:+ LOOKUP_SEP +:+ rest)
    ∧ ¬ (split field LOOKUP_SEP `prefix_of` split each LOOKUP_SEP)
    ∧ In each (get_prefetch_select ([each], []) [field] []).1.
Proof.
  exists "auth", "author". split; [reflexivity|]. split; [discriminate|].
  split; [intros rest; discriminate|]. split.
  - intros [k Hk]. discriminate Hk.
  - left; reflexivity.
Qed.

(** ** The selection tree under mutation *)

Lemma node_at_target (r : meta_ref) (m n : dr_meta_t) :
  node_at r m = Some n → target r m = n.
Proof.
  revert m. induction r as [|k r IH]; intros m; simpl.
  - congruence.
  - destruct (dict_get (meta_nested m) k); [apply IH | discriminate].
Qed.

Lemma all_nodes_default (P : dr_meta_t → Prop) :
  P dynamic_read_meta → all_nodes P dynamic_read_meta.
Proof. intros HP [|k r] n; simpl; [congruence | discriminate]. Qed.

Lemma all_nodes_child (P : dr_meta_t → Prop) (m : dr_meta_t) (k : string) :
  P dynamic_read_meta → all_nodes P m →
  all_nodes P (default dynamic_read_meta (dict_get (meta_nested m) k)).
Proof.
  intros HP Hm. destruct (dict_get (meta_nested m) k) as [child|] eqn:E; simpl.
  - intros r n Hn. apply (Hm (k :: r)). simpl. rewrite E. exact Hn.
  - apply all_nodes_default, HP.
Qed.

Lemma all_nodes_target (P : dr_meta_t → Prop) (r : meta_ref) (m : dr_meta_t) :
  P dynamic_read_meta → all_nodes P m → P (target r m).
Proof.
  intros HP. revert m. induction r as [|k r IH]; intros m Hm; simpl.
  - apply (Hm []). reflexivity.
  - apply IH, all_nodes_child; assumption.
Qed.

(** When the statement succeeds on the node it is applied to,
    [modify_at] succeeds and leaves the statement's outcome behind the
    reference. *)
Lemma modify_at_Ok (r : meta_ref) (f : dr_meta_t → result dr_meta_t)
    (m n' : dr_meta_t) :
  f (target r m) = Ok n' →
  ∃ m', modify_at r f m = Ok m' ∧ node_at r m' = Some n'.
Proof.
  revert m. induction r as [|k r IH]; intros m Hf; simpl in *.
  - eauto.
  - destruct (IH _ Hf) as (child' & -> & Hn). simpl.
    eexists. split; [reflexivity|]. simpl. rewrite dict_get_set_eq. exact Hn.
Qed.

(** A statement that keeps [nested] and maps nodes satisfying [P] and
    [T] to nodes satisfying [P], applied at a node satisfying [T],
    keeps [P] on every node; [P] may only depend on the [fields] and
    [omit] entries. *)
Lemma modify_at_all_nodes (P T : dr_meta_t → Prop) (f : dr_meta_t → result dr_meta_t)
    (r : meta_ref) (m m' : dr_meta_t) :
  (∀ n n', meta_fields n = meta_fields n' → meta_omit n = meta_omit n' → P n → P n') →
  P dynamic_read_meta →
  (∀ n n', P n → T n → f n = Ok n' → P n' ∧ meta_nested n' = meta_nested n) →
  T (target r m) →
  all_nodes P m → modify_at r f m = Ok m' → all_nodes P m'.
Proof.
  intros Hentries Hdef Hf. revert m m'.
  induction r as [|k r IH]; intros m m' HT Hm Hmod; simpl in *.
  - destruct (Hf m m') as [HP Hnested]; [apply (Hm []); reflexivity | assumption..|].
    intros [|k q] n; simpl.
    + congruence.
    + rewrite Hnested. apply (Hm (k :: q)).
  - apply bind_Ok_inv in Hmod as (child' & Hchild & [= <-]).
    assert (all_nodes P child') as Hc'.
    { eapply IH; [exact HT | | exact Hchild]. apply all_nodes_child; assumption. }
    intros [|k' q] n; simpl.
    + intros [= <-]. eapply Hentries; [| |apply (Hm []); reflexivity]; reflexivity.
    + rewrite dict_get_set. destruct (String.eqb_spec k k') as [->|Hne].
      * apply Hc'.
      * apply (Hm (k' :: q)).
Qed.

Lemma grows_refl (m : dr_meta_t) : grows m m.
Proof. intros r n Hn. exists n. split; [exact Hn|]. split; [tauto | reflexivity]. Qed.

Lemma grows_trans (m1 m2 m3 : dr_meta_t) : grows m1 m2 → grows m2 m3 → grows m1 m3.
Proof.
  intros H12 H23 r n Hn.
  destruct (H12 r n Hn) as (n2 & Hn2 & Hall2 & Homit2).
  destruct (H23 r n2 Hn2) as (n3 & Hn3 & Hall3 & Homit3).
  exists n3. split; [exact Hn3|]. split; [tauto | etransitivity; eassumption].
Qed.

Lemma modify_at_grows (f : dr_meta_t → result dr_meta_t) (r : meta_ref)
    (m m' : dr_meta_t) :
  monotone_stmt f → modify_at r f m = Ok m' → grows m m'.
Proof.
  intros Hf. revert m m'. induction r as [|k r IH]; intros m m' Hmod; simpl in *.
  - destruct (Hf m m' Hmod) as (Hnested & Hall & Homit).
    intros [|k q] n; simpl.
    + intros [= <-]. eauto.
    + rewrite Hnested. intros Hn. exists n. split; [exact Hn|].
      split; [tauto | reflexivity].
  - apply bind_Ok_inv in Hmod as (child' & Hchild & [= <-]).
    specialize (IH _ _ Hchild).
    intros [|k' q] n; simpl.
    + intros [= <-]. eexists. split; [reflexivity|]. simpl. split; [tauto | reflexivity].
    + rewrite dict_get_set. destruct (String.eqb_spec k k') as [->|Hne].
      * destruct (dict_get (meta_nested m) k') as [child|]; [|discriminate].
        apply IH.
      * intros Hn. exists n. split; [exact Hn|]. split; [tauto | reflexivity].
Qed.

Lemma fields_assign_all_monotone : monotone_stmt fields_assign_all.
Proof. intros n n' [= <-]. simpl. split; [reflexivity|]. split; reflexivity. Qed.

Lemma omit_add_monotone (field : string) : monotone_stmt (omit_add field).
Proof.
  intros n n' [= <-]. simpl. split; [reflexivity|]. split; [tauto|].
  apply union_subseteq_r.
Qed.

(** ** The selector parser ([process_field_options]) *)

Lemma omit_only_under_all_entries (n n' : dr_meta_t) :
  meta_fields n = meta_fields n' → meta_omit n = meta_omit n' →
  omit_only_under_all n → omit_only_under_all n'.
Proof. unfold omit_only_under_all. intros -> ->. tauto. Qed.

Lemma omit_only_under_all_default : omit_only_under_all dynamic_read_meta.
Proof. right. reflexivity. Qed.

(** The inner loop of the omit pass, started at any [parent_info]. *)
Lemma omit_segments_loop (field_list : list string) (m : dr_meta_t)
    (parent_info : option (string * meta_ref)) :
  ∃ m',
    foldM (segment_step (λ _, fields_assign_all)) field_list (m, parent_info)
    = Ok (m', match last field_list with
              | Some field =>
                  Some (field, field_meta_ref parent_info
                                 ++ take (List.length field_list - 1) field_list)
              | None => parent_info
              end)
    ∧ grows m m'
    ∧ (all_nodes omit_only_under_all m → all_nodes omit_only_under_all m')
    ∧ ∀ i, i < List.length field_list →
        ∃ n, node_at (field_meta_ref parent_info ++ take i field_list) m' = Some n
             ∧ meta_fields n = ALL_FIELDS.
Proof.
  revert m parent_info. induction field_list as [|s rest IH]; intros m parent_info.
  - exists m. split; [reflexivity|]. split; [apply grows_refl|].
    split; [tauto|]. intros i Hi. simpl in Hi. lia.
  - set (ref0 := field_meta_ref parent_info).
    destruct (modify_at_Ok ref0 fields_assign_all m _ eq_refl) as (m1 & Hm1 & Hn1).
    destruct (IH m1 (Some (s, ref0))) as (m' & Hloop & Hgrow & Hinv & Hall).
    exists m'. split; [|split; [|split]].
    + cbn [foldM segment_step]. fold ref0. rewrite Hm1. cbn [mbind result_bind].
      rewrite Hloop. f_equal. f_equal.
      destruct rest as [|s' rest']; cbn [last field_meta_ref].
      * simpl. rewrite app_nil_r. reflexivity.
      * change (last (s :: s' :: rest')) with (last (s' :: rest')).
        destruct (last (s' :: rest')) eqn:El.
        -- f_equal. f_equal. rewrite <- app_assoc.
           f_equal. cbn [List.length].
           replace (S (S (List.length rest')) - 1)
             with (S (S (List.length rest') - 1)) by lia.
           reflexivity.
        -- apply last_None in El. discriminate.
    + eapply grows_trans; [|exact Hgrow].
      eapply modify_at_grows; [apply fields_assign_all_monotone | exact Hm1].
    + intros Hm. apply Hinv.
      eapply (modify_at_all_nodes omit_only_under_all (λ _, True));
        [apply omit_only_under_all_entries | apply omit_only_under_all_default
        | | exact I | exact Hm | exact Hm1].
      intros n n' _ _ [= <-]. split; [left|]; reflexivity.
    + intros [|i] Hi.
      * simpl. rewrite app_nil_r. destruct (Hgrow _ _ Hn1) as (n' & Hn' & Hkeep & _).
        exists n'. split; [exact Hn'|]. apply Hkeep. reflexivity.
      * simpl in Hi. destruct (Hall i) as (n & Hn & Hf); [lia|].
        exists n. split; [|exact Hf].
        cbn [field_meta_ref] in Hn. rewrite <- app_assoc in Hn. exact Hn.
Qed.

Lemma omit_path_recorded_grows (field_list : list string) (m m' : dr_meta_t) :
  grows m m' → omit_path_recorded field_list m → omit_path_recorded field_list m'.
Proof.
  intros Hgrow [Hall Homit]. split.
  - intros i Hi. destruct (Hall i Hi) as (n & Hn & Hf).
    destruct (Hgrow _ _ Hn) as (n' & Hn' & Hkeep & _). eauto.
  - intros x Hx. destruct (Homit x Hx) as (n & Hn & Hin).
    destruct (Hgrow _ _ Hn) as (n' & Hn' & _ & Hsub).
    exists n'. split; [exact Hn'|]. apply Hsub, Hin.
Qed.

(** One iteration of the omit pass never raises, and records its path. *)
Lemma process_omit_path_spec (m : dr_meta_t) (field_list : list string) :
  ∃ m', process_omit_path m field_list = Ok m'
        ∧ grows m m'
        ∧ (all_nodes omit_only_under_all m → all_nodes omit_only_under_all m')
        ∧ omit_path_recorded field_list m'.
Proof.
  unfold process_omit_path.
  destruct (omit_segments_loop field_list m None) as (m1 & -> & Hgrow & Hinv & Hall).
  cbn [mbind result_bind field_meta_ref app] in *. unfold last_item.
  destruct (last field_list) as [x|] eqn:El.
  - cbn [mbind result_bind].
    assert (List.length field_list - 1 < List.length field_list) as Hlt.
    { destruct field_list; [discriminate | simpl; lia]. }
    destruct (Hall _ Hlt) as (n & Hn & Hf).
    destruct (modify_at_Ok (take (List.length field_list - 1) field_list) (omit_add x) m1
                (mk_dr_meta (meta_fields n) ({[x]} ∪ meta_omit n) (meta_nested n)))
      as (m' & Hm' & Hn').
    { rewrite (node_at_target _ _ _ Hn). reflexivity. }
    rewrite Hm'. cbn [suppress]. exists m'. split; [reflexivity|].
    assert (grows m1 m') as Hgrow'.
    { eapply modify_at_grows; [apply omit_add_monotone | exact Hm']. }
    split; [eapply grows_trans; eassumption|]. split; [|split].
    + intros Hm.
      eapply (modify_at_all_nodes omit_only_under_all
                (λ n, meta_fields n = ALL_FIELDS));
        [apply omit_only_under_all_entries | apply omit_only_under_all_default
        | | | apply Hinv, Hm | exact Hm'].
      * intros n0 n0' _ Hall0 [= <-]. split; [left; exact Hall0 | reflexivity].
      * rewrite (node_at_target _ _ _ Hn). exact Hf.
    + intros i Hi. destruct (Hall i Hi) as (ni & Hni & Hfi).
      destruct (Hgrow' _ _ Hni) as (ni' & Hni' & Hkeep & _). eauto.
    + intros y Hy. rewrite El in Hy. injection Hy as <-.
      eexists. split; [exact Hn'|]. simpl.
      apply elem_of_union_l, elem_of_singleton. reflexivity.
  - cbn [mbind result_bind suppress is_IndexError]. exists m1.
    split; [reflexivity|]. split; [exact Hgrow|]. split; [exact Hinv|].
    apply last_None in El. subst field_list. split.
    + intros i Hi. simpl in Hi. lia.
    + intros y Hy. discriminate.
Qed.

Lemma omit_pass_spec (paths : list (list string)) (m : dr_meta_t) :
  ∃ m', foldM process_omit_path paths m = Ok m'
        ∧ grows m m'
        ∧ (all_nodes omit_only_under_all m → all_nodes omit_only_under_all m')
        ∧ ∀ field_list, In field_list paths → omit_path_recorded field_list m'.
Proof.
  revert m. induction paths as [|p paths IH]; intros m.
  - exists m. split; [reflexivity|]. split; [apply grows_refl|].
    split; [tauto|]. intros fl [].
  - destruct (process_omit_path_spec m p) as (m1 & Hm1 & Hgrow1 & Hinv1 & Hrec1).
    destruct (IH m1) as (m' & Hm' & Hgrow & Hinv & Hrec).
    exists m'. simpl. rewrite Hm1. cbn [mbind result_bind].
    split; [exact Hm'|]. split; [eapply grows_trans; eassumption|].
    split; [tauto|]. intros fl [<-|Hin].
    + eapply omit_path_recorded_grows; eassumption.
    + apply Hrec, Hin.
Qed.

Lemma include_node_entries (n n' : dr_meta_t) :
  meta_fields n = meta_fields n' → meta_omit n = meta_omit n' →
  include_node n → include_node n'.
Proof. unfold include_node. intros -> ->. tauto. Qed.

Lemma include_node_default : include_node dynamic_read_meta.
Proof. split; [discriminate | reflexivity]. Qed.

Lemma fields_add_include_node (field : string) (n : dr_meta_t) :
  include_node n →
  ∃ n', fields_add field n = Ok n'
        ∧ include_node n' ∧ meta_nested n' = meta_nested n.
Proof.
  intros [Hset Homit]. unfold fields_add.
  destruct (meta_fields n) as [|names]; [congruence|].
  eexists. split; [reflexivity|]. split; [|reflexivity].
  split; [discriminate | exact Homit].
Qed.

(** The include pass never raises: [fields.add] is only reached on
    nodes whose [fields] entry is still a set. *)
Lemma include_segment_step (field : string)
    (st : dr_meta_t * option (string * meta_ref)) :
  all_nodes include_node st.1 →
  ∃ st', segment_step fields_add st field = Ok st' ∧ all_nodes include_node st'.1.
Proof.
  destruct st as [m parent_info]. cbn [fst]. intros Hm. unfold segment_step.
  set (r := field_meta_ref parent_info).
  destruct (fields_add_include_node field (target r m)) as (n' & Hadd & _).
  { apply all_nodes_target; [apply include_node_default | exact Hm]. }
  destruct (modify_at_Ok r _ m n' Hadd) as (m' & Hm' & _).
  rewrite Hm'. eexists. split; [reflexivity|]. cbn [fst].
  eapply (modify_at_all_nodes include_node (λ _, True));
    [apply include_node_entries | apply include_node_default | | exact I
    | exact Hm | exact Hm'].
  intros n0 n0' Hn0 _ Hadd0.
  destruct (fields_add_include_node field n0 Hn0) as (n1 & Hadd1 & Hn1 & Hnested).
  rewrite Hadd1 in Hadd0. injection Hadd0 as <-. split; assumption.
Qed.

Lemma process_filter_path_spec (m : dr_meta_t) (field_list : list string) :
  all_nodes include_node m →
  ∃ m', process_filter_path m field_list = Ok m' ∧ all_nodes include_node m'.
Proof.
  intros Hm. unfold process_filter_path.
  destruct (foldM_invariant (λ st, all_nodes include_node st.1)
              (segment_step fields_add) field_list (m, None) Hm)
    as ([m' parent_info] & -> & Hm').
  { intros st field Hst _. apply include_segment_step, Hst. }
  exists m'. split; [reflexivity | exact Hm'].
Qed.

Lemma include_pass_spec (paths : list (list string)) :
  ∃ m, foldM process_filter_path paths dynamic_read_meta = Ok m
       ∧ all_nodes include_node m.
Proof.
  apply (foldM_invariant (all_nodes include_node)).
  - apply all_nodes_default, include_node_default.
  - intros m field_list Hm _. apply process_filter_path_spec, Hm.
Qed.

Lemma include_node_omit_only_under_all (n : dr_meta_t) :
  include_node n → omit_only_under_all n.
Proof. intros [_ Homit]. right. exact Homit. Qed.

(** The parser is total; every node of its tree satisfies the
    data-model invariant and every omit path is recorded. *)
Lemma process_field_options_spec (filter_fields omit_fields : list string) :
  ∃ root, process_field_options filter_fields omit_fields = Ok root
          ∧ all_nodes omit_only_under_all root
          ∧ ∀ path, In path omit_fields →
                    omit_path_recorded (split path LOOKUP_SEP) root.
Proof.
  unfold process_field_options.
  destruct (include_pass_spec (map (λ each, split each LOOKUP_SEP) filter_fields))
    as (m & -> & Hm).
  cbn [mbind result_bind].
  destruct (omit_pass_spec (map (λ each, split each LOOKUP_SEP) omit_fields) m)
    as (root & Hroot & _ & Hinv & Hrec).
  exists root. split; [exact Hroot|]. split.
  - apply Hinv. intros r n Hn. apply include_node_omit_only_under_all, (Hm r n Hn).
  - intros path Hin. apply Hrec, in_map_iff. eauto.
Qed.

Lemma split_from_nonempty (sep s : string) (skip : nat) (cur : string) :
  split_from sep s skip cur ≠ [].
Proof.
  revert skip cur. induction s as [|c s IH]; intros skip cur; cbn [split_from].
  - discriminate.
  - destruct skip; [|apply IH]. destruct (String.prefix sep (String c s)).
    + discriminate.
    + apply IH.
Qed.

Lemma last_Some_length {A : Type} (xs : list A) (x : A) :
  last xs = Some x → List.length xs - 1 < List.length xs.
Proof. destruct xs; [discriminate | simpl; lia]. Qed.

Lemma split_last (s sep : string) : is_Some (last (split s sep)).
Proof.
  destruct (last (split s sep)) eqn:E; [eauto|].
  apply last_None in E. destruct (split_from_nonempty sep s 0 "" E).
Qed.

(** ** The field resolver ([derive_desired_fields]) *)

Lemma extract_serializer_from_child_Raise (child : Field) (e : exn) :
  extract_serializer_from_child child = Raise e → e = ChildNotSupported.
Proof.
  destruct child as [|s|[|s|c]]; simpl; congruence.
Qed.

(** The attachment step never raises: both exceptions of its block are
    suppressed. *)
Lemma attach_nested_cases (fields_map : list (string * Field)) (field : string)
    (field_meta : dr_meta_t) :
  (not_attachable fields_map field
   ∧ attach_nested fields_map (field, field_meta) = Ok fields_map)
  ∨ ∃ child s,
      dict_get fields_map field = Some child
      ∧ extract_serializer_from_child child = Ok s
      ∧ attach_nested fields_map (field, field_meta)
        = Ok (match dr_meta s with
              | None => dict_set fields_map field
                          (with_serializer child (set_dr_meta s (Some field_meta)))
              | Some _ => fields_map
              end).
Proof.
  unfold attach_nested, not_attachable, getitem.
  destruct (dict_get fields_map field) as [child|] eqn:Eget; cbn [mbind result_bind].
  - destruct (extract_serializer_from_child child) as [s|e] eqn:Eext;
      cbn [mbind result_bind].
    + right. exists child, s. split; [reflexivity|]. split; [exact Eext|].
      destruct (dr_meta s); reflexivity.
    + left. apply extract_serializer_from_child_Raise in Eext as ->.
      split; reflexivity.
  - left. split; [exact I | reflexivity].
Qed.

Lemma attach_nested_Ok (fields_map : list (string * Field)) (item : string * dr_meta_t) :
  ∃ fields_map', attach_nested fields_map item = Ok fields_map'.
Proof.
  destruct item as [field field_meta].
  destruct (attach_nested_cases fields_map field field_meta)
    as [[_ H]|(child & s & _ & _ & H)]; eauto.
Qed.

Lemma attach_nested_not_attachable (fields_map fields_map' : list (string * Field))
    (item : string * dr_meta_t) (field : string) :
  attach_nested fields_map item = Ok fields_map' →
  not_attachable fields_map field → not_attachable fields_map' field.
Proof.
  destruct item as [k field_meta]. intros Hstep Hfield.
  destruct (attach_nested_cases fields_map k field_meta)
    as [[_ H]|(child & s & Hget & Hext & H)]; rewrite H in Hstep;
    injection Hstep as <-; [exact Hfield|].
  destruct (dr_meta s); [exact Hfield|].
  unfold not_attachable in *. rewrite dict_get_set.
  destruct (String.eqb_spec k field) as [->|Hne]; [|exact Hfield].
  rewrite Hget in Hfield. congruence.
Qed.

Lemma attach_nested_keys (fields_map fields_map' : list (string * Field))
    (item : string * dr_meta_t) :
  attach_nested fields_map item = Ok fields_map' →
  map fst fields_map' = map fst fields_map.
Proof.
  destruct item as [k field_meta]. intros Hstep.
  destruct (attach_nested_cases fields_map k field_meta)
    as [[_ H]|(child & s & Hget & Hext & H)]; rewrite H in Hstep;
    injection Hstep as <-; [reflexivity|].
  destruct (dr_meta s); [reflexivity|]. apply dict_set_keys. eauto.
Qed.

Lemma attach_loop_Ok (nested : list (string * dr_meta_t))
    (fields_map : list (string * Field)) :
  ∃ fields_map',
    foldM attach_nested nested fields_map = Ok fields_map'
    ∧ map fst fields_map' = map fst fields_map
    ∧ ∀ field, not_attachable fields_map field → not_attachable fields_map' field.
Proof.
  revert fields_map. induction nested as [|item nested IH]; intros fields_map.
  - exists fields_map. split; [reflexivity|]. split; [reflexivity | tauto].
  - destruct (attach_nested_Ok fields_map item) as (fm1 & H1).
    destruct (IH fm1) as (fm' & Hloop & Hkeys & Hna).
    exists fm'. cbn [foldM]. rewrite H1. cbn [mbind result_bind].
    split; [exact Hloop|]. split.
    + rewrite Hkeys. eapply attach_nested_keys, H1.
    + intros field Hfield. eapply Hna, attach_nested_not_attachable; eassumption.
Qed.

(** The set returned by [derive_desired_fields], branch by branch. *)
Lemma derive_desired_fields_eq (self : Serializer) (meta : dr_meta_t)
    (fields_map : list (string * Field)) :
  dr_meta self = Some meta →
  ∃ fields_map',
    foldM attach_nested (meta_nested meta) fields_map = Ok fields_map'
    ∧ derive_desired_fields self fields_map
      = Ok (if bool_decide (meta_omit meta ≠ ∅)
            then keys fields_map ∖ meta_omit meta
            else match meta_fields meta with
                 | ALL_FIELDS => keys fields_map
                 | field_set names => names ∩ keys fields_map
                 end,
            fields_map').
Proof.
  intros Hmeta. unfold derive_desired_fields. rewrite Hmeta.
  destruct (attach_loop_Ok (meta_nested meta) fields_map) as (fm' & -> & _).
  exists fm'. split; reflexivity.
Qed.

(** C9. A non-empty [omit] set takes precedence: the exposed set is
    the candidate set minus [omit], whatever the [fields] entry is; the
    result is the same for every other value of the [fields] entry. *)
Theorem derive_desired_fields_omit_precedence (self : Serializer)
    (meta : dr_meta_t) (fields_map : list (string * Field)) :
  dr_meta self = Some meta →
  meta_omit meta ≠ ∅ →
  ∃ fields_map',
    derive_desired_fields self fields_map
    = Ok (keys fields_map ∖ meta_omit meta, fields_map')
    ∧ ∀ fields_entry' : fields_entry,
        derive_desired_fields
          (set_dr_meta self
             (Some (mk_dr_meta fields_entry' (meta_omit meta) (meta_nested meta))))
          fields_map
        = Ok (keys fields_map ∖ meta_omit meta, fields_map').
Proof.
  intros Hmeta Homit.
  destruct (derive_desired_fields_eq self meta fields_map Hmeta)
    as (fm' & Hloop & Hderive).
  rewrite bool_decide_eq_true_2 in Hderive by exact Homit.
  exists fm'. split; [exact Hderive|]. intros fields_entry'.
  destruct (derive_desired_fields_eq
              (set_dr_meta self
                 (Some (mk_dr_meta fields_entry' (meta_omit meta) (meta_nested meta))))
              _ fields_map eq_refl) as (fm'' & Hloop' & Hderive').
  cbn [meta_omit meta_nested] in *.
  rewrite bool_decide_eq_true_2 in Hderive' by exact Homit.
  rewrite Hderive'. congruence.
Qed.

Lemma derive_desired_fields_omit_precedence_witness :
  ∃ fields_map',
    derive_desired_fields
      (mk_serializer [] [] (Some (mk_dr_meta (field_set {["title"]}) {["id"]} [])))
      [("id", OtherField); ("title", OtherField); ("author", OtherField)]
    = Ok (keys [("id", OtherField); ("title", OtherField); ("author", OtherField)]
            ∖ {["id"]}, fields_map')
    ∧ ∀ fields_entry' : fields_entry,
        derive_desired_fields
          (set_dr_meta
             (mk_serializer [] [] (Some (mk_dr_meta (field_set {["title"]}) {["id"]} [])))
             (Some (mk_dr_meta fields_entry' {["id"]} [])))
          [("id", OtherField); ("title", OtherField); ("author", OtherField)]
        = Ok (keys [("id", OtherField); ("title", OtherField); ("author", OtherField)]
                ∖ {["id"]}, fields_map').
Proof.
  assert ({["id"]} ≠@{gset string} ∅) as Homit.
  { apply (bool_decide_unpack _). vm_compute. exact I. }
  exact (derive_desired_fields_omit_precedence
           (mk_serializer [] [] (Some (mk_dr_meta (field_set {["title"]}) {["id"]} [])))
           (mk_dr_meta (field_set {["title"]}) {["id"]} [])
           [("id", OtherField); ("title", OtherField); ("author", OtherField)]
           eq_refl Homit).
Defined.

(** C3. Field resolution for a selection node [S] of a tree built by
    the parser, on the candidate names [F] of [fields_map]. In omit
    mode ([fields] is [ALL_FIELDS], [omit] non-empty) the exposed set
    is [F ∖ omit]; omitting one more name that is not in [F] changes
    nothing. With an explicit include set the exposed set is
    [F ∩ fields]; including one more name that is not in [F] changes
    nothing. With [ALL_FIELDS] and an empty [omit] the exposed set is
    [F]. *)
Theorem derive_desired_fields_contract
    (filter_fields omit_fields : list string) (root S : dr_meta_t) (r : meta_ref)
    (self : Serializer) (fields_map : list (string * Field)) :
  process_field_options filter_fields omit_fields = Ok root →
  node_at r root = Some S →
  dr_meta self = Some S →
  let F := keys fields_map in
  let resolve (meta : dr_meta_t) :=
    derive_desired_fields (set_dr_meta self (Some meta)) fields_map in
  ∃ fields_map',
    (meta_fields S = ALL_FIELDS → meta_omit S ≠ ∅ →
       derive_desired_fields self fields_map = Ok (F ∖ meta_omit S, fields_map'))
    ∧ (meta_fields S = ALL_FIELDS →
       ∀ unknown, unknown ∉ F →
         resolve (mk_dr_meta ALL_FIELDS ({[unknown]} ∪ meta_omit S) (meta_nested S))
         = derive_desired_fields self fields_map)
    ∧ (∀ names, meta_fields S = field_set names →
       derive_desired_fields self fields_map = Ok (F ∩ names, fields_map')
       ∧ ∀ unknown, unknown ∉ F →
           resolve (mk_dr_meta (field_set ({[unknown]} ∪ names)) (meta_omit S)
                               (meta_nested S))
           = Ok (F ∩ names, fields_map'))
    ∧ (meta_fields S = ALL_FIELDS → meta_omit S = ∅ →
       derive_desired_fields self fields_map = Ok (F, fields_map')).
Proof.
  intros Hroot HS Hself F resolve.
  destruct (process_field_options_spec filter_fields omit_fields)
    as (root' & Hroot' & Hinv & _).
  assert (root' = root) as -> by congruence.
  specialize (Hinv r S HS).
  destruct (derive_desired_fields_eq self S fields_map Hself)
    as (fm' & Hloop & Hderive). fold F in Hderive.
  exists fm'. split; [|split; [|split]].
  - intros Hall Homit.
    rewrite Hderive, bool_decide_eq_true_2 by exact Homit. reflexivity.
  - intros Hall unknown Hunknown. subst resolve. cbv beta.
    destruct (derive_desired_fields_eq
                (set_dr_meta self
                   (Some (mk_dr_meta ALL_FIELDS ({[unknown]} ∪ meta_omit S)
                                     (meta_nested S))))
                _ fields_map eq_refl) as (fm'' & Hloop' & ->).
    cbn [meta_omit meta_nested] in *. fold F.
    rewrite Hderive, Hall, bool_decide_eq_true_2 by set_solver.
    assert (fm'' = fm') as -> by congruence.
    f_equal. f_equal.
    destruct (decide (meta_omit S = ∅)) as [Hempty|Hne].
    + rewrite bool_decide_eq_false_2 by (intros Hn; exact (Hn Hempty)). set_solver.
    + rewrite bool_decide_eq_true_2 by exact Hne. set_solver.
  - intros names Hnames.
    assert (meta_omit S = ∅) as Hempty.
    { destruct Hinv as [Hall|Hempty]; [congruence | exact Hempty]. }
    split.
    + rewrite Hderive, bool_decide_eq_false_2, Hnames by (rewrite Hempty; congruence).
      f_equal. f_equal. apply intersection_comm_L.
    + intros unknown Hunknown. subst resolve. cbv beta.
      destruct (derive_desired_fields_eq
                  (set_dr_meta self
                     (Some (mk_dr_meta (field_set ({[unknown]} ∪ names)) (meta_omit S)
                                       (meta_nested S))))
                  _ fields_map eq_refl) as (fm'' & Hloop' & ->).
      cbn [meta_omit meta_nested meta_fields] in *. fold F.
      rewrite bool_decide_eq_false_2 by (rewrite Hempty; congruence).
      f_equal. f_equal; [set_solver | congruence].
  - intros Hall Hempty.
    rewrite Hderive, bool_decide_eq_false_2, Hall by (rewrite Hempty; congruence).
    reflexivity.
Qed.

Lemma derive_desired_fields_contract_witness :
  let fields_map := [("id", OtherField); ("title", OtherField); ("isbn", OtherField)] in
  let S := mk_dr_meta (field_set ({["zzz"]} ∪ ({["title"]} ∪ ∅))) ∅ [] in
  let self := mk_serializer [] fields_map (Some S) in
  let F := keys fields_map in
  let resolve (meta : dr_meta_t) :=
    derive_desired_fields (set_dr_meta self (Some meta)) fields_map in
  ∃ fields_map',
    (meta_fields S = ALL_FIELDS → meta_omit S ≠ ∅ →
       derive_desired_fields self fields_map = Ok (F ∖ meta_omit S, fields_map'))
    ∧ (meta_fields S = ALL_FIELDS →
       ∀ unknown, unknown ∉ F →
         resolve (mk_dr_meta ALL_FIELDS ({[unknown]} ∪ meta_omit S) (meta_nested S))
         = derive_desired_fields self fields_map)
    ∧ (∀ names, meta_fields S = field_set names →
       derive_desired_fields self fields_map = Ok (F ∩ names, fields_map')
       ∧ ∀ unknown, unknown ∉ F →
           resolve (mk_dr_meta (field_set ({[unknown]} ∪ names)) (meta_omit S)
                               (meta_nested S))
           = Ok (F ∩ names, fields_map'))
    ∧ (meta_fields S = ALL_FIELDS → meta_omit S = ∅ →
       derive_desired_fields self fields_map = Ok (F, fields_map')).
Proof.
  intros fields_map S self.
  refine (derive_desired_fields_contract ["title"; "zzz"] [] S S [] self fields_map
            _ eq_refl eq_refl).
  vm_compute. reflexivity.
Defined.

(** C8. A nested selector whose field name is not a candidate field, or
    whose field is not a selection-capable node, raises nothing:
    resolution returns, with the same exposed set and the same fields
    as it does without that entry. *)
Theorem derive_desired_fields_ignores_entry (self : Serializer)
    (fields_entry : fields_entry) (omit : gset string)
    (before after : list (string * dr_meta_t)) (field : string)
    (field_meta : dr_meta_t) (fields_map : list (string * Field)) :
  dr_meta self
  = Some (mk_dr_meta fields_entry omit (before ++ (field, field_meta) :: after)) →
  (dict_get fields_map field = None
   ∨ ∃ child, dict_get fields_map field = Some child
              ∧ extract_serializer_from_child child = Raise ChildNotSupported) →
  ∃ desired_field_names fields_map',
    derive_desired_fields self fields_map = Ok (desired_field_names, fields_map')
    ∧ derive_desired_fields
        (set_dr_meta self (Some (mk_dr_meta fields_entry omit (before ++ after))))
        fields_map
      = Ok (desired_field_names, fields_map').
Proof.
  intros Hself Hfield.
  assert (not_attachable fields_map field) as Hna.
  { unfold not_attachable. destruct Hfield as [->|(child & -> & Hext)]; [exact I | exact Hext]. }
  destruct (derive_desired_fields_eq self _ fields_map Hself)
    as (fm' & Hloop & ->).
  destruct (derive_desired_fields_eq
              (set_dr_meta self (Some (mk_dr_meta fields_entry omit (before ++ after))))
              _ fields_map eq_refl) as (fm'' & Hloop' & ->).
  cbn [meta_nested meta_omit meta_fields] in *.
  do 2 eexists. split; [reflexivity|]. f_equal. f_equal.
  rewrite foldM_app in Hloop, Hloop'.
  destruct (attach_loop_Ok before fields_map) as (fm1 & Hbefore & _ & Hna1).
  rewrite Hbefore in Hloop, Hloop'. cbn [mbind result_bind foldM] in Hloop, Hloop'.
  destruct (attach_nested_cases fm1 field field_meta)
    as [[_ Hskip]|(child & s & Hget & Hext & _)].
  - rewrite Hskip in Hloop. cbn [mbind result_bind] in Hloop. congruence.
  - specialize (Hna1 field Hna). unfold not_attachable in Hna1.
    rewrite Hget in Hna1. congruence.
Qed.

Lemma derive_desired_fields_ignores_entry_witness :
  let fields_map :=
    [("id", OtherField); ("publisher", OtherField);
     ("tags", ListSerializer OtherField)] in
  let self (nested : list (string * dr_meta_t)) :=
    mk_serializer [] fields_map
      (Some (mk_dr_meta (field_set {["publisher"]}) ∅ nested)) in
  ∃ desired_field_names fields_map',
    derive_desired_fields
      (self ([] ++ ("publisher", mk_dr_meta (field_set {["name"]}) ∅ []) :: []))
      fields_map
    = Ok (desired_field_names, fields_map')
    ∧ derive_desired_fields
        (set_dr_meta
           (self ([] ++ ("publisher", mk_dr_meta (field_set {["name"]}) ∅ []) :: []))
           (Some (mk_dr_meta (field_set {["publisher"]}) ∅ ([] ++ []))))
        fields_map
      = Ok (desired_field_names, fields_map').
Proof.
  intros fields_map self.
  refine (derive_desired_fields_ignores_entry
            (self ([] ++ ("publisher", mk_dr_meta (field_set {["name"]}) ∅ []) :: []))
            (field_set {["publisher"]}) ∅ [] [] "publisher"
            (mk_dr_meta (field_set {["name"]}) ∅ []) fields_map eq_refl _).
  right. exists OtherField. split; reflexivity.
Defined.


(** ** Bound fields ([fields]) *)

Lemma field_depth_extract (child : Field) (s : Serializer) :
  extract_serializer_from_child child = Ok s →
  field_depth child = serializer_depth s.
Proof.
  destruct child as [|s0|[|s0|c]]; simpl; congruence.
Qed.

Lemma serializer_depth_set_dr_meta (s : Serializer) (m : option dr_meta_t) :
  serializer_depth (set_dr_meta s m) = serializer_depth s.
Proof. destruct s. reflexivity. Qed.

Lemma field_depth_with_serializer (child : Field) (s s' : Serializer) :
  extract_serializer_from_child child = Ok s →
  field_depth (with_serializer child s') = serializer_depth s'.
Proof.
  destruct child as [|s0|[|s0|c]]; simpl; congruence.
Qed.

(** Attaching selection nodes changes no key and no nesting depth. *)
Lemma attach_nested_depth (fields_map fields_map' : list (string * Field))
    (item : string * dr_meta_t) (k : string) (f' : Field) :
  attach_nested fields_map item = Ok fields_map' →
  dict_get fields_map' k = Some f' →
  ∃ f, dict_get fields_map k = Some f ∧ field_depth f' = field_depth f.
Proof.
  destruct item as [field field_meta]. intros Hstep Hget'.
  destruct (attach_nested_cases fields_map field field_meta)
    as [[_ H]|(child & s & Hget & Hext & H)]; rewrite H in Hstep;
    injection Hstep as <-; [eauto|].
  destruct (dr_meta s); [eauto|].
  rewrite dict_get_set in Hget'.
  destruct (String.eqb_spec field k) as [->|Hne]; [|eauto].
  injection Hget' as <-. exists child. split; [exact Hget|].
  rewrite (field_depth_with_serializer _ _ _ Hext), serializer_depth_set_dr_meta.
  symmetry. apply field_depth_extract, Hext.
Qed.

Lemma attach_loop_depth (nested : list (string * dr_meta_t))
    (fields_map fields_map' : list (string * Field)) (k : string) (f' : Field) :
  foldM attach_nested nested fields_map = Ok fields_map' →
  dict_get fields_map' k = Some f' →
  ∃ f, dict_get fields_map k = Some f ∧ field_depth f' = field_depth f.
Proof.
  revert fields_map. induction nested as [|item nested IH]; intros fields_map; simpl.
  - intros [= <-]. eauto.
  - intros Hloop Hget'. apply bind_Ok_inv in Hloop as (fm1 & Hstep & Hloop).
    destruct (IH _ Hloop Hget') as (f1 & Hget1 & Hd1).
    destruct (attach_nested_depth _ _ _ _ _ Hstep Hget1) as (f & Hget & Hd).
    exists f. split; [exact Hget | congruence].
Qed.

(** The binding loop of [fields]: every requested name is a key of
    [fields_map], so no lookup raises. *)
Lemma bind_loop (fields_map : list (string * Field)) (names : list string)
    (bound : list (string * Field)) :
  (∀ k, k ∈ names → is_Some (dict_get fields_map k)) →
  ∃ bound',
    foldM (λ fields field, v ← getitem fields_map field; Ok (dict_set fields field v))
          names bound = Ok bound'
    ∧ ∀ k, dict_get bound' k
           = if bool_decide (k ∈ names) then dict_get fields_map k
             else dict_get bound k.
Proof.
  revert bound. induction names as [|x names IH]; intros bound Hkeys.
  - exists bound. split; [reflexivity|]. intros k.
    rewrite bool_decide_eq_false_2 by apply not_elem_of_nil. reflexivity.
  - destruct (Hkeys x) as [v Hv]; [apply list_elem_of_here|].
    destruct (IH (dict_set bound x v)) as (bound' & Hloop & Hget).
    { intros k Hk. apply Hkeys, list_elem_of_further, Hk. }
    assert (getitem fields_map x = Ok v) as Hitem
      by (unfold getitem; rewrite Hv; reflexivity).
    exists bound'. cbn [foldM]. rewrite Hitem.
    cbn [mbind result_bind]. split; [exact Hloop|].
    intros k. rewrite Hget, dict_get_set.
    destruct (decide (k ∈ names)) as [Hin|Hnin].
    + rewrite !bool_decide_eq_true_2;
        [reflexivity | apply list_elem_of_further, Hin | exact Hin].
    + rewrite (bool_decide_eq_false_2 _ Hnin).
      destruct (String.eqb_spec x k) as [->|Hne].
      * rewrite bool_decide_eq_true_2 by apply list_elem_of_here. congruence.
      * rewrite bool_decide_eq_false_2; [reflexivity|].
        rewrite elem_of_cons. intros [?|?]; congruence.
Qed.

(** [fields] never raises; a bound field is a field of [get_fields()]
    of the same nesting depth. *)
Lemma fields_Ok (self : Serializer) :
  ∃ bound,
    fields self = Ok bound
    ∧ ∀ k f', dict_get bound k = Some f' →
        ∃ f, dict_get (get_fields self) k = Some f ∧ field_depth f' = field_depth f.
Proof.
  unfold fields.
  assert (∃ names fields_map',
            match dr_meta self with
            | Some _ => derive_desired_fields self (get_fields self)
            | None => Ok (keys (get_fields self), get_fields self)
            end = Ok (names, fields_map')
            ∧ names ⊆ keys fields_map'
            ∧ ∀ k f', dict_get fields_map' k = Some f' →
                ∃ f, dict_get (get_fields self) k = Some f
                     ∧ field_depth f' = field_depth f)
    as (names & fm' & -> & Hsub & Hdepth).
  { destruct (dr_meta self) as [meta|] eqn:Hmeta.
    - destruct (derive_desired_fields_eq self meta (get_fields self) Hmeta)
        as (fm' & Hloop & ->).
      destruct (attach_loop_Ok (meta_nested meta) (get_fields self))
        as (fm'' & Hloop' & Hkeys & _).
      assert (fm'' = fm') as -> by congruence.
      do 2 eexists. split; [reflexivity|]. split.
      + unfold keys. rewrite Hkeys.
        destruct (bool_decide _); [|destruct (meta_fields meta)]; set_solver.
      + intros k f' Hget'. eapply attach_loop_depth; eassumption.
    - do 2 eexists. split; [reflexivity|]. split; [reflexivity | eauto]. }
  cbn [mbind result_bind].
  destruct (bind_loop fm' (elements names) []) as (bound & -> & Hget).
  { intros k Hk. apply dict_get_is_Some, Hsub, elem_of_elements, Hk. }
  exists bound. split; [reflexivity|]. intros k f' Hk. rewrite Hget in Hk.
  destruct (bool_decide _); [|discriminate]. apply Hdepth, Hk.
Qed.

(** Without a selection node every declared field is bound. *)
Lemma fields_unrestricted (self : Serializer) :
  dr_meta self = None →
  ∃ bound, fields self = Ok bound
           ∧ ∀ k, dict_get bound k = dict_get (get_fields self) k.
Proof.
  intros Hmeta. unfold fields. rewrite Hmeta. cbn [mbind result_bind].
  destruct (bind_loop (get_fields self) (elements (keys (get_fields self))) [])
    as (bound & -> & Hget).
  { intros k Hk. apply dict_get_is_Some, elem_of_elements, Hk. }
  exists bound. split; [reflexivity|]. intros k. rewrite Hget.
  destruct (decide (k ∈ elements (keys (get_fields self)))) as [Hin|Hnin].
  - rewrite bool_decide_eq_true_2 by exact Hin. reflexivity.
  - rewrite bool_decide_eq_false_2 by exact Hnin. symmetry.
    apply dict_get_None. intros Hk. apply Hnin, elem_of_elements, Hk.
Qed.

Lemma fields_with_relational (self : Serializer) (relational : list string) :
  fields (with_relational self relational) = fields self.
Proof. destruct self. reflexivity. Qed.

Lemma dict_get_depth (self : Serializer) (k : string) (f : Field) :
  dict_get (get_fields self) k = Some f →
  (field_depth f < serializer_depth self)%nat.
Proof.
  destruct self as [rel g meta]. cbn [get_fields serializer_depth]. intros Hget.
  apply dict_get_Some_In in Hget.
  assert (Forall (λ d : nat, (d ≤ list_max (map (λ item, field_depth item.2) g))%nat)
                 (map (λ item, field_depth item.2) g)) as Hall
    by (apply list_max_le; reflexivity).
  rewrite List.Forall_forall in Hall.
  specialize (Hall (field_depth f)). cbn beta in Hall.
  assert (field_depth f ≤ list_max (map (λ item, field_depth item.2) g))%nat; [|lia].
  apply Hall. apply in_map_iff. exists (k, f). split; [reflexivity | exact Hget].
Qed.

(** ** The relation-graph walker ([evaluate_select_prefetch]) *)

Section Walker.
Variable recurse : Serializer → string → result (list string * list string).
Variable bound : list (string * Field).
Variable accessor_prefix : string.

Let visit := visit_relation recurse bound accessor_prefix.

(** The loop body only appends to the two lists. *)
Lemma visit_relation_appends (final_select final_prefetch : list string)
    (field_name : string) :
  visit (final_select, final_prefetch) field_name
  = (hints ← visit ([], []) field_name;
     Ok (final_select ++ hints.1, final_prefetch ++ hints.2)).
Proof.
  unfold visit, visit_relation.
  destruct (dict_get bound field_name) as [field_obj|]; cbn [mbind result_bind];
    [|rewrite !app_nil_r; reflexivity].
  destruct (extract_serializer_from_child field_obj) as [child|e];
    cbn [mbind result_bind suppress].
  - destruct (recurse child _) as [[sub_select sub_prefetch]|e];
      cbn [mbind result_bind suppress].
    + destruct (nonempty sub_select), (is_child_multiple field_obj),
        (nonempty sub_prefetch); cbn [negb mbind result_bind suppress fst snd app];
        rewrite ?app_nil_r, ?app_assoc; reflexivity.
    + destruct (is_ChildNotSupported e); cbn [mbind result_bind];
        rewrite ?app_nil_r; reflexivity.
  - destruct (is_ChildNotSupported e); cbn [mbind result_bind];
      rewrite ?app_nil_r; reflexivity.
Qed.

Lemma visit_loop_appends (names : list string)
    (final_select final_prefetch : list string) :
  foldM visit names (final_select, final_prefetch)
  = (hints ← foldM visit names ([], []);
     Ok (final_select ++ hints.1, final_prefetch ++ hints.2)).
Proof.
  revert final_select final_prefetch.
  induction names as [|x names IH]; intros fs fp; cbn [foldM].
  - cbn [mbind result_bind fst snd]. rewrite !app_nil_r. reflexivity.
  - rewrite visit_relation_appends.
    destruct (visit ([], []) x) as [[c1 c2]|e]; cbn [mbind result_bind fst snd];
      [|reflexivity].
    rewrite IH, (IH c1 c2).
    destruct (foldM visit names ([], [])) as [[d1 d2]|e];
      cbn [mbind result_bind fst snd]; [|reflexivity].
    rewrite !app_assoc. reflexivity.
Qed.

Lemma visit_loop_app (names1 names2 : list string) :
  foldM visit (names1 ++ names2) ([], [])
  = (head ← foldM visit names1 ([], []);
     tail ← foldM visit names2 ([], []);
     Ok (head.1 ++ tail.1, head.2 ++ tail.2)).
Proof.
  rewrite foldM_app.
  destruct (foldM visit names1 ([], [])) as [[h1 h2]|e]; cbn [mbind result_bind];
    [|reflexivity].
  apply visit_loop_appends.
Qed.

Lemma visit_loop_single (field_name : string) :
  foldM visit [field_name] ([], []) = visit ([], []) field_name.
Proof.
  cbn [foldM]. destruct (visit ([], []) field_name); reflexivity.
Qed.

(** A relational name that is not bound contributes nothing. *)
Lemma visit_loop_unbound (names : list string) :
  (∀ k, In k names → dict_get bound k = None) →
  foldM visit names ([], []) = Ok ([], []).
Proof.
  induction names as [|x names IH]; intros Hnames; [reflexivity|].
  cbn [foldM].
  assert (visit ([], []) x = Ok ([], [])) as ->.
  { unfold visit, visit_relation. rewrite Hnames by (left; reflexivity). reflexivity. }
  cbn [mbind result_bind].
  apply IH. intros k Hk. apply Hnames. right; exact Hk.
Qed.
End Walker.

Lemma serializer_depth_with_relational (self : Serializer) (relational : list string) :
  serializer_depth (with_relational self relational) = serializer_depth self.
Proof. destruct self. reflexivity. Qed.

Lemma evaluate_select_prefetch_unfold (depth_limit : nat) (self : Serializer)
    (accessor_prefix : string) (bound : list (string * Field)) :
  fields self = Ok bound →
  evaluate_select_prefetch (S depth_limit) self accessor_prefix
  = foldM (visit_relation (evaluate_select_prefetch depth_limit) bound accessor_prefix)
          (relational_fields self) ([], []).
Proof. intros Hbound. cbn [evaluate_select_prefetch]. rewrite Hbound. reflexivity. Qed.

(** The hints of a walk are those of the relational names in order. *)
Lemma evaluate_select_prefetch_app (depth_limit : nat) (self : Serializer)
    (accessor_prefix : string) (names1 names2 : list string) :
  relational_fields self = names1 ++ names2 →
  evaluate_select_prefetch (S depth_limit) self accessor_prefix
  = (head ← evaluate_select_prefetch (S depth_limit) (with_relational self names1)
                                     accessor_prefix;
     tail ← evaluate_select_prefetch (S depth_limit) (with_relational self names2)
                                     accessor_prefix;
     Ok (head.1 ++ tail.1, head.2 ++ tail.2)).
Proof.
  intros Hrel. destruct (fields_Ok self) as (bound & Hbound & _).
  rewrite (evaluate_select_prefetch_unfold _ _ _ bound Hbound), Hrel.
  rewrite !(evaluate_select_prefetch_unfold _ _ _ bound)
    by (rewrite fields_with_relational; exact Hbound).
  apply visit_loop_app.
Qed.

Lemma evaluate_select_prefetch_single (depth_limit : nat) (self : Serializer)
    (accessor_prefix : string) (bound : list (string * Field)) (field_name : string) :
  fields self = Ok bound →
  evaluate_select_prefetch (S depth_limit) (with_relational self [field_name])
                           accessor_prefix
  = visit_relation (evaluate_select_prefetch depth_limit) bound accessor_prefix
                   ([], []) field_name.
Proof.
  intros Hbound.
  rewrite (evaluate_select_prefetch_unfold _ _ _ bound)
    by (rewrite fields_with_relational; exact Hbound).
  apply visit_loop_single.
Qed.

(** The walk returns whenever the recursion limit covers the nesting
    depth of the serializer graph. *)
Lemma evaluate_select_prefetch_total (depth_limit : nat) (self : Serializer)
    (accessor_prefix : string) :
  (serializer_depth self ≤ depth_limit)%nat →
  ∃ hints, evaluate_select_prefetch depth_limit self accessor_prefix = Ok hints.
Proof.
  revert self accessor_prefix.
  induction depth_limit as [|n IH]; intros self accessor_prefix Hdepth.
  - destruct self. simpl in Hdepth. lia.
  - destruct (fields_Ok self) as (bound & Hbound & Hfields).
    rewrite (evaluate_select_prefetch_unfold _ _ _ bound Hbound).
    destruct (foldM_invariant (λ _, True)
                (visit_relation (evaluate_select_prefetch n) bound accessor_prefix)
                (relational_fields self) ([], []) I) as (hints & Hhints & _);
      [|eauto].
    intros [fs fp] field_name _ _. unfold visit_relation.
    destruct (dict_get bound field_name) as [field_obj|] eqn:Hget; [|eauto].
    destruct (extract_serializer_from_child field_obj) as [child|e] eqn:Hext.
    + destruct (Hfields _ _ Hget) as (f0 & Hget0 & Hd).
      apply dict_get_depth in Hget0. apply field_depth_extract in Hext.
      destruct (IH child (accessor_prefix +:+ field_name +:+ LOOKUP_SEP))
        as ([sub_select sub_prefetch] & Hrec); [lia|].
      cbn [mbind result_bind]. rewrite Hrec. cbn [mbind result_bind].
      destruct (if nonempty sub_select then _ else _) as [fs' fp'].
      cbn [suppress]. eauto.
    + apply extract_serializer_from_child_Raise in Hext as ->.
      cbn [mbind result_bind suppress is_ChildNotSupported]. eauto.
Qed.

Lemma with_relational_twice (self : Serializer) (names1 names2 : list string) :
  with_relational (with_relational self names1) names2 = with_relational self names2.
Proof. reflexivity. Qed.

(** C2, as the code has it. An exposed relational field whose child
    does not support dynamic selection is skipped: the walk returns,
    and returns the hints it returns without that relational field, so
    the field's accessor path enters neither [direct_join] nor
    [batched_load] through it. *)
Theorem evaluate_select_prefetch_skips_unsupported (depth_limit : nat)
    (self : Serializer) (accessor_prefix : string) (bound : list (string * Field))
    (before after : list string) (field_name : string) (child : Field) :
  relational_fields self = before ++ field_name :: after →
  fields self = Ok bound →
  dict_get bound field_name = Some child →
  extract_serializer_from_child child = Raise ChildNotSupported →
  (serializer_depth self ≤ depth_limit)%nat →
  ∃ hints,
    evaluate_select_prefetch depth_limit self accessor_prefix = Ok hints
    ∧ evaluate_select_prefetch depth_limit (with_relational self (before ++ after))
                               accessor_prefix = Ok hints.
Proof.
  intros Hrel Hbound Hget Hext Hdepth.
  destruct (evaluate_select_prefetch_total depth_limit self accessor_prefix Hdepth)
    as (hints & Hhints).
  exists hints. split; [exact Hhints|]. rewrite <- Hhints.
  destruct depth_limit as [|n]; [reflexivity|].
  rewrite (evaluate_select_prefetch_app n self accessor_prefix _ _ Hrel).
  rewrite (evaluate_select_prefetch_app n (with_relational self (field_name :: after))
             accessor_prefix [field_name] after eq_refl).
  rewrite (evaluate_select_prefetch_app n (with_relational self (before ++ after))
             accessor_prefix before after eq_refl).
  rewrite !with_relational_twice.
  rewrite (evaluate_select_prefetch_single n self accessor_prefix bound _ Hbound).
  unfold visit_relation. rewrite Hget, Hext.
  cbn [mbind result_bind suppress is_ChildNotSupported fst snd app].
  destruct (evaluate_select_prefetch (S n) (with_relational self before) _)
    as [[h1 h2]|e]; cbn [mbind result_bind]; [|reflexivity].
  destruct (evaluate_select_prefetch (S n) (with_relational self after) _)
    as [[t1 t2]|e]; reflexivity.
Qed.

Lemma evaluate_select_prefetch_skips_unsupported_witness :
  ∃ hints,
    evaluate_select_prefetch 1 CatalogSerializer "" = Ok hints
    ∧ evaluate_select_prefetch 1 (with_relational CatalogSerializer ([] ++ ["tags"]))
                               "" = Ok hints.
Proof.
  eapply (evaluate_select_prefetch_skips_unsupported 1 CatalogSerializer ""
            _ [] ["tags"] "publisher" OtherField).
  - reflexivity.
  - vm_compute. reflexivity.
  - reflexivity.
  - reflexivity.
  - vm_compute. lia.
Defined.

(** C2 fails as stated: in [CatalogSerializer] the relations
    [publisher] (single-valued) and [tags] (list-valued) are exposed and
    their children do not support dynamic selection, and the walk
    returns no hint at all. *)
Lemma unsupported_child_hint_counterexample :
  (∃ bound,
     fields CatalogSerializer = Ok bound
     ∧ dict_get bound "publisher" = Some OtherField
     ∧ dict_get bound "tags" = Some (ListSerializer OtherField))
  ∧ In "publisher" (relational_fields CatalogSerializer)
  ∧ In "tags" (relational_fields CatalogSerializer)
  ∧ extract_serializer_from_child OtherField = Raise ChildNotSupported
  ∧ is_child_multiple OtherField = false
  ∧ extract_serializer_from_child (ListSerializer OtherField) = Raise ChildNotSupported
  ∧ is_child_multiple (ListSerializer OtherField) = true
  ∧ evaluate_select_prefetch 1 CatalogSerializer "" = Ok ([], [])
  ∧ ¬ (∀ hints, evaluate_select_prefetch 1 CatalogSerializer "" = Ok hints →
                In "publisher" hints.1 ∧ In "tags" hints.2).
Proof.
  split.
  { eexists. split; [vm_compute; reflexivity|]. split; reflexivity. }
  split; [left; reflexivity|]. split; [right; left; reflexivity|].
  do 4 (split; [reflexivity|]).
  assert (evaluate_select_prefetch 1 CatalogSerializer "" = Ok ([], [])) as Hwalk
    by (vm_compute; reflexivity).
  split; [exact Hwalk|].
  intros Hclaim. destruct (Hclaim _ Hwalk) as [[] _].
Qed.

(** The loop body on a bound field that is a selection-capable node. *)
Lemma visit_relation_capable
    (recurse : Serializer → string → result (list string * list string))
    (bound : list (string * Field)) (accessor_prefix field_name : string)
    (field_obj : Field) (child : Serializer)
    (sub_select sub_prefetch final_select final_prefetch : list string) :
  dict_get bound field_name = Some field_obj →
  extract_serializer_from_child field_obj = Ok child →
  recurse child (accessor_prefix +:+ field_name +:+ LOOKUP_SEP)
  = Ok (sub_select, sub_prefetch) →
  visit_relation recurse bound accessor_prefix (final_select, final_prefetch) field_name
  = Ok (if is_child_multiple field_obj
        then (final_select,
              (final_prefetch ++ sub_select)
                ++ (if nonempty sub_prefetch then sub_prefetch
                    else [accessor_prefix +:+ field_name]))
        else (final_select
                ++ (if nonempty sub_select then sub_select
                    else [accessor_prefix +:+ field_name]),
              final_prefetch ++ sub_prefetch)).
Proof.
  intros Hget Hext Hrec. unfold visit_relation. rewrite Hget, Hext.
  cbn [mbind result_bind]. rewrite Hrec. cbn [mbind result_bind].
  destruct (is_child_multiple field_obj), sub_select, sub_prefetch;
    cbn [nonempty negb suppress]; rewrite ?app_nil_r; reflexivity.
Qed.

(** C7, as the code has it. For an exposed relational field that is
    multi-valued and selection-capable, the field adds to
    [batched_load] the [direct_join] entries of the recursive call,
    followed by its [batched_load] entries when there are any and by
    the field's own accessor path when there are none: the own path is
    added exactly when the recursive call yields no [batched_load]
    entry, whatever [direct_join] entries it yields. *)
Theorem evaluate_select_prefetch_many_own_path (depth_limit : nat)
    (self : Serializer) (accessor_prefix : string) (bound : list (string * Field))
    (before after : list string) (field_name : string) (child : Serializer) :
  relational_fields self = before ++ field_name :: after →
  fields self = Ok bound →
  dict_get bound field_name = Some (ListSerializer (DynamicSerializer child)) →
  (serializer_depth self ≤ S depth_limit)%nat →
  ∃ sub_select sub_prefetch head tail,
    evaluate_select_prefetch depth_limit child
                             (accessor_prefix +:+ field_name +:+ LOOKUP_SEP)
    = Ok (sub_select, sub_prefetch)
    ∧ evaluate_select_prefetch (S depth_limit) (with_relational self before)
                               accessor_prefix = Ok head
    ∧ evaluate_select_prefetch (S depth_limit) (with_relational self after)
                               accessor_prefix = Ok tail
    ∧ evaluate_select_prefetch (S depth_limit) self accessor_prefix
      = Ok (head.1 ++ tail.1,
            head.2
              ++ (sub_select
                    ++ (if nonempty sub_prefetch then sub_prefetch
                        else [accessor_prefix +:+ field_name]))
              ++ tail.2).
Proof.
  intros Hrel Hbound Hget Hdepth.
  destruct (fields_Ok self) as (bound' & Hbound' & Hfields).
  assert (bound' = bound) as -> by congruence.
  destruct (Hfields _ _ Hget) as (f0 & Hget0 & Hd).
  apply dict_get_depth in Hget0. cbn [field_depth] in Hd.
  destruct (evaluate_select_prefetch_total depth_limit child
              (accessor_prefix +:+ field_name +:+ LOOKUP_SEP))
    as ([sub_select sub_prefetch] & Hsub); [lia|].
  destruct (evaluate_select_prefetch_total (S depth_limit)
              (with_relational self before) accessor_prefix)
    as (head & Hhead); [rewrite serializer_depth_with_relational; exact Hdepth|].
  destruct (evaluate_select_prefetch_total (S depth_limit)
              (with_relational self after) accessor_prefix)
    as (tail & Htail); [rewrite serializer_depth_with_relational; exact Hdepth|].
  exists sub_select, sub_prefetch, head, tail.
  split; [exact Hsub|]. split; [exact Hhead|]. split; [exact Htail|].
  rewrite (evaluate_select_prefetch_app depth_limit self accessor_prefix _ _ Hrel).
  rewrite (evaluate_select_prefetch_app depth_limit
             (with_relational self (field_name :: after))
             accessor_prefix [field_name] after eq_refl).
  rewrite !with_relational_twice, Hhead, Htail.
  rewrite (evaluate_select_prefetch_single depth_limit self accessor_prefix bound _
             Hbound).
  rewrite (visit_relation_capable _ _ _ _ _ child sub_select sub_prefetch [] []
             Hget eq_refl Hsub).
  cbn [mbind result_bind is_child_multiple fst snd app]. reflexivity.
Qed.

Lemma evaluate_select_prefetch_many_own_path_witness :
  ∃ sub_select sub_prefetch head tail,
    evaluate_select_prefetch 2 ThreadSerializer ("" +:+ "threads" +:+ LOOKUP_SEP)
    = Ok (sub_select, sub_prefetch)
    ∧ evaluate_select_prefetch 3 (with_relational ForumSerializer []) "" = Ok head
    ∧ evaluate_select_prefetch 3 (with_relational ForumSerializer []) "" = Ok tail
    ∧ evaluate_select_prefetch 3 ForumSerializer ""
      = Ok (head.1 ++ tail.1,
            head.2
              ++ (sub_select
                    ++ (if nonempty sub_prefetch then sub_prefetch
                        else ["" +:+ "threads"]))
              ++ tail.2).
Proof.
  eapply (evaluate_select_prefetch_many_own_path 2 ForumSerializer "" _ [] []
            "threads" ThreadSerializer).
  - reflexivity.
  - vm_compute. reflexivity.
  - reflexivity.
  - vm_compute. lia.
Defined.

(** C7 fails as stated, in both directions. In [ForumSerializer] the
    recursive call into the multi-valued field [threads] yields no
    [direct_join] entry, and the own path ["threads"] is not added. In
    [BookSerializer] the recursive call into the multi-valued field
    [reviews] yields a [direct_join] entry, and the own path
    ["reviews"] is added. *)
Lemma many_own_path_counterexample :
  (evaluate_select_prefetch 2 ThreadSerializer "threads__"
   = Ok ([], ["threads__comments"])
   ∧ evaluate_select_prefetch 3 ForumSerializer "" = Ok ([], ["threads__comments"])
   ∧ ¬ In "threads" ["threads__comments"])
  ∧ (evaluate_select_prefetch 2 ReviewSerializer "reviews__"
     = Ok (["reviews__reviewer"], [])
     ∧ evaluate_select_prefetch 3 BookSerializer ""
       = Ok (["author"], ["reviews__reviewer"; "reviews"])
     ∧ In "reviews" ["reviews__reviewer"; "reviews"]).
Proof.
  split; (split; [vm_compute; reflexivity|]); (split; [vm_compute; reflexivity|]).
  - intros [H|[]]. discriminate H.
  - right; left; reflexivity.
Qed.

(** A serializer without selection node none of whose relational names
    is a declared field yields no hint. *)
Lemma evaluate_select_prefetch_leaf (depth_limit : nat) (self : Serializer)
    (accessor_prefix : string) :
  dr_meta self = None →
  (∀ k, In k (relational_fields self) → dict_get (get_fields self) k = None) →
  evaluate_select_prefetch (S depth_limit) self accessor_prefix = Ok ([], []).
Proof.
  intros Hmeta Hrel.
  destruct (fields_unrestricted self Hmeta) as (bound & Hbound & Hget).
  rewrite (evaluate_select_prefetch_unfold _ _ _ bound Hbound).
  apply visit_loop_unbound. intros k Hk. rewrite Hget. apply Hrel, Hk.
Qed.

(** C1, as the code has it. For a node shaped like the Book scenario,
    walked without restriction: [direct_join] is [author] and
    [batched_load] is [reviews__reviewer], [reviews]. The direct-join
    entry produced beneath the multi-valued field [reviews] is demoted
    into [batched_load]; accessor paths are joined with [LOOKUP_SEP]. *)
Theorem evaluate_select_prefetch_book_scenario (depth_limit : nat)
    (book_fields author_fields review_fields reviewer_fields : list (string * Field))
    (author_relations reviewer_relations : list string) :
  let reviewer := plain reviewer_relations reviewer_fields in
  let review := plain ["reviewer"] review_fields in
  let author := plain author_relations author_fields in
  let book := plain ["author"; "reviews"] book_fields in
  dict_get book_fields "author" = Some (DynamicSerializer author) →
  dict_get book_fields "reviews" = Some (ListSerializer (DynamicSerializer review)) →
  dict_get review_fields "reviewer" = Some (DynamicSerializer reviewer) →
  (∀ k, In k author_relations → dict_get author_fields k = None) →
  (∀ k, In k reviewer_relations → dict_get reviewer_fields k = None) →
  (3 ≤ depth_limit)%nat →
  evaluate_select_prefetch depth_limit book ""
  = Ok (["author"], ["reviews" +:+ LOOKUP_SEP +:+ "reviewer"; "reviews"]).
Proof.
  intros reviewer review author book Hauthor Hreviews Hreviewer Hleaf_a Hleaf_r Hlimit.
  destruct depth_limit as [|[|[|n]]]; try lia.
  destruct (fields_unrestricted book eq_refl) as (bound_b & Hbound_b & Hget_b).
  destruct (fields_unrestricted review eq_refl) as (bound_r & Hbound_r & Hget_r).
  assert (evaluate_select_prefetch (S (S n)) review "reviews__"
          = Ok (["reviews__reviewer"], [])) as Hreview.
  { rewrite (evaluate_select_prefetch_unfold _ _ _ bound_r Hbound_r).
    cbn [relational_fields review plain foldM].
    rewrite (visit_relation_capable _ _ _ _ (DynamicSerializer reviewer) reviewer
               [] [] [] []);
      [reflexivity | rewrite Hget_r; exact Hreviewer | reflexivity|].
    apply evaluate_select_prefetch_leaf; [reflexivity | exact Hleaf_r]. }
  rewrite (evaluate_select_prefetch_unfold _ _ _ bound_b Hbound_b).
  cbn [relational_fields book plain foldM].
  rewrite (visit_relation_capable _ _ _ _ (DynamicSerializer author) author
             [] [] [] []);
    [| rewrite Hget_b; exact Hauthor | reflexivity
     | apply evaluate_select_prefetch_leaf; [reflexivity | exact Hleaf_a]].
  cbn [mbind result_bind is_child_multiple nonempty app].
  rewrite (visit_relation_capable _ _ _ _ (ListSerializer (DynamicSerializer review))
             review ["reviews__reviewer"] []);
    [reflexivity | rewrite Hget_b; exact Hreviews | reflexivity | exact Hreview].
Qed.

Lemma evaluate_select_prefetch_book_scenario_witness :
  evaluate_select_prefetch 3 BookSerializer ""
  = Ok (["author"], ["reviews" +:+ LOOKUP_SEP +:+ "reviewer"; "reviews"]).
Proof.
  apply (evaluate_select_prefetch_book_scenario 3
           (get_fields BookSerializer) (get_fields AuthorSerializer)
           (get_fields ReviewSerializer) (get_fields UserSerializer) [] []).
  - reflexivity.
  - reflexivity.
  - reflexivity.
  - intros k [].
  - intros k [].
  - lia.
Defined.

(** C1 fails as stated: the walk of [BookSerializer] returns the path
    ["reviews__reviewer"], so its [batched_load] is not the set of
    ["reviews"] and ["reviews.reviewer"]. *)
Lemma book_scenario_dotted_path_counterexample :
  evaluate_select_prefetch 3 BookSerializer ""
  = Ok (["author"], ["reviews__reviewer"; "reviews"])
  ∧ ¬ ∃ hints,
        evaluate_select_prefetch 3 BookSerializer "" = Ok hints
        ∧ (∀ path, In path hints.1 ↔ In path ["author"])
        ∧ (∀ path, In path hints.2 ↔ In path ["reviews"; "reviews.reviewer"]).
Proof.
  assert (evaluate_select_prefetch 3 BookSerializer ""
          = Ok (["author"], ["reviews__reviewer"; "reviews"])) as Hwalk
    by (vm_compute; reflexivity).
  split; [exact Hwalk|].
  intros (hints & Hhints & _ & Hbatched). rewrite Hwalk in Hhints.
  injection Hhints as <-. cbn [snd] in Hbatched.
  destruct (proj2 (Hbatched "reviews.reviewer")) as [H|[H|[]]];
    [right; left; reflexivity | discriminate H | discriminate H].
Qed.

(** Both tiers on the Book scenario: the unrestricted hints of the
    class, and their narrowing by an include list and by an omit list. *)
Example book_scenario_tiers :
  all_select_prefetch 3 (relational_fields BookSerializer) (get_fields BookSerializer)
  = Ok (["author"], ["reviews__reviewer"; "reviews"])
  ∧ get_prefetch_select (["author"], ["reviews__reviewer"; "reviews"])
                        ["reviews__reviewer__name"] []
    = ([], ["reviews__reviewer"; "reviews"])
  ∧ get_prefetch_select (["author"], ["reviews__reviewer"; "reviews"]) [] ["reviews"]
    = (["author"], []).
Proof. repeat split; vm_compute; reflexivity. Qed.

(** ** Construction ([__init__]) *)

(** C4. Non-empty [filter_fields] together with non-empty
    [omit_fields] always fails construction with the assertion error.
    Construction fails in no other case and with no other error, and
    nothing else raises: the parser, the binding of fields and the
    relation-graph walk all return. *)
Theorem init_mutual_exclusion (relational : list string)
    (declared : list (string * Field)) :
  (∀ filter_fields omit_fields : list string,
     filter_fields ≠ [] → omit_fields ≠ [] →
     __init__ relational declared (Some filter_fields) (Some omit_fields)
     = Raise (AssertionError "Pass either filter_fields or omit_fields, not both"))
  ∧ (∀ (filter_fields omit_fields : option (list string)) (e : exn),
       __init__ relational declared filter_fields omit_fields = Raise e →
       e = AssertionError "Pass either filter_fields or omit_fields, not both"
       ∧ (∃ f fs, filter_fields = Some (f :: fs))
       ∧ (∃ o os, omit_fields = Some (o :: os)))
  ∧ (∀ filter_fields omit_fields : list string,
       ∃ root, process_field_options filter_fields omit_fields = Ok root)
  ∧ (∀ self : Serializer, ∃ bound, fields self = Ok bound)
  ∧ (∀ (self : Serializer) (accessor_prefix : string),
       ∃ hints, evaluate_select_prefetch (serializer_depth self) self accessor_prefix
                = Ok hints).
Proof.
  split; [|split; [|split; [|split]]].
  - intros [|f fs] [|o os] Hf Ho; try congruence. reflexivity.
  - intros filter_fields omit_fields e. unfold __init__.
    destruct (truthy filter_fields && truthy omit_fields) eqn:Hboth.
    + intros [= <-]. apply andb_true_iff in Hboth as [Hf Ho].
      split; [reflexivity|].
      destruct filter_fields as [[|f fs]|], omit_fields as [[|o os]|];
        try discriminate. eauto 6.
    + match goal with
      | |- context [process_field_options ?ff ?oo] =>
          destruct (process_field_options_spec ff oo) as (root & -> & _)
      end.
      cbn [mbind result_bind].
      destruct (nonempty _ || nonempty _); discriminate.
  - intros filter_fields omit_fields.
    destruct (process_field_options_spec filter_fields omit_fields) as (root & H & _).
    eauto.
  - intros self. destruct (fields_Ok self) as (bound & H & _). eauto.
  - intros self accessor_prefix. apply evaluate_select_prefetch_total. reflexivity.
Qed.

Lemma init_mutual_exclusion_witness :
  __init__ ["author"] [("author", OtherField)] (Some ["author"]) (Some ["id"])
  = Raise (AssertionError "Pass either filter_fields or omit_fields, not both").
Proof.
  apply (init_mutual_exclusion ["author"] [("author", OtherField)]); discriminate.
Defined.

(** * Further properties *)

(** ** Hint filtering, beyond the claims *)

(** When both lists are given, the hint filter uses the include list
    and ignores the omit list. *)
Theorem get_prefetch_select_include_wins
    (all_select_prefetch : list string * list string)
    (filter_fields omit_fields : list string) :
  filter_fields ≠ [] →
  get_prefetch_select all_select_prefetch filter_fields omit_fields
  = get_prefetch_select all_select_prefetch filter_fields [].
Proof.
  intros Hne. destruct all_select_prefetch as [all_select all_prefetch].
  rewrite !get_prefetch_select_include by exact Hne. reflexivity.
Qed.

Lemma get_prefetch_select_include_wins_witness :
  get_prefetch_select (["author"], ["reviews"]) ["author"] ["author"]
  = get_prefetch_select (["author"], ["reviews"]) ["author"] [].
Proof.
  apply (get_prefetch_select_include_wins (["author"], ["reviews"])). discriminate.
Defined.

(** The include branch works field by field: the hints for a
    concatenated include list are the hints for its first part followed
    by the hints for its second part, so an entry related to several
    requested paths is repeated. *)
Theorem get_prefetch_select_include_app
    (all_select_prefetch : list string * list string)
    (fields1 fields2 omit_fields : list string) :
  fields1 ≠ [] → fields2 ≠ [] →
  get_prefetch_select all_select_prefetch (fields1 ++ fields2) omit_fields
  = ((get_prefetch_select all_select_prefetch fields1 omit_fields).1
       ++ (get_prefetch_select all_select_prefetch fields2 omit_fields).1,
     (get_prefetch_select all_select_prefetch fields1 omit_fields).2
       ++ (get_prefetch_select all_select_prefetch fields2 omit_fields).2).
Proof.
  intros H1 H2. destruct all_select_prefetch as [all_select all_prefetch].
  rewrite !get_prefetch_select_include; [|assumption..|].
  - cbn [fst snd]. rewrite !flat_map_app. reflexivity.
  - destruct fields1; [congruence | discriminate].
Qed.

Lemma get_prefetch_select_include_app_witness :
  get_prefetch_select (["author"], ["reviews"]) (["author"] ++ ["author__name"]) []
  = ((get_prefetch_select (["author"], ["reviews"]) ["author"] []).1
       ++ (get_prefetch_select (["author"], ["reviews"]) ["author__name"] []).1,
     (get_prefetch_select (["author"], ["reviews"]) ["author"] []).2
       ++ (get_prefetch_select (["author"], ["reviews"]) ["author__name"] []).2).
Proof.
  apply (get_prefetch_select_include_app (["author"], ["reviews"])); discriminate.
Defined.

Lemma filter_negb_existsb_app {A B : Type} (related : A → B → bool)
    (xs : list A) (ys1 ys2 : list B) :
  List.filter (λ x, negb (existsb (related x) (ys1 ++ ys2))) xs
  = List.filter (λ x, negb (existsb (related x) ys2))
      (List.filter (λ x, negb (existsb (related x) ys1)) xs).
Proof.
  induction xs as [|x xs IH]; [reflexivity|]. cbn [List.filter].
  rewrite existsb_app, IH.
  destruct (existsb (related x) ys1); cbn [negb orb List.filter]; reflexivity.
Qed.

(** The omit branch composes: omitting a concatenated list is omitting
    its first part and then omitting its second part from the result. *)
Theorem get_prefetch_select_omit_app
    (all_select_prefetch : list string * list string) (omit1 omit2 : list string) :
  omit1 ≠ [] → omit2 ≠ [] →
  get_prefetch_select all_select_prefetch [] (omit1 ++ omit2)
  = get_prefetch_select (get_prefetch_select all_select_prefetch [] omit1) [] omit2.
Proof.
  intros H1 H2. destruct all_select_prefetch as [all_select all_prefetch].
  rewrite (get_prefetch_select_omit all_select all_prefetch omit1 H1).
  rewrite !get_prefetch_select_omit;
    [|exact H2 | destruct omit1; [congruence | discriminate]].
  rewrite !(filter_negb_existsb_app prefix_related). reflexivity.
Qed.

Lemma get_prefetch_select_omit_app_witness :
  get_prefetch_select (["author"], ["reviews"]) [] (["author"] ++ ["reviews"])
  = get_prefetch_select (get_prefetch_select (["author"], ["reviews"]) [] ["author"])
                        [] ["reviews"].
Proof.
  apply (get_prefetch_select_omit_app (["author"], ["reviews"])); discriminate.
Defined.

Lemma prefix_empty (s : string) : String.prefix "" s = true.
Proof. destruct s; reflexivity. Qed.

(** An empty selector string is related to every path: in an include
    list it keeps every Tier-1 entry, in an omit list it removes every
    Tier-1 entry. *)
Theorem get_prefetch_select_empty_selector
    (all_select all_prefetch filter_fields omit_fields : list string) :
  (In "" filter_fields →
     ∀ each,
       (In each all_select →
        In each (get_prefetch_select (all_select, all_prefetch)
                                     filter_fields omit_fields).1)
       ∧ (In each all_prefetch →
          In each (get_prefetch_select (all_select, all_prefetch)
                                       filter_fields omit_fields).2))
  ∧ (In "" omit_fields →
     get_prefetch_select (all_select, all_prefetch) [] omit_fields = ([], [])).
Proof.
  split.
  - intros Hin each.
    assert (filter_fields ≠ []) as Hne by (intros ->; destruct Hin).
    rewrite (get_prefetch_select_include _ _ _ omit_fields Hne). cbn [fst snd].
    split; intros Heach; apply in_include_hints; (split; [exact Heach|]);
      exists ""; (split; [exact Hin|]); right; apply prefix_empty.
  - intros Hin.
    assert (omit_fields ≠ []) as Hne by (intros ->; destruct Hin).
    rewrite (get_prefetch_select_omit _ _ _ Hne).
    assert (∀ all : list string,
              List.filter
                (λ each, negb (existsb (λ field, prefix_related each field) omit_fields))
                all = []) as Hnone.
    { intros all. induction all as [|each all IH]; [reflexivity|].
      cbn [List.filter].
      replace (existsb (λ field, prefix_related each field) omit_fields) with true;
        [exact IH|].
      symmetry. apply existsb_exists. exists "". split; [exact Hin|].
      apply prefix_related_spec. right; apply prefix_empty. }
    rewrite !Hnone. reflexivity.
Qed.

Lemma get_prefetch_select_empty_selector_witness :
  (∀ each,
     (In each ["author"] →
      In each (get_prefetch_select (["author"], ["reviews"]) ["title"; ""] []).1)
     ∧ (In each ["reviews"] →
        In each (get_prefetch_select (["author"], ["reviews"]) ["title"; ""] []).2))
  ∧ get_prefetch_select (["author"], ["reviews"]) [] [""] = ([], []).
Proof.
  split.
  - apply (get_prefetch_select_empty_selector ["author"] ["reviews"] ["title"; ""] []).
    right; left; reflexivity.
  - apply (get_prefetch_select_empty_selector ["author"] ["reviews"] [] [""]).
    left; reflexivity.
Defined.

Lemma sublist_List_filter {A : Type} (keep : A → bool) (xs : list A) :
  List.filter keep xs `sublist_of` xs.
Proof.
  induction xs as [|x xs IH]; [constructor|]. cbn [List.filter].
  destruct (keep x); [apply sublist_skip, IH | apply sublist_cons, IH].
Qed.

(** Filtering never invents a hint: whatever the two lists are, every
    entry of the result is a Tier-1 entry of the same kind; and without
    an include list the Tier-1 order is kept and nothing is repeated. *)
Theorem get_prefetch_select_within_tier1
    (all_select all_prefetch filter_fields omit_fields : list string) :
  let tier2 :=
    get_prefetch_select (all_select, all_prefetch) filter_fields omit_fields in
  (∀ each, In each tier2.1 → In each all_select)
  ∧ (∀ each, In each tier2.2 → In each all_prefetch)
  ∧ (filter_fields = [] →
     tier2.1 `sublist_of` all_select ∧ tier2.2 `sublist_of` all_prefetch).
Proof.
  cbv zeta.
  assert (filter_fields = [] →
          (get_prefetch_select (all_select, all_prefetch) filter_fields omit_fields).1
            `sublist_of` all_select
          ∧ (get_prefetch_select (all_select, all_prefetch) filter_fields omit_fields).2
              `sublist_of` all_prefetch) as Hsub.
  { intros ->. destruct omit_fields as [|o os]; [split; reflexivity|].
    rewrite get_prefetch_select_omit by discriminate. cbn [fst snd].
    split; apply sublist_List_filter. }
  destruct filter_fields as [|f fs].
  - destruct (Hsub eq_refl) as [H1 H2].
    split; [|split; [|exact Hsub]]; intros each Hin; apply list_elem_of_In;
      apply list_elem_of_In in Hin; eapply elem_of_sublist; eassumption.
  - rewrite get_prefetch_select_include by discriminate. cbn [fst snd].
    split; [|split; [|discriminate]]; intros each Hin;
      apply in_include_hints in Hin; tauto.
Qed.

(** ** The relation-graph walker, beyond the claims *)

Lemma foldM_preserves {S X : Type} (I : S → Prop) (body : S → X → result S)
    (xs : list X) (st st' : S) :
  (∀ s x s', In x xs → I s → body s x = Ok s' → I s') →
  I st → foldM body xs st = Ok st' → I st'.
Proof.
  revert st. induction xs as [|x xs IH]; intros st Hbody Hst; cbn [foldM].
  - intros [= <-]. exact Hst.
  - intros Hloop. apply bind_Ok_inv in Hloop as (s1 & Hstep & Hloop).
    apply (IH s1); [|eapply Hbody; [left; reflexivity | exact Hst | exact Hstep]
                    |exact Hloop].
    intros s y s' Hy. apply Hbody. right; exact Hy.
Qed.

(** What one iteration of the walker's loop can do: leave the two lists
    as they are, or extend them from the recursive call on a
    selection-capable field. *)
Lemma visit_relation_inv
    (recurse : Serializer → string → result (list string * list string))
    (bound : list (string * Field)) (accessor_prefix field_name : string)
    (st st' : list string * list string) :
  visit_relation recurse bound accessor_prefix st field_name = Ok st' →
  st' = st
  ∨ ∃ field_obj child sub_select sub_prefetch,
      dict_get bound field_name = Some field_obj
      ∧ extract_serializer_from_child field_obj = Ok child
      ∧ recurse child (accessor_prefix +:+ field_name +:+ LOOKUP_SEP)
        = Ok (sub_select, sub_prefetch)
      ∧ st' = if is_child_multiple field_obj
              then (st.1,
                    (st.2 ++ sub_select)
                      ++ (if nonempty sub_prefetch then sub_prefetch
                          else [accessor_prefix +:+ field_name]))
              else (st.1
                      ++ (if nonempty sub_select then sub_select
                          else [accessor_prefix +:+ field_name]),
                    st.2 ++ sub_prefetch).
Proof.
  destruct st as [fs fp]. intros Hvisit.
  destruct (dict_get bound field_name) as [field_obj|] eqn:Hget.
  - destruct (extract_serializer_from_child field_obj) as [child|e] eqn:Hext.
    + destruct (recurse child (accessor_prefix +:+ field_name +:+ LOOKUP_SEP))
        as [[sub_select sub_prefetch]|e] eqn:Hrec.
      * right. exists field_obj, child, sub_select, sub_prefetch.
        rewrite (visit_relation_capable _ _ _ _ _ _ _ _ _ _ Hget Hext Hrec) in Hvisit.
        injection Hvisit as <-.
        split; [reflexivity|]. split; [exact Hext|]. split; [exact Hrec|]. reflexivity.
      * left. unfold visit_relation in Hvisit. rewrite Hget, Hext in Hvisit.
        cbn [mbind result_bind] in Hvisit. rewrite Hrec in Hvisit.
        cbn [mbind result_bind suppress] in Hvisit.
        destruct (is_ChildNotSupported e); congruence.
    + left. unfold visit_relation in Hvisit. rewrite Hget, Hext in Hvisit.
      cbn [mbind result_bind suppress] in Hvisit.
      destruct (is_ChildNotSupported e); congruence.
  - left. unfold visit_relation in Hvisit. rewrite Hget in Hvisit. congruence.
Qed.

(** For an exposed relational field that is single-valued and
    selection-capable, the field adds to [direct_join] the
    [direct_join] entries of the recursive call when there are any and
    its own accessor path when there are none, and it adds the
    [batched_load] entries of the recursive call to [batched_load]. *)
Theorem evaluate_select_prefetch_single_valued (depth_limit : nat)
    (self : Serializer) (accessor_prefix : string) (bound : list (string * Field))
    (before after : list string) (field_name : string) (child : Serializer) :
  relational_fields self = before ++ field_name :: after →
  fields self = Ok bound →
  dict_get bound field_name = Some (DynamicSerializer child) →
  (serializer_depth self ≤ S depth_limit)%nat →
  ∃ sub_select sub_prefetch head tail,
    evaluate_select_prefetch depth_limit child
                             (accessor_prefix +:+ field_name +:+ LOOKUP_SEP)
    = Ok (sub_select, sub_prefetch)
    ∧ evaluate_select_prefetch (S depth_limit) (with_relational self before)
                               accessor_prefix = Ok head
    ∧ evaluate_select_prefetch (S depth_limit) (with_relational self after)
                               accessor_prefix = Ok tail
    ∧ evaluate_select_prefetch (S depth_limit) self accessor_prefix
      = Ok (head.1
              ++ (if nonempty sub_select then sub_select
                  else [accessor_prefix +:+ field_name])
              ++ tail.1,
            head.2 ++ sub_prefetch ++ tail.2).
Proof.
  intros Hrel Hbound Hget Hdepth.
  destruct (fields_Ok self) as (bound' & Hbound' & Hfields).
  assert (bound' = bound) as -> by congruence.
  destruct (Hfields _ _ Hget) as (f0 & Hget0 & Hd).
  apply dict_get_depth in Hget0. cbn [field_depth] in Hd.
  destruct (evaluate_select_prefetch_total depth_limit child
              (accessor_prefix +:+ field_name +:+ LOOKUP_SEP))
    as ([sub_select sub_prefetch] & Hsub); [lia|].
  destruct (evaluate_select_prefetch_total (S depth_limit)
              (with_relational self before) accessor_prefix)
    as (head & Hhead); [rewrite serializer_depth_with_relational; exact Hdepth|].
  destruct (evaluate_select_prefetch_total (S depth_limit)
              (with_relational self after) accessor_prefix)
    as (tail & Htail); [rewrite serializer_depth_with_relational; exact Hdepth|].
  exists sub_select, sub_prefetch, head, tail.
  split; [exact Hsub|]. split; [exact Hhead|]. split; [exact Htail|].
  rewrite (evaluate_select_prefetch_app depth_limit self accessor_prefix _ _ Hrel).
  rewrite (evaluate_select_prefetch_app depth_limit
             (with_relational self (field_name :: after))
             accessor_prefix [field_name] after eq_refl).
  rewrite !with_relational_twice, Hhead, Htail.
  rewrite (evaluate_select_prefetch_single depth_limit self accessor_prefix bound _
             Hbound).
  rewrite (visit_relation_capable _ _ _ _ _ child sub_select sub_prefetch [] []
             Hget eq_refl Hsub).
  cbn [mbind result_bind is_child_multiple fst snd app]. reflexivity.
Qed.

Lemma evaluate_select_prefetch_single_valued_witness :
  ∃ sub_select sub_prefetch head tail,
    evaluate_select_prefetch 2 AuthorSerializer ("" +:+ "author" +:+ LOOKUP_SEP)
    = Ok (sub_select, sub_prefetch)
    ∧ evaluate_select_prefetch 3 (with_relational BookSerializer []) "" = Ok head
    ∧ evaluate_select_prefetch 3 (with_relational BookSerializer ["reviews"]) ""
      = Ok tail
    ∧ evaluate_select_prefetch 3 BookSerializer ""
      = Ok (head.1
              ++ (if nonempty sub_select then sub_select else ["" +:+ "author"])
              ++ tail.1,
            head.2 ++ sub_prefetch ++ tail.2).
Proof.
  eapply (evaluate_select_prefetch_single_valued 2 BookSerializer "" _ [] ["reviews"]
            "author" AuthorSerializer).
  - reflexivity.
  - vm_compute. reflexivity.
  - reflexivity.
  - vm_compute. lia.
Defined.

(** A relational accessor name that is not among the bound fields (not
    declared on the serializer, or removed by the selection) is passed
    over: the walk returns what it returns without that name. *)
Theorem evaluate_select_prefetch_skips_unbound (depth_limit : nat)
    (self : Serializer) (accessor_prefix : string) (bound : list (string * Field))
    (before after : list string) (field_name : string) :
  relational_fields self = before ++ field_name :: after →
  fields self = Ok bound →
  dict_get bound field_name = None →
  (serializer_depth self ≤ depth_limit)%nat →
  ∃ hints,
    evaluate_select_prefetch depth_limit self accessor_prefix = Ok hints
    ∧ evaluate_select_prefetch depth_limit (with_relational self (before ++ after))
                               accessor_prefix = Ok hints.
Proof.
  intros Hrel Hbound Hget Hdepth.
  destruct (evaluate_select_prefetch_total depth_limit self accessor_prefix Hdepth)
    as (hints & Hhints).
  exists hints. split; [exact Hhints|]. rewrite <- Hhints.
  destruct depth_limit as [|n]; [reflexivity|].
  rewrite (evaluate_select_prefetch_app n self accessor_prefix _ _ Hrel).
  rewrite (evaluate_select_prefetch_app n (with_relational self (field_name :: after))
             accessor_prefix [field_name] after eq_refl).
  rewrite (evaluate_select_prefetch_app n (with_relational self (before ++ after))
             accessor_prefix before after eq_refl).
  rewrite !with_relational_twice.
  rewrite (evaluate_select_prefetch_single n self accessor_prefix bound _ Hbound).
  unfold visit_relation. rewrite Hget.
  cbn [mbind result_bind fst snd app].
  destruct (evaluate_select_prefetch (S n) (with_relational self before) _)
    as [[h1 h2]|e]; cbn [mbind result_bind]; [|reflexivity].
  destruct (evaluate_select_prefetch (S n) (with_relational self after) _)
    as [[t1 t2]|e]; reflexivity.
Qed.

Lemma evaluate_select_prefetch_skips_unbound_witness :
  ∃ hints,
    evaluate_select_prefetch 3
      (mk_serializer ["author"; "reviews"] (get_fields BookSerializer)
         (Some (mk_dr_meta ALL_FIELDS {["reviews"]} []))) "" = Ok hints
    ∧ evaluate_select_prefetch 3
        (with_relational
           (mk_serializer ["author"; "reviews"] (get_fields BookSerializer)
              (Some (mk_dr_meta ALL_FIELDS {["reviews"]} [])))
           (["author"] ++ [])) "" = Ok hints.
Proof.
  eapply (evaluate_select_prefetch_skips_unbound 3
            (mk_serializer ["author"; "reviews"] (get_fields BookSerializer)
               (Some (mk_dr_meta ALL_FIELDS {["reviews"]} [])))
            "" _ ["author"] [] "reviews").
  - reflexivity.
  - vm_compute. reflexivity.
  - vm_compute. reflexivity.
  - vm_compute. lia.
Defined.

(** A direct join never comes from a list-valued field: when every
    bound relational field of a serializer is a [ListSerializer], the
    walk returns an empty [direct_join]. *)
Theorem evaluate_select_prefetch_all_many (depth_limit : nat) (self : Serializer)
    (accessor_prefix : string) (bound : list (string * Field)) :
  fields self = Ok bound →
  (∀ field_name field_obj,
     In field_name (relational_fields self) →
     dict_get bound field_name = Some field_obj →
     is_child_multiple field_obj = true) →
  (serializer_depth self ≤ depth_limit)%nat →
  ∃ batched_load,
    evaluate_select_prefetch depth_limit self accessor_prefix = Ok ([], batched_load).
Proof.
  intros Hbound Hmany Hdepth.
  destruct (evaluate_select_prefetch_total depth_limit self accessor_prefix Hdepth)
    as ([direct_join batched_load] & Hwalk).
  exists batched_load. rewrite Hwalk. f_equal. f_equal.
  destruct depth_limit as [|n]; [discriminate|].
  rewrite (evaluate_select_prefetch_unfold _ _ _ bound Hbound) in Hwalk.
  apply (foldM_preserves (λ st : list string * list string, st.1 = [])
           _ _ ([], []) (direct_join, batched_load)) in Hwalk;
    [exact Hwalk| |reflexivity].
  intros st field_name st' Hin Hst Hvisit.
  apply visit_relation_inv in Hvisit
    as [->|(field_obj & child & ss & sp & Hget & _ & _ & ->)]; [exact Hst|].
  rewrite (Hmany _ _ Hin Hget). exact Hst.
Qed.

Lemma evaluate_select_prefetch_all_many_witness :
  ∃ batched_load,
    evaluate_select_prefetch 3 ForumSerializer "" = Ok ([], batched_load).
Proof.
  eapply (evaluate_select_prefetch_all_many 3 ForumSerializer "").
  - vm_compute. reflexivity.
  - intros field_name field_obj [<-|[]] H. vm_compute in H.
    injection H as <-. reflexivity.
  - vm_compute. lia.
Defined.

Lemma append_assoc (a b c : string) : (a +:+ b) +:+ c = a +:+ b +:+ c.
Proof.
  induction a as [|x a IH]; [reflexivity|].
  change (String x ((a +:+ b) +:+ c) = String x (a +:+ b +:+ c)).
  f_equal. exact IH.
Qed.

Lemma prefix_refl (a : string) : String.prefix a a = true.
Proof.
  induction a as [|x a IH]; [reflexivity|]. cbn [String.prefix].
  destruct (ascii_dec x x); [exact IH | congruence].
Qed.

Lemma prefix_append_l (a b s : string) :
  String.prefix (a +:+ b) s = true → String.prefix a s = true.
Proof.
  revert s. induction a as [|x a IH]; intros s; [intros _; apply prefix_empty|].
  change (String x a +:+ b) with (String x (a +:+ b)).
  destruct s as [|y s]; cbn [String.prefix]; [discriminate|].
  destruct (ascii_dec x y); [apply IH | discriminate].
Qed.

(** Every hint is the accessor path of a bound relational field of the
    serializer, or lies beneath one: it starts with the accessor
    prefix followed by the name of such a field. *)
Theorem evaluate_select_prefetch_paths (depth_limit : nat) (self : Serializer)
    (accessor_prefix : string) (bound : list (string * Field)) :
  fields self = Ok bound →
  (serializer_depth self ≤ depth_limit)%nat →
  ∃ hints,
    evaluate_select_prefetch depth_limit self accessor_prefix = Ok hints
    ∧ ∀ path, In path hints.1 ∨ In path hints.2 →
        ∃ field_name,
          In field_name (relational_fields self)
          ∧ is_Some (dict_get bound field_name)
          ∧ String.prefix (accessor_prefix +:+ field_name) path = true.
Proof.
  intros Hbound Hdepth.
  destruct (evaluate_select_prefetch_total depth_limit self accessor_prefix Hdepth)
    as (hints & Hwalk).
  exists hints. split; [exact Hwalk|]. clear Hdepth.
  revert self accessor_prefix bound hints Hbound Hwalk.
  induction depth_limit as [|n IH]; intros self accessor_prefix bound hints Hbound Hwalk;
    [discriminate|].
  rewrite (evaluate_select_prefetch_unfold _ _ _ bound Hbound) in Hwalk.
  refine (foldM_preserves
            (λ st : list string * list string,
               ∀ path, In path st.1 ∨ In path st.2 →
                 ∃ field_name,
                   In field_name (relational_fields self)
                   ∧ is_Some (dict_get bound field_name)
                   ∧ String.prefix (accessor_prefix +:+ field_name) path = true)
            _ _ ([], []) hints _ _ Hwalk); [|intros path [[]|[]]].
  intros st field_name st' Hin Hst Hvisit.
  apply visit_relation_inv in Hvisit
    as [->|(field_obj & child & ss & sp & Hget & _ & Hrec & ->)]; [exact Hst|].
  assert (∀ path, In path ss ∨ In path sp ∨ path = accessor_prefix +:+ field_name →
            String.prefix (accessor_prefix +:+ field_name) path = true) as Hnew.
  { destruct (fields_Ok child) as (bound_c & Hbound_c & _).
    specialize (IH child _ bound_c (ss, sp) Hbound_c Hrec). cbn [fst snd] in IH.
    intros path [Hp | [Hp | ->]]; [| |apply prefix_refl];
      (destruct (IH path) as (name' & _ & _ & Hpre); [tauto|]);
      apply prefix_append_l in Hpre; rewrite <- append_assoc in Hpre;
      apply prefix_append_l in Hpre; exact Hpre. }
  intros path Hpath.
  assert ((In path st.1 ∨ In path st.2)
          ∨ (In path ss ∨ In path sp ∨ path = accessor_prefix +:+ field_name))
    as [Hold|Hfresh].
  { destruct (is_child_multiple field_obj), (nonempty ss), (nonempty sp);
      cbn [fst snd] in Hpath; rewrite ?in_app_iff in Hpath; cbn [In] in Hpath;
      intuition auto. }
  - apply Hst, Hold.
  - exists field_name. split; [exact Hin|]. split; [rewrite Hget; eauto|].
    apply Hnew, Hfresh.
Qed.

Lemma evaluate_select_prefetch_paths_witness :
  ∃ hints,
    evaluate_select_prefetch 3 BookSerializer "" = Ok hints
    ∧ ∀ path, In path hints.1 ∨ In path hints.2 →
        ∃ field_name,
          In field_name (relational_fields BookSerializer)
          ∧ is_Some (dict_get
                       [("id", OtherField);
                        ("author", DynamicSerializer AuthorSerializer);
                        ("reviews", ListSerializer (DynamicSerializer ReviewSerializer));
                        ("title", OtherField)]
                       field_name)
          ∧ String.prefix ("" +:+ field_name) path = true.
Proof.
  apply (evaluate_select_prefetch_paths 3 BookSerializer "").
  - vm_compute. reflexivity.
  - vm_compute. lia.
Defined.

(** ** The field resolver and [fields], beyond the claims *)

Lemma extract_with_serializer (child : Field) (s s' : Serializer) :
  extract_serializer_from_child child = Ok s →
  extract_serializer_from_child (with_serializer child s') = Ok s'.
Proof. destruct child as [|s0|[|s0|c]]; simpl; congruence. Qed.

Lemma with_serializer_twice (child : Field) (s s1 s2 : Serializer) :
  extract_serializer_from_child child = Ok s →
  with_serializer (with_serializer child s1) s2 = with_serializer child s2.
Proof. destruct child as [|s0|[|s0|c]]; simpl; congruence. Qed.

Lemma with_serializer_same (child : Field) (s : Serializer) :
  extract_serializer_from_child child = Ok s → with_serializer child s = child.
Proof. destruct child as [|s0|[|s0|c]]; simpl; congruence. Qed.

Lemma set_dr_meta_same (s : Serializer) : set_dr_meta s (dr_meta s) = s.
Proof. destruct s. reflexivity. Qed.

Lemma after_attach_nil (field : string) (child : Field) :
  after_attach [] field child = child.
Proof.
  unfold after_attach, attached_dr_meta.
  destruct (extract_serializer_from_child child) as [s|e] eqn:Hext; [|reflexivity].
  destruct (dr_meta s) eqn:Hmeta; cbn [dict_get]; rewrite <- Hmeta, set_dr_meta_same;
    apply with_serializer_same, Hext.
Qed.

Lemma attach_loop_children (nested : list (string * dr_meta_t))
    (fields_map fields_map' : list (string * Field)) :
  foldM attach_nested nested fields_map = Ok fields_map' →
  ∀ field, dict_get fields_map' field
           = after_attach nested field <$> dict_get fields_map field.
Proof.
  revert fields_map. induction nested as [|[k m] nested IH]; intros fields_map.
  - intros [= <-] field. destruct (dict_get fields_map field) as [child|]; [|reflexivity].
    cbn [fmap option_fmap option_map]. rewrite after_attach_nil. reflexivity.
  - cbn [foldM]. intros Hloop field.
    apply bind_Ok_inv in Hloop as (fm1 & Hstep & Hloop).
    rewrite (IH _ Hloop field).
    destruct (attach_nested_cases fields_map k m)
      as [[Hna H]|(child & s & Hget & Hext & H)]; rewrite H in Hstep;
      injection Hstep as <-.
    + destruct (dict_get fields_map field) as [child|] eqn:Hget; [|reflexivity].
      cbn [fmap option_fmap option_map]. f_equal.
      unfold after_attach, attached_dr_meta.
      destruct (extract_serializer_from_child child) as [s|e] eqn:Hext; [|reflexivity].
      destruct (dr_meta s); [reflexivity|]. cbn [dict_get].
      destruct (String.eqb_spec field k) as [->|Hne]; [|reflexivity].
      unfold not_attachable in Hna. rewrite Hget in Hna. congruence.
    + destruct (dr_meta s) as [own|] eqn:Hmeta.
      * destruct (dict_get fields_map field) as [child0|] eqn:Hget0; [|reflexivity].
        cbn [fmap option_fmap option_map]. f_equal.
        unfold after_attach, attached_dr_meta.
        destruct (extract_serializer_from_child child0) as [s0|e] eqn:Hext0;
          [|reflexivity].
        destruct (dr_meta s0) eqn:Hmeta0; [reflexivity|]. cbn [dict_get].
        destruct (String.eqb_spec field k) as [->|Hne]; [|reflexivity].
        congruence.
      * rewrite dict_get_set. destruct (String.eqb_spec k field) as [<-|Hne].
        -- rewrite Hget. cbn [fmap option_fmap option_map]. f_equal.
           unfold after_attach at 1.
           rewrite (extract_with_serializer _ _ _ Hext).
           unfold attached_dr_meta at 1. cbn [set_dr_meta dr_meta].
           rewrite (with_serializer_twice _ _ _ _ Hext).
           unfold after_attach, attached_dr_meta. rewrite Hext, Hmeta.
           cbn [dict_get]. rewrite String.eqb_refl. reflexivity.
        -- destruct (dict_get fields_map field) as [child0|] eqn:Hget0; [|reflexivity].
           cbn [fmap option_fmap option_map]. f_equal.
           unfold after_attach, attached_dr_meta.
           destruct (extract_serializer_from_child child0) as [s0|e]; [|reflexivity].
           destruct (dr_meta s0); [reflexivity|]. cbn [dict_get].
           destruct (String.eqb_spec field k) as [->|_]; [congruence | reflexivity].
Qed.

(** Attachment of nested selection nodes. Resolution keeps the keys of
    [fields_map]. A selection-capable field that has no selection node
    yet receives the entry of [nested] stored under its field name, if
    there is one; a node that already has a selection node keeps it;
    a field that is not selection-capable is left as it is. *)
Theorem derive_desired_fields_attaches (self : Serializer) (meta : dr_meta_t)
    (fields_map : list (string * Field)) :
  dr_meta self = Some meta →
  ∃ desired_field_names fields_map',
    derive_desired_fields self fields_map = Ok (desired_field_names, fields_map')
    ∧ map fst fields_map' = map fst fields_map
    ∧ ∀ field child,
        dict_get fields_map field = Some child →
        ∃ child',
          dict_get fields_map' field = Some child'
          ∧ is_child_multiple child' = is_child_multiple child
          ∧ (∀ s, extract_serializer_from_child child = Ok s →
                  extract_serializer_from_child child'
                  = Ok (set_dr_meta s
                          (match dr_meta s with
                           | Some own => Some own
                           | None => dict_get (meta_nested meta) field
                           end)))
          ∧ (extract_serializer_from_child child = Raise ChildNotSupported →
             child' = child).
Proof.
  intros Hmeta.
  destruct (derive_desired_fields_eq self meta fields_map Hmeta)
    as (fm' & Hloop & ->).
  destruct (attach_loop_Ok (meta_nested meta) fields_map) as (fm'' & Hloop' & Hkeys & _).
  assert (fm'' = fm') as -> by congruence.
  do 2 eexists. split; [reflexivity|]. split; [exact Hkeys|].
  intros field child Hget.
  rewrite (attach_loop_children _ _ _ Hloop field), Hget.
  cbn [fmap option_fmap option_map]. eexists. split; [reflexivity|].
  unfold after_attach, attached_dr_meta.
  destruct (extract_serializer_from_child child) as [s|e] eqn:Hext.
  - split; [|split; [|discriminate]].
    + destruct child as [|s0|[|s0|c]]; simpl in *; congruence.
    + intros s' [= <-]. eapply extract_with_serializer, Hext.
  - split; [reflexivity|]. split; [discriminate | reflexivity].
Qed.

Lemma derive_desired_fields_attaches_witness :
  let fields_map :=
    [("title", OtherField); ("author", DynamicSerializer AuthorSerializer)] in
  let meta :=
    mk_dr_meta (field_set {["author"]}) ∅
               [("author", mk_dr_meta (field_set {["name"]}) ∅ [])] in
  ∃ desired_field_names fields_map',
    derive_desired_fields (mk_serializer [] fields_map (Some meta)) fields_map
    = Ok (desired_field_names, fields_map')
    ∧ map fst fields_map' = map fst fields_map
    ∧ ∀ field child,
        dict_get fields_map field = Some child →
        ∃ child',
          dict_get fields_map' field = Some child'
          ∧ is_child_multiple child' = is_child_multiple child
          ∧ (∀ s, extract_serializer_from_child child = Ok s →
                  extract_serializer_from_child child'
                  = Ok (set_dr_meta s
                          (match dr_meta s with
                           | Some own => Some own
                           | None => dict_get (meta_nested meta) field
                           end)))
          ∧ (extract_serializer_from_child child = Raise ChildNotSupported →
             child' = child).
Proof.
  intros fields_map meta.
  exact (derive_desired_fields_attaches
           (mk_serializer [] fields_map (Some meta)) meta fields_map eq_refl).
Defined.

(** What [fields] binds, in terms of the desired names and of the
    fields after attachment. *)
Lemma fields_spec (self : Serializer) :
  let F := keys (get_fields self) in
  ∃ bound,
    fields self = Ok bound
    ∧ keys bound
      = match dr_meta self with
        | None => F
        | Some meta =>
            if bool_decide (meta_omit meta ≠ ∅) then F ∖ meta_omit meta
            else match meta_fields meta with
                 | ALL_FIELDS => F
                 | field_set names => names ∩ F
                 end
        end
    ∧ ∀ field, dict_get bound field
               = if bool_decide (field ∈ keys bound)
                 then match dr_meta self with
                      | None => dict_get (get_fields self) field
                      | Some meta =>
                          after_attach (meta_nested meta) field
                            <$> dict_get (get_fields self) field
                      end
                 else None.
Proof.
  intros F. unfold fields.
  assert (∃ names fields_map',
            match dr_meta self with
            | Some _ => derive_desired_fields self (get_fields self)
            | None => Ok (keys (get_fields self), get_fields self)
            end = Ok (names, fields_map')
            ∧ names = match dr_meta self with
                      | None => F
                      | Some meta =>
                          if bool_decide (meta_omit meta ≠ ∅) then F ∖ meta_omit meta
                          else match meta_fields meta with
                               | ALL_FIELDS => F
                               | field_set names => names ∩ F
                               end
                      end
            ∧ names ⊆ keys fields_map'
            ∧ ∀ field, dict_get fields_map' field
                       = match dr_meta self with
                         | None => dict_get (get_fields self) field
                         | Some meta =>
                             after_attach (meta_nested meta) field
                               <$> dict_get (get_fields self) field
                         end)
    as (names & fm' & -> & Hnames & Hsub & Hfm).
  { destruct (dr_meta self) as [meta|] eqn:Hmeta.
    - destruct (derive_desired_fields_eq self meta (get_fields self) Hmeta)
        as (fm' & Hloop & ->).
      destruct (attach_loop_Ok (meta_nested meta) (get_fields self))
        as (fm'' & Hloop' & Hkeys & _).
      assert (fm'' = fm') as -> by congruence.
      do 2 eexists. split; [reflexivity|]. split; [reflexivity|]. split.
      + unfold keys. rewrite Hkeys. fold (keys (get_fields self)). fold F.
        destruct (bool_decide _); [|destruct (meta_fields meta)]; set_solver.
      + apply attach_loop_children, Hloop.
    - do 2 eexists. split; [reflexivity|]. split; [reflexivity|].
      split; [reflexivity | reflexivity]. }
  cbn [mbind result_bind].
  destruct (bind_loop fm' (elements names) []) as (bound & -> & Hget).
  { intros k Hk. apply dict_get_is_Some, Hsub, elem_of_elements, Hk. }
  assert (keys bound = names) as Hkeys.
  { apply set_eq. intros k. rewrite <- dict_get_is_Some, Hget.
    destruct (decide (k ∈ elements names)) as [Hin|Hnin].
    - rewrite bool_decide_eq_true_2 by exact Hin.
      apply elem_of_elements in Hin. split; [intros _; exact Hin|].
      intros _. apply dict_get_is_Some, Hsub, Hin.
    - rewrite bool_decide_eq_false_2 by exact Hnin. cbn [dict_get].
      split; [intros [x Hx]; discriminate|].
      intros Hin. destruct Hnin. apply elem_of_elements, Hin. }
  exists bound. split; [reflexivity|]. split; [rewrite Hkeys; exact Hnames|].
  intros field. rewrite Hget, Hkeys, <- Hfm.
  destruct (decide (field ∈ names)) as [Hin|Hnin].
  - rewrite !bool_decide_eq_true_2; [reflexivity | exact Hin|].
    apply elem_of_elements, Hin.
  - rewrite !bool_decide_eq_false_2; [reflexivity | exact Hnin|].
    intros Hin. apply Hnin, elem_of_elements, Hin.
Qed.

(** The bound fields are exactly the desired names: all candidate
    names for a serializer without selection node, and otherwise the
    set computed by [derive_desired_fields]. Each bound field is the
    field of [get_fields()] under that name, with the nested selection
    node attached where the serializer has one to pass down. *)
Theorem fields_binds_desired (self : Serializer) :
  let F := keys (get_fields self) in
  ∃ bound,
    fields self = Ok bound
    ∧ keys bound
      = match dr_meta self with
        | None => F
        | Some meta =>
            if bool_decide (meta_omit meta ≠ ∅) then F ∖ meta_omit meta
            else match meta_fields meta with
                 | ALL_FIELDS => F
                 | field_set names => names ∩ F
                 end
        end
    ∧ ∀ field, dict_get bound field
               = if bool_decide (field ∈ keys bound)
                 then match dr_meta self with
                      | None => dict_get (get_fields self) field
                      | Some meta =>
                          after_attach (meta_nested meta) field
                            <$> dict_get (get_fields self) field
                      end
                 else None.
Proof.
  intros F. destruct (fields_spec self) as (bound & Hbound & Hkeys & Hget).
  exists bound. split; [exact Hbound|]. split; [exact Hkeys | exact Hget].
Qed.

(** A serializer constructed without selectors ([None] or empty
    sequences for both arguments) has no selection node and binds every
    declared field unchanged. *)
Theorem init_without_selectors (relational : list string)
    (declared : list (string * Field)) (filter_fields omit_fields : option (list string)) :
  truthy filter_fields = false →
  truthy omit_fields = false →
  ∃ self bound,
    __init__ relational declared filter_fields omit_fields = Ok self
    ∧ dr_meta self = None
    ∧ fields self = Ok bound
    ∧ keys bound = keys declared
    ∧ ∀ field, dict_get bound field = dict_get declared field.
Proof.
  intros Hf Ho. unfold __init__. rewrite Hf, Ho. cbn [andb negb nonempty orb].
  cbn [mbind result_bind].
  destruct (fields_unrestricted (mk_serializer relational declared None) eq_refl)
    as (bound & Hbound & Hget).
  exists (mk_serializer relational declared None), bound.
  split; [reflexivity|]. split; [reflexivity|]. split; [exact Hbound|].
  split; [|exact Hget].
  apply set_eq. intros k. rewrite <- !dict_get_is_Some, Hget. reflexivity.
Qed.

Lemma init_without_selectors_witness :
  ∃ self bound,
    __init__ ["author"] [("id", OtherField); ("author", OtherField)] (Some []) None
    = Ok self
    ∧ dr_meta self = None
    ∧ fields self = Ok bound
    ∧ keys bound = keys [("id", OtherField); ("author", OtherField)]
    ∧ ∀ field, dict_get bound field
               = dict_get [("id", OtherField); ("author", OtherField)] field.
Proof.
  apply (init_without_selectors ["author"]
           [("id", OtherField); ("author", OtherField)] (Some []) None);
    reflexivity.
Defined.

(** ** The selector parser, beyond the claims *)

Lemma names_at_default (q : meta_ref) : names_at q dynamic_read_meta = ∅.
Proof. destruct q; reflexivity. Qed.

Lemma node_at_default (q : meta_ref) :
  is_Some (node_at q dynamic_read_meta) ↔ q = [].
Proof.
  destruct q as [|k q]; simpl.
  - split; [reflexivity | eauto].
  - split; [intros [x Hx]; discriminate | discriminate].
Qed.

Lemma names_at_cons (k : string) (q : meta_ref) (m : dr_meta_t) :
  names_at (k :: q) m
  = names_at q (default dynamic_read_meta (dict_get (meta_nested m) k)).
Proof.
  unfold names_at. cbn [node_at].
  destruct (dict_get (meta_nested m) k) as [child|]; [reflexivity|].
  cbn [default]. fold (names_at q dynamic_read_meta).
  rewrite names_at_default. reflexivity.
Qed.

(** Adding a name at one node changes the names of that node only. *)
Lemma names_at_modify_add (r : meta_ref) (x : string) (m m' : dr_meta_t) :
  all_nodes include_node m →
  modify_at r (fields_add x) m = Ok m' →
  ∀ q, names_at q m' = if decide (q = r) then {[x]} ∪ names_at q m else names_at q m.
Proof.
  revert m m'. induction r as [|k r IH]; intros m m' Hm Hmod q.
  - cbn [modify_at] in Hmod. unfold fields_add in Hmod.
    destruct (meta_fields m) as [|names] eqn:Hfields; [discriminate|].
    injection Hmod as <-. destruct q as [|k q].
    + case_decide; [|congruence]. unfold names_at. cbn [node_at meta_fields].
      rewrite Hfields. reflexivity.
    + case_decide; [discriminate | reflexivity].
  - cbn [modify_at] in Hmod. apply bind_Ok_inv in Hmod as (child' & Hchild & [= <-]).
    destruct q as [|k' q].
    + case_decide; [discriminate | reflexivity].
    + rewrite !names_at_cons. cbn [meta_nested]. rewrite dict_get_set.
      destruct (String.eqb_spec k k') as [<-|Hne].
      * change (default dynamic_read_meta (Some child')) with child'.
        rewrite (IH _ _ (all_nodes_child _ _ k include_node_default Hm) Hchild q).
        repeat case_decide; simplify_eq; reflexivity.
      * case_decide; [congruence | reflexivity].
Qed.

Lemma prefix_cons_same {A : Type} (x : A) (l1 l2 : list A) :
  x :: l1 `prefix_of` x :: l2 ↔ l1 `prefix_of` l2.
Proof. split; [apply prefix_cons_inv_2 | apply prefix_cons]. Qed.

(** Mutating behind [r] creates the nodes on the way to [r], and no
    others. *)
Lemma node_at_modify_at (r : meta_ref) (f : dr_meta_t → result dr_meta_t)
    (m m' : dr_meta_t) :
  (∀ n n', f n = Ok n' → meta_nested n' = meta_nested n) →
  modify_at r f m = Ok m' →
  ∀ q, is_Some (node_at q m') ↔ is_Some (node_at q m) ∨ q `prefix_of` r.
Proof.
  intros Hf. revert m m'. induction r as [|k r IH]; intros m m' Hmod q.
  - cbn [modify_at] in Hmod. apply Hf in Hmod.
    destruct q as [|k q]; cbn [node_at].
    + split; [right; reflexivity | eauto].
    + rewrite Hmod. split; [tauto|]. intros [H|[l Hl]]; [exact H | discriminate].
  - cbn [modify_at] in Hmod. apply bind_Ok_inv in Hmod as (child' & Hchild & [= <-]).
    destruct q as [|k' q]; cbn [node_at meta_nested].
    + split; [intros _; right; apply prefix_nil | eauto].
    + rewrite dict_get_set. destruct (String.eqb_spec k k') as [<-|Hne].
      * rewrite (IH _ _ Hchild q), prefix_cons_same.
        destruct (dict_get (meta_nested m) k) as [child|]; cbn [default]; [tauto|].
        rewrite node_at_default. split.
        -- intros [->|H]; right; [apply prefix_nil | exact H].
        -- intros [[x Hx]|H]; [discriminate | right; exact H].
      * split; [tauto|]. intros [H|H]; [exact H|].
        apply prefix_cons_inv_1 in H. congruence.
Qed.

Lemma fields_add_nested (x : string) (n n' : dr_meta_t) :
  fields_add x n = Ok n' → meta_nested n' = meta_nested n.
Proof.
  unfold fields_add. destruct (meta_fields n); [discriminate|].
  intros [= <-]. reflexivity.
Qed.

(** The inner loop of the include pass, started at any [parent_info]:
    segment [i] is added to the names of the node reached by the first
    [i] segments, and the nodes on the way are the only ones created. *)
Lemma include_segments_loop (field_list : list string) (m : dr_meta_t)
    (parent_info : option (string * meta_ref)) :
  all_nodes include_node m →
  ∃ st',
    foldM (segment_step fields_add) field_list (m, parent_info) = Ok st'
    ∧ all_nodes include_node st'.1
    ∧ (∀ q s, s ∈ names_at q st'.1 ↔
              s ∈ names_at q m
              ∨ ∃ i, q = field_meta_ref parent_info ++ take i field_list
                     ∧ field_list !! i = Some s)
    ∧ (∀ q, is_Some (node_at q st'.1) ↔
            is_Some (node_at q m)
            ∨ ∃ i, (i < List.length field_list)%nat
                   ∧ q `prefix_of` field_meta_ref parent_info ++ take i field_list).
Proof.
  revert m parent_info. induction field_list as [|x rest IH]; intros m parent_info Hm.
  - exists (m, parent_info). split; [reflexivity|]. split; [exact Hm|]. split.
    + intros q s. split; [tauto|]. intros [H|(i & _ & Hi)]; [exact H | discriminate].
    + intros q. split; [tauto|]. intros [H|(i & Hi & _)]; [exact H|]. simpl in Hi. lia.
  - set (ref0 := field_meta_ref parent_info).
    destruct (fields_add_include_node x (target ref0 m)) as (n' & Hadd & _).
    { apply all_nodes_target; [apply include_node_default | exact Hm]. }
    destruct (modify_at_Ok ref0 _ m n' Hadd) as (m1 & Hm1 & _).
    assert (all_nodes include_node m1) as Hinv1.
    { destruct (include_segment_step x (m, parent_info) Hm) as (st1 & Hst1 & Hall1).
      unfold segment_step in Hst1. fold ref0 in Hst1. rewrite Hm1 in Hst1.
      injection Hst1 as <-. exact Hall1. }
    destruct (IH m1 (Some (x, ref0)) Hinv1) as (st' & Hloop & Hinv & Hnames & Hnodes).
    exists st'. split; [|split; [exact Hinv|split]].
    + cbn [foldM segment_step]. fold ref0. rewrite Hm1. exact Hloop.
    + intros q s. rewrite Hnames, (names_at_modify_add _ _ _ _ Hm Hm1 q).
      cbn [field_meta_ref]. split.
      * intros [H|(i & -> & Hi)].
        -- case_decide as Hq; [|tauto].
           apply elem_of_union in H as [H|H]; [|tauto].
           apply elem_of_singleton in H as ->. right. exists 0.
           split; [subst q; symmetry; apply app_nil_r | reflexivity].
        -- right. exists (S i). split; [|exact Hi].
           rewrite <- app_assoc. reflexivity.
      * intros [H|([|i] & -> & Hi)].
        -- left. case_decide; [apply elem_of_union_r, H | exact H].
        -- left. cbn [take lookup list_lookup] in *. injection Hi as ->.
           rewrite app_nil_r. case_decide; [|congruence].
           apply elem_of_union_l, elem_of_singleton. reflexivity.
        -- right. exists i. split; [|exact Hi]. rewrite <- app_assoc. reflexivity.
    + intros q. rewrite Hnodes, (node_at_modify_at _ _ _ _ (fields_add_nested x) Hm1 q).
      cbn [field_meta_ref]. split.
      * intros [[H|H]|(i & Hi & Hpre)].
        -- tauto.
        -- right. exists 0. split; [simpl; lia|]. cbn [take]. rewrite app_nil_r. exact H.
        -- right. exists (S i). split; [simpl; lia|].
           rewrite <- app_assoc in Hpre. exact Hpre.
      * intros [H|([|i] & Hi & Hpre)].
        -- tauto.
        -- left. right. cbn [take] in Hpre. rewrite app_nil_r in Hpre. exact Hpre.
        -- right. exists i. split; [simpl in Hi; lia|].
           rewrite <- app_assoc. exact Hpre.
Qed.

Lemma include_pass_tree (paths : list (list string)) (m : dr_meta_t) :
  all_nodes include_node m →
  ∃ m',
    foldM process_filter_path paths m = Ok m'
    ∧ all_nodes include_node m'
    ∧ (∀ q s, s ∈ names_at q m' ↔
              s ∈ names_at q m
              ∨ ∃ field_list i, In field_list paths ∧ q = take i field_list
                                ∧ field_list !! i = Some s)
    ∧ (∀ q, is_Some (node_at q m') ↔
            is_Some (node_at q m)
            ∨ ∃ field_list i, In field_list paths
                              ∧ (i < List.length field_list)%nat
                              ∧ q `prefix_of` take i field_list).
Proof.
  revert m. induction paths as [|p paths IH]; intros m Hm.
  - exists m. split; [reflexivity|]. split; [exact Hm|]. split.
    + intros q s. split; [tauto|]. intros [H|(fl & i & [] & _)]. exact H.
    + intros q. split; [tauto|]. intros [H|(fl & i & [] & _)]. exact H.
  - destruct (include_segments_loop p m None Hm)
      as ([m1 pi1] & Hloop & Hinv1 & Hnames1 & Hnodes1).
    cbn [fst field_meta_ref app] in *.
    destruct (IH m1 Hinv1) as (m' & Hpass & Hinv & Hnames & Hnodes).
    exists m'. split; [|split; [exact Hinv|split]].
    + assert (process_filter_path m p = Ok m1) as Hstep
        by (unfold process_filter_path; rewrite Hloop; reflexivity).
      cbn [foldM]. rewrite Hstep. exact Hpass.
    + intros q s. rewrite Hnames, Hnames1. split.
      * intros [[H|(i & Hq & Hi)]|(fl & i & Hfl & Hq & Hi)].
        -- tauto.
        -- right. exists p, i. split; [left; reflexivity | tauto].
        -- right. exists fl, i. split; [right; exact Hfl | tauto].
      * intros [H|(fl & i & [<-|Hfl] & Hq & Hi)].
        -- tauto.
        -- left. right. eauto.
        -- right. eauto.
    + intros q. rewrite Hnodes, Hnodes1. split.
      * intros [[H|(i & Hi & Hq)]|(fl & i & Hfl & Hi & Hq)].
        -- tauto.
        -- right. exists p, i. split; [left; reflexivity | tauto].
        -- right. exists fl, i. split; [right; exact Hfl | tauto].
      * intros [H|(fl & i & [<-|Hfl] & Hi & Hq)].
        -- tauto.
        -- left. right. eauto.
        -- right. eauto.
Qed.

Lemma prefix_of_take {A : Type} (q l : list A) (i : nat) :
  (i < List.length l)%nat → q `prefix_of` take i l →
  ∃ j, (j < List.length l)%nat ∧ q = take j l.
Proof.
  intros Hi [k Hk]. exists (List.length q). split.
  - apply (f_equal (@List.length A)) in Hk.
    rewrite length_take, length_app in Hk. lia.
  - assert (take (List.length q) (take i l) = q) as Hq
      by (rewrite Hk; apply take_app_length).
    rewrite <- Hq at 1. rewrite take_take. f_equal.
    apply (f_equal (@List.length A)) in Hk.
    rewrite length_take, length_app in Hk. lia.
Qed.

(** The names, the nodes and the invariant of an include-only tree. *)
Lemma include_tree_spec (filter_fields : list string) :
  ∃ root,
    process_field_options filter_fields [] = Ok root
    ∧ all_nodes (λ n, meta_fields n ≠ ALL_FIELDS ∧ meta_omit n = ∅) root
    ∧ (∀ r s, s ∈ names_at r root ↔
              ∃ path i, In path filter_fields
                        ∧ r = take i (split path LOOKUP_SEP)
                        ∧ split path LOOKUP_SEP !! i = Some s)
    ∧ (∀ r, is_Some (node_at r root) ↔
            r = []
            ∨ ∃ path i, In path filter_fields
                        ∧ (i < List.length (split path LOOKUP_SEP))%nat
                        ∧ r = take i (split path LOOKUP_SEP)).
Proof.
  destruct (include_pass_tree (map (λ each, split each LOOKUP_SEP) filter_fields)
              dynamic_read_meta (all_nodes_default _ include_node_default))
    as (root & Hpass & Hinv & Hnames & Hnodes).
  exists root. split; [|split; [exact Hinv|split]].
  - unfold process_field_options. rewrite Hpass. reflexivity.
  - intros r s. rewrite Hnames, names_at_default. split.
    + intros [H|(fl & i & Hfl & Hr & Hi)]; [set_solver|].
      apply in_map_iff in Hfl as (path & <- & Hpath). eauto.
    + intros (path & i & Hpath & Hr & Hi). right.
      exists (split path LOOKUP_SEP), i. split; [|tauto].
      apply in_map_iff. eauto.
  - intros r. rewrite Hnodes, node_at_default. split.
    + intros [H|(fl & i & Hfl & Hi & Hr)]; [tauto|]. right.
      apply in_map_iff in Hfl as (path & <- & Hpath).
      destruct (prefix_of_take _ _ _ Hi Hr) as (j & Hj & ->). eauto.
    + intros [H|(path & i & Hpath & Hi & ->)]; [tauto|]. right.
      exists (split path LOOKUP_SEP), i. split; [apply in_map_iff; eauto|].
      split; [exact Hi | reflexivity].
Qed.

(** The tree of an include-only request. Every node holds a set of
    names and omits nothing. A name is in the set of the node reached
    by the keys [r] exactly when some include path has the segments
    [r] followed by that name; and apart from the root, the nodes of
    the tree are those reached by a proper, non-empty initial part of
    the segments of some include path. *)
Theorem process_field_options_include_tree (filter_fields : list string) :
  ∃ root,
    process_field_options filter_fields [] = Ok root
    ∧ all_nodes (λ n, meta_fields n ≠ ALL_FIELDS ∧ meta_omit n = ∅) root
    ∧ (∀ r s, s ∈ names_at r root ↔
              ∃ path i, In path filter_fields
                        ∧ r = take i (split path LOOKUP_SEP)
                        ∧ split path LOOKUP_SEP !! i = Some s)
    ∧ (∀ r, is_Some (node_at r root) ↔
            r = []
            ∨ ∃ path i, In path filter_fields
                        ∧ (i < List.length (split path LOOKUP_SEP))%nat
                        ∧ r = take i (split path LOOKUP_SEP)).
Proof.
  destruct (include_tree_spec filter_fields) as (root & Hroot & Hinv & Hnames & Hnodes).
  exists root. split; [exact Hroot|]. split; [exact Hinv|].
  split; [exact Hnames | exact Hnodes].
Qed.

(** ** Relational fields of the model ([get_relational_fields]) *)

Lemma last_cons_cases {A : Type} (x : A) (l : list A) :
  last (x :: l) = match last l with Some y => Some y | None => Some x end.
Proof.
  destruct l as [|y l]; [reflexivity|]. cbn [last].
  destruct (last (y :: l)) eqn:E; [reflexivity|]. apply last_None in E. discriminate.
Qed.

Lemma dict_set_keys_new {V : Type} (d : list (string * V)) (k : string) (v : V) :
  dict_get d k = None → map fst (dict_set d k v) = map fst d ++ [k].
Proof.
  induction d as [|[k0 v0] d IH]; cbn [dict_get dict_set map fst app]; [reflexivity|].
  destruct (String.eqb k k0); [discriminate|]. intros H.
  cbn [map fst]. rewrite (IH H). reflexivity.
Qed.

Lemma dict_set_NoDup {V : Type} (d : list (string * V)) (k : string) (v : V) :
  NoDup (map fst d) → NoDup (map fst (dict_set d k v)).
Proof.
  intros Hd. destruct (dict_get d k) as [x|] eqn:Hget.
  - rewrite dict_set_keys by eauto. exact Hd.
  - rewrite (dict_set_keys_new _ _ _ Hget). apply NoDup_app.
    split; [exact Hd|]. split; [|apply NoDup_singleton].
    intros x Hx Hk. apply list_elem_of_singleton in Hk as ->.
    apply dict_get_None in Hget. apply Hget. unfold keys.
    apply elem_of_list_to_set, Hx.
Qed.

Lemma get_relational_fields_loop (model_fields : list model_field)
    (d : list (string * model_field)) (k : string) :
  dict_get
    (fold_left
       (λ d each, if is_relation each then dict_set d (relation_key each) each else d)
       model_fields d) k
  = match last (List.filter
                  (λ each, is_relation each && String.eqb (relation_key each) k)
                  model_fields) with
    | Some each => Some each
    | None => dict_get d k
    end.
Proof.
  revert d. induction model_fields as [|each rest IH]; intros d; [reflexivity|].
  cbn [fold_left List.filter]. rewrite IH.
  destruct (is_relation each) eqn:Hrel; cbn [andb]; [|reflexivity].
  destruct (String.eqb_spec (relation_key each) k) as [Heq|Hne].
  - rewrite last_cons_cases, Heq, dict_get_set_eq. destruct (last _); reflexivity.
  - rewrite dict_get_set_ne by exact Hne. reflexivity.
Qed.

Lemma get_relational_fields_NoDup_loop (model_fields : list model_field)
    (d : list (string * model_field)) :
  NoDup (map fst d) →
  NoDup (map fst
           (fold_left
              (λ d each,
                 if is_relation each then dict_set d (relation_key each) each else d)
              model_fields d)).
Proof.
  revert d. induction model_fields as [|each rest IH]; intros d Hd; [exact Hd|].
  cbn [fold_left]. apply IH.
  destruct (is_relation each); [apply dict_set_NoDup, Hd | exact Hd].
Qed.

(** The dict of relational fields has one entry per key, a key being
    the accessor name of a relation when it has a non-empty one and its
    field name otherwise; a field that is not a relation never enters
    it; and when several relations share a key, the entry holds the
    last of them. *)
Theorem get_relational_fields_spec (model_fields : list model_field) :
  NoDup (map fst (get_relational_fields model_fields))
  ∧ (∀ k, dict_get (get_relational_fields model_fields) k
          = last (List.filter
                    (λ each, is_relation each && String.eqb (relation_key each) k)
                    model_fields))
  ∧ (∀ k each, In (k, each) (get_relational_fields model_fields) →
               In each model_fields ∧ is_relation each = true
               ∧ relation_key each = k).
Proof.
  assert (∀ k, dict_get (get_relational_fields model_fields) k
               = last (List.filter
                         (λ each, is_relation each && String.eqb (relation_key each) k)
                         model_fields)) as Hget.
  { intros k. unfold get_relational_fields. rewrite get_relational_fields_loop.
    destruct (last _); reflexivity. }
  assert (NoDup (map fst (get_relational_fields model_fields))) as Hnodup
    by apply get_relational_fields_NoDup_loop, NoDup_nil_2.
  split; [exact Hnodup|]. split; [exact Hget|].
  intros k each Hin.
  assert (dict_get (get_relational_fields model_fields) k = Some each) as Hk.
  { revert Hnodup Hin. generalize (get_relational_fields model_fields).
    intros d. induction d as [|[k0 v0] d IH]; [intros _ []|].
    cbn [map fst dict_get]. intros Hnd [[= -> ->]|Hin].
    - rewrite String.eqb_refl. reflexivity.
    - apply NoDup_cons in Hnd as [Hk0 Hnd].
      destruct (String.eqb_spec k k0) as [->|_]; [|apply IH; assumption].
      destruct Hk0. apply list_elem_of_In, in_map_iff. exists (k0, each).
      split; [reflexivity | exact Hin]. }
  rewrite Hget in Hk. apply last_Some in Hk as (l' & Hl').
  assert (In each (List.filter
                     (λ each, is_relation each && String.eqb (relation_key each) k)
                     model_fields)) as Hf
    by (rewrite Hl'; apply in_app_iff; right; left; reflexivity).
  apply filter_In in Hf as [Hmem Hcond]. apply andb_true_iff in Hcond as [Hrel Hkey].
  apply String.eqb_eq in Hkey. tauto.
Qed.

(** ** The view mixin ([DynamicReadViewMixin]) *)

Lemma parse_param_truthy (unparsed : string) :
  truthy (parse_param unparsed) = negb (String.eqb unparsed "").
Proof.
  destruct unparsed as [|c s]; [reflexivity|]. cbn [parse_param truthy].
  destruct (split (String c s) ",") eqn:E; [|reflexivity].
  destruct (split_from_nonempty "," (String c s) 0 "" E).
Qed.

(** A request is rejected exactly when both query parameters [fields]
    and [omit] are present and non-empty, a repeated parameter counting
    with its last value: then building the serializer raises the
    assertion error. In every other case the serializer is built, and
    when both parameters are absent or empty it has no selection
    node. *)
Theorem get_serializer_rejects_both (relational : list string)
    (declared : list (string * Field)) (query_params : list (string * string)) :
  let fields_param := query_param query_params "fields" in
  let omit_param := query_param query_params "omit" in
  (fields_param ≠ "" → omit_param ≠ "" →
     get_serializer (DynamicReadClass relational declared) query_params
     = Raise (AssertionError "Pass either filter_fields or omit_fields, not both"))
  ∧ (fields_param = "" ∨ omit_param = "" →
     ∃ self,
       get_serializer (DynamicReadClass relational declared) query_params
       = Ok (DynamicSerializer self)
       ∧ relational_fields self = relational
       ∧ get_fields self = declared
       ∧ (fields_param = "" → omit_param = "" → dr_meta self = None)).
Proof.
  intros fields_param omit_param.
  assert (truthy (view_fields query_params) = negb (String.eqb fields_param ""))
    as Hf by apply parse_param_truthy.
  assert (truthy (view_omit query_params) = negb (String.eqb omit_param ""))
    as Ho by apply parse_param_truthy.
  split.
  - intros Hfne Hone. cbn [get_serializer]. unfold __init__. rewrite Hf, Ho.
    destruct (String.eqb_spec fields_param ""); [congruence|].
    destruct (String.eqb_spec omit_param ""); [congruence|]. reflexivity.
  - intros Hempty. cbn [get_serializer].
    destruct (__init__ relational declared (view_fields query_params)
                       (view_omit query_params)) as [self|e] eqn:Hinit.
    + exists self. cbn [mbind result_bind]. split; [reflexivity|].
      unfold __init__ in Hinit. rewrite Hf, Ho in Hinit.
      destruct (negb (String.eqb fields_param "") && negb (String.eqb omit_param ""));
        [discriminate|].
      apply bind_Ok_inv in Hinit as (meta & Hmeta & [= <-]).
      split; [reflexivity|]. split; [reflexivity|].
      intros Hfe Hoe. cbn [dr_meta negb]. rewrite Hfe, Hoe in Hmeta.
      cbn [String.eqb negb nonempty orb] in Hmeta. congruence.
    + exfalso. unfold __init__ in Hinit. rewrite Hf, Ho in Hinit.
      destruct (negb (String.eqb fields_param "") && negb (String.eqb omit_param ""))
        eqn:Hboth.
      * apply andb_true_iff in Hboth as [H1 H2].
        destruct Hempty as [He|He]; rewrite He in *; discriminate.
      * match type of Hinit with
        | context [process_field_options ?ff ?oo] =>
            destruct (process_field_options_spec ff oo) as (root & Hroot & _);
            rewrite Hroot in Hinit
        end.
        cbn [mbind result_bind] in Hinit.
        destruct (nonempty _ || nonempty _); discriminate.
Qed.

Lemma get_serializer_rejects_both_witness :
  get_serializer (DynamicReadClass ["author"] [("author", OtherField)])
                 [("fields", ""); ("omit", "id,title"); ("fields", "author")]
  = Raise (AssertionError "Pass either filter_fields or omit_fields, not both").
Proof.
  apply (get_serializer_rejects_both ["author"] [("author", OtherField)]
           [("fields", ""); ("omit", "id,title"); ("fields", "author")]);
    discriminate.
Defined.

(** A repeated query parameter counts with its last value: an empty
    last [fields] value lifts the rejection, whatever came before. *)
Example get_serializer_repeated_parameter :
  query_param [("fields", "a"); ("fields", ""); ("omit", "b")] "fields" = ""
  ∧ ∃ self,
      get_serializer (DynamicReadClass ["author"] [("author", OtherField)])
                     [("fields", "a"); ("fields", ""); ("omit", "b")]
      = Ok (DynamicSerializer self).
Proof. split; [reflexivity|]. eexists. vm_compute. reflexivity. Qed.

(** ** The tree of an omit-only request *)

Lemma omit_at_default (q : meta_ref) : omit_at q dynamic_read_meta = ∅.
Proof. destruct q; reflexivity. Qed.

Lemma omit_at_cons (k : string) (q : meta_ref) (m : dr_meta_t) :
  omit_at (k :: q) m
  = omit_at q (default dynamic_read_meta (dict_get (meta_nested m) k)).
Proof.
  unfold omit_at. cbn [node_at].
  destruct (dict_get (meta_nested m) k) as [child|]; [reflexivity|].
  change (default dynamic_read_meta None) with dynamic_read_meta.
  fold (omit_at q dynamic_read_meta). rewrite omit_at_default. reflexivity.
Qed.

Lemma marked_all_default (q : meta_ref) : ¬ marked_all q dynamic_read_meta.
Proof.
  intros (n & Hn & Hall). destruct q; simpl in Hn; [|discriminate].
  injection Hn as <-. discriminate Hall.
Qed.

Lemma marked_all_cons (k : string) (q : meta_ref) (m : dr_meta_t) :
  marked_all (k :: q) m
  ↔ marked_all q (default dynamic_read_meta (dict_get (meta_nested m) k)).
Proof.
  unfold marked_all at 1. cbn [node_at].
  destruct (dict_get (meta_nested m) k) as [child|]; [reflexivity|].
  change (default dynamic_read_meta None) with dynamic_read_meta.
  split; [intros (n & Hn & _); discriminate|].
  intros H. destruct (marked_all_default q H).
Qed.

(** A statement that keeps [nested] and maps the [omit] set by [g]
    changes the [omit] set behind the reference, and no other. *)
Lemma omit_at_modify_at (r : meta_ref) (f : dr_meta_t → result dr_meta_t)
    (g : gset string → gset string) (m m' : dr_meta_t) :
  (∀ n n', f n = Ok n' →
           meta_nested n' = meta_nested n ∧ meta_omit n' = g (meta_omit n)) →
  modify_at r f m = Ok m' →
  ∀ q, omit_at q m' = if decide (q = r) then g (omit_at q m) else omit_at q m.
Proof.
  intros Hf. revert m m'. induction r as [|k r IH]; intros m m' Hmod q.
  - cbn [modify_at] in Hmod. destruct (Hf _ _ Hmod) as [Hnested Homit].
    destruct q as [|k q].
    + case_decide; [|congruence]. exact Homit.
    + case_decide; [discriminate|]. unfold omit_at. cbn [node_at].
      rewrite Hnested. reflexivity.
  - cbn [modify_at] in Hmod. apply bind_Ok_inv in Hmod as (child' & Hchild & [= <-]).
    destruct q as [|k' q].
    + case_decide; [discriminate | reflexivity].
    + rewrite !omit_at_cons. cbn [meta_nested]. rewrite dict_get_set.
      destruct (String.eqb_spec k k') as [<-|Hne].
      * change (default dynamic_read_meta (Some child')) with child'.
        rewrite (IH _ _ Hchild q). repeat case_decide; simplify_eq; reflexivity.
      * case_decide; [congruence | reflexivity].
Qed.

(** A statement that keeps [nested] and either marks every node
    ([mark] holds) or keeps the [fields] entry changes the mark behind
    the reference at most. *)
Lemma marked_all_modify_at (r : meta_ref) (f : dr_meta_t → result dr_meta_t)
    (mark : Prop) (m m' : dr_meta_t) :
  (∀ n n', f n = Ok n' →
           meta_nested n' = meta_nested n
           ∧ (meta_fields n' = ALL_FIELDS ↔ mark ∨ meta_fields n = ALL_FIELDS)) →
  modify_at r f m = Ok m' →
  ∀ q, marked_all q m' ↔ marked_all q m ∨ (mark ∧ q = r).
Proof.
  intros Hf. revert m m'. induction r as [|k r IH]; intros m m' Hmod q.
  - cbn [modify_at] in Hmod. destruct (Hf _ _ Hmod) as [Hnested Hmark].
    destruct q as [|k q].
    + unfold marked_all. cbn [node_at]. split.
      * intros (n & [= <-] & Hall). apply Hmark in Hall as [H|H]; [tauto|]. eauto.
      * intros [(n & [= <-] & Hall)|[H _]]; (eexists; split; [reflexivity|]);
          apply Hmark; tauto.
    + unfold marked_all. cbn [node_at]. rewrite Hnested.
      split; [tauto|]. intros [H|[_ H]]; [exact H | discriminate].
  - cbn [modify_at] in Hmod. apply bind_Ok_inv in Hmod as (child' & Hchild & [= <-]).
    destruct q as [|k' q].
    + unfold marked_all. cbn [node_at]. split.
      * intros (n & [= <-] & Hall). left. eauto.
      * intros [(n & [= <-] & Hall)|[_ H]]; [|discriminate]. eauto.
    + rewrite !marked_all_cons. cbn [meta_nested]. rewrite dict_get_set.
      destruct (String.eqb_spec k k') as [<-|Hne].
      * change (default dynamic_read_meta (Some child')) with child'.
        rewrite (IH _ _ Hchild q). split.
        -- intros [H|[H ->]]; tauto.
        -- intros [H|[H Hq]]; [tauto|]. injection Hq as ->. tauto.
      * split; [tauto|]. intros [H|[_ H]]; [exact H | congruence].
Qed.

Lemma fields_assign_all_effect (n n' : dr_meta_t) :
  fields_assign_all n = Ok n' →
  meta_nested n' = meta_nested n ∧ meta_omit n' = meta_omit n
  ∧ (meta_fields n' = ALL_FIELDS ↔ True ∨ meta_fields n = ALL_FIELDS).
Proof. intros [= <-]. cbn. tauto. Qed.

Lemma omit_add_effect (x : string) (n n' : dr_meta_t) :
  omit_add x n = Ok n' →
  meta_nested n' = meta_nested n ∧ meta_omit n' = {[x]} ∪ meta_omit n
  ∧ (meta_fields n' = ALL_FIELDS ↔ False ∨ meta_fields n = ALL_FIELDS).
Proof. intros [= <-]. cbn. tauto. Qed.

(** The inner loop of the omit pass marks the nodes of the chain,
    creates no node off the chain and touches no [omit] set. *)
Lemma omit_segments_tree (field_list : list string) (m : dr_meta_t)
    (parent_info : option (string * meta_ref))
    (st' : dr_meta_t * option (string * meta_ref)) :
  foldM (segment_step (λ _, fields_assign_all)) field_list (m, parent_info) = Ok st' →
  (∀ q, omit_at q st'.1 = omit_at q m)
  ∧ (∀ q, marked_all q st'.1 ↔
          marked_all q m
          ∨ ∃ i, (i < List.length field_list)%nat
                 ∧ q = field_meta_ref parent_info ++ take i field_list)
  ∧ (∀ q, is_Some (node_at q st'.1) ↔
          is_Some (node_at q m)
          ∨ ∃ i, (i < List.length field_list)%nat
                 ∧ q `prefix_of` field_meta_ref parent_info ++ take i field_list).
Proof.
  revert m parent_info. induction field_list as [|x rest IH]; intros m parent_info.
  - intros [= <-]. cbn [fst]. split; [reflexivity|].
    split; intros q; (split; [tauto|]); intros [H|(i & Hi & _)];
      try exact H; simpl in Hi; lia.
  - cbn [foldM segment_step]. set (ref0 := field_meta_ref parent_info).
    intros Hloop. apply bind_Ok_inv in Hloop as ([m1 pi1] & Hstep & Hloop).
    apply bind_Ok_inv in Hstep as (m1' & Hm1 & [= <- <-]).
    destruct (IH _ _ Hloop) as (Homit & Hmark & Hnodes).
    cbn [field_meta_ref] in Hmark, Hnodes.
    split; [|split].
    + intros q. rewrite Homit.
      rewrite (omit_at_modify_at ref0 fields_assign_all (λ o, o) _ _
                 (λ n n' H, let '(conj a (conj b _)) := fields_assign_all_effect n n' H
                            in conj a b) Hm1 q).
      case_decide; reflexivity.
    + intros q. rewrite Hmark.
      rewrite (marked_all_modify_at ref0 fields_assign_all True _ _
                 (λ n n' H, let '(conj a (conj _ c)) := fields_assign_all_effect n n' H
                            in conj a c) Hm1 q).
      split.
      * intros [[H|[_ ->]]|(i & Hi & ->)].
        -- tauto.
        -- right. exists 0. split; [simpl; lia|]. cbn [take]. rewrite app_nil_r.
           reflexivity.
        -- right. exists (S i). split; [simpl; lia|]. rewrite <- app_assoc. reflexivity.
      * intros [H|([|i] & Hi & ->)].
        -- tauto.
        -- left. right. cbn [take]. rewrite app_nil_r. tauto.
        -- right. exists i. split; [simpl in Hi; lia|]. rewrite <- app_assoc.
           reflexivity.
    + intros q. rewrite Hnodes.
      rewrite (node_at_modify_at ref0 fields_assign_all _ _
                 (λ n n' H, proj1 (fields_assign_all_effect n n' H)) Hm1 q).
      split.
      * intros [[H|H]|(i & Hi & Hpre)].
        -- tauto.
        -- right. exists 0. split; [simpl; lia|]. cbn [take]. rewrite app_nil_r. exact H.
        -- right. exists (S i). split; [simpl; lia|].
           rewrite <- app_assoc in Hpre. exact Hpre.
      * intros [H|([|i] & Hi & Hpre)].
        -- tauto.
        -- left. right. cbn [take] in Hpre. rewrite app_nil_r in Hpre. exact Hpre.
        -- right. exists i. split; [simpl in Hi; lia|].
           rewrite <- app_assoc. exact Hpre.
Qed.

Lemma last_take_snoc {A : Type} (l q : list A) (x y : A) :
  last l = Some x →
  (q = take (List.length l - 1) l ∧ y = x) ↔ l = q ++ [y].
Proof.
  intros Hlast. apply last_Some in Hlast as (l' & ->).
  rewrite length_app. cbn [List.length].
  replace (List.length l' + 1 - 1) with (List.length l') by lia.
  rewrite take_app_length. split.
  - intros [-> ->]. reflexivity.
  - intros H. apply app_inj_tail in H as [-> ->]. split; reflexivity.
Qed.

(** One iteration of the omit pass: the last segment enters the [omit]
    set of the last node of the chain, and nothing else changes beyond
    what the inner loop did. *)
Lemma process_omit_path_tree (m m' : dr_meta_t) (field_list : list string) :
  process_omit_path m field_list = Ok m' →
  (∀ q x, x ∈ omit_at q m' ↔ x ∈ omit_at q m ∨ field_list = q ++ [x])
  ∧ (∀ q, marked_all q m' ↔
          marked_all q m
          ∨ ∃ i, (i < List.length field_list)%nat ∧ q = take i field_list)
  ∧ (∀ q, is_Some (node_at q m') ↔
          is_Some (node_at q m)
          ∨ ∃ i, (i < List.length field_list)%nat ∧ q `prefix_of` take i field_list).
Proof.
  unfold process_omit_path.
  destruct (omit_segments_loop field_list m None) as (m1 & Hloop & _).
  destruct (omit_segments_tree _ _ _ _ Hloop) as (Homit & Hmark & Hnodes).
  rewrite Hloop. cbn [mbind result_bind fst field_meta_ref app] in *. unfold last_item.
  destruct (last field_list) as [x|] eqn:Hlast.
  - cbn [mbind result_bind].
    destruct (modify_at_Ok (take (List.length field_list - 1) field_list)
                (omit_add x) m1 _ eq_refl) as (m2 & Hm2 & _).
    rewrite Hm2. cbn [suppress]. intros [= <-].
    pose proof (last_Some_length _ _ Hlast) as Hlt.
    split; [|split].
    + intros q y.
      rewrite (omit_at_modify_at _ (omit_add x) (λ o, {[x]} ∪ o) _ _
                 (λ n n' H, let '(conj a (conj b _)) := omit_add_effect x n n' H
                            in conj a b) Hm2 q).
      rewrite <- (last_take_snoc field_list q x y Hlast), Homit.
      case_decide as Hq.
      * rewrite elem_of_union, elem_of_singleton. tauto.
      * tauto.
    + intros q. rewrite <- Hmark.
      rewrite (marked_all_modify_at _ (omit_add x) False _ _
                 (λ n n' H, let '(conj a (conj _ c)) := omit_add_effect x n n' H
                            in conj a c) Hm2 q).
      tauto.
    + intros q.
      rewrite (node_at_modify_at _ (omit_add x) _ _
                 (λ n n' H, proj1 (omit_add_effect x n n' H)) Hm2 q), Hnodes.
      split; [|tauto]. intros [H|H]; [exact H|]. right. eauto.
  - cbn [mbind result_bind suppress is_IndexError]. intros [= <-].
    apply last_None in Hlast. subst field_list.
    split; [|split; [exact Hmark | exact Hnodes]].
    intros q y. rewrite Homit. split; [tauto|].
    intros [H|H]; [exact H|]. destruct q; discriminate.
Qed.

Lemma omit_pass_tree (paths : list (list string)) (m m' : dr_meta_t) :
  foldM process_omit_path paths m = Ok m' →
  (∀ q x, x ∈ omit_at q m' ↔
          x ∈ omit_at q m ∨ ∃ field_list, In field_list paths ∧ field_list = q ++ [x])
  ∧ (∀ q, marked_all q m' ↔
          marked_all q m
          ∨ ∃ field_list i, In field_list paths
                            ∧ (i < List.length field_list)%nat
                            ∧ q = take i field_list)
  ∧ (∀ q, is_Some (node_at q m') ↔
          is_Some (node_at q m)
          ∨ ∃ field_list i, In field_list paths
                            ∧ (i < List.length field_list)%nat
                            ∧ q `prefix_of` take i field_list).
Proof.
  revert m. induction paths as [|p paths IH]; intros m; cbn [foldM].
  - intros [= <-]. split; [|split]; intros q; try intros x; (split; [tauto|]).
    + intros [H|(fl & [] & _)]. exact H.
    + intros [H|(fl & i & [] & _)]. exact H.
    + intros [H|(fl & i & [] & _)]. exact H.
  - intros Hpass. apply bind_Ok_inv in Hpass as (m1 & Hstep & Hpass).
    destruct (process_omit_path_tree _ _ _ Hstep) as (Homit1 & Hmark1 & Hnodes1).
    destruct (IH _ Hpass) as (Homit & Hmark & Hnodes).
    split; [|split].
    + intros q x. rewrite Homit, Homit1. split.
      * intros [[H|H]|(fl & Hfl & H)]; [tauto | right | right].
        -- exists p. split; [left; reflexivity | exact H].
        -- exists fl. split; [right; exact Hfl | exact H].
      * intros [H|(fl & [<-|Hfl] & H)]; [tauto | tauto | right; eauto].
    + intros q. rewrite Hmark, Hmark1. split.
      * intros [[H|(i & Hi & H)]|(fl & i & Hfl & H)]; [tauto | right | right].
        -- exists p, i. split; [left; reflexivity | tauto].
        -- exists fl, i. split; [right; exact Hfl | exact H].
      * intros [H|(fl & i & [<-|Hfl] & H)]; [tauto | left; right; eauto | right; eauto].
    + intros q. rewrite Hnodes, Hnodes1. split.
      * intros [[H|(i & Hi & H)]|(fl & i & Hfl & H)]; [tauto | right | right].
        -- exists p, i. split; [left; reflexivity | tauto].
        -- exists fl, i. split; [right; exact Hfl | exact H].
      * intros [H|(fl & i & [<-|Hfl] & H)]; [tauto | left; right; eauto | right; eauto].
Qed.

(** The marks, the [omit] sets and the nodes of an omit-only tree. *)
Lemma omit_tree_spec (omit_fields : list string) :
  ∃ root,
    process_field_options [] omit_fields = Ok root
    ∧ (omit_fields ≠ [] → all_nodes (λ n, meta_fields n = ALL_FIELDS) root)
    ∧ (∀ r x, x ∈ omit_at r root ↔
              ∃ path, In path omit_fields ∧ split path LOOKUP_SEP = r ++ [x])
    ∧ (∀ r, is_Some (node_at r root) ↔
            r = []
            ∨ ∃ path i, In path omit_fields
                        ∧ (i < List.length (split path LOOKUP_SEP))%nat
                        ∧ r = take i (split path LOOKUP_SEP)).
Proof.
  destruct (process_field_options_spec [] omit_fields) as (root & Hroot & _).
  exists root. split; [exact Hroot|].
  unfold process_field_options in Hroot. cbn [map foldM mbind result_bind] in Hroot.
  destruct (omit_pass_tree _ _ _ Hroot) as (Homit & Hmark & Hnodes).
  assert (∀ r, is_Some (node_at r root) ↔
               r = []
               ∨ ∃ path i, In path omit_fields
                           ∧ (i < List.length (split path LOOKUP_SEP))%nat
                           ∧ r = take i (split path LOOKUP_SEP)) as Hexists.
  { intros r. rewrite Hnodes, node_at_default. split.
    - intros [H|(fl & i & Hfl & Hi & Hr)]; [tauto|]. right.
      apply in_map_iff in Hfl as (path & <- & Hpath).
      destruct (prefix_of_take _ _ _ Hi Hr) as (j & Hj & ->). eauto.
    - intros [H|(path & i & Hpath & Hi & ->)]; [tauto|]. right.
      exists (split path LOOKUP_SEP), i. split; [apply in_map_iff; eauto|].
      split; [exact Hi | reflexivity]. }
  split; [|split; [|exact Hexists]].
  - intros Hne r n Hn.
    assert (marked_all r root) as (n' & Hn' & Hall); [|congruence].
    apply Hmark. right.
    assert (is_Some (node_at r root)) as Hsome by eauto.
    apply Hexists in Hsome as [->|(path & i & Hpath & Hi & ->)].
    + destruct omit_fields as [|path rest]; [congruence|].
      destruct (split_last path LOOKUP_SEP) as [x Hx].
      exists (split path LOOKUP_SEP), 0. split; [left; reflexivity|].
      split; [|reflexivity]. apply last_Some_length in Hx. lia.
    + exists (split path LOOKUP_SEP), i. split; [apply in_map_iff; eauto|].
      split; [exact Hi | reflexivity].
  - intros r x. rewrite Homit, omit_at_default. split.
    + intros [H|(fl & Hfl & Heq)]; [set_solver|].
      apply in_map_iff in Hfl as (path & <- & Hpath). eauto.
    + intros (path & Hpath & Heq). right. exists (split path LOOKUP_SEP).
      split; [apply in_map_iff; eauto | exact Heq].
Qed.

(** The tree of an omit-only request. When there is an omit path,
    every node is marked [ALL_FIELDS]. A name is in the [omit] set of
    the node reached by the keys [r] exactly when some omit path has
    the segments [r] followed by that name. Apart from the root, the
    nodes of the tree are those reached by a proper initial part of the
    segments of some omit path. *)
Theorem process_field_options_omit_tree (omit_fields : list string) :
  ∃ root,
    process_field_options [] omit_fields = Ok root
    ∧ (omit_fields ≠ [] → all_nodes (λ n, meta_fields n = ALL_FIELDS) root)
    ∧ (∀ r x, x ∈ omit_at r root ↔
              ∃ path, In path omit_fields ∧ split path LOOKUP_SEP = r ++ [x])
    ∧ (∀ r, is_Some (node_at r root) ↔
            r = []
            ∨ ∃ path i, In path omit_fields
                        ∧ (i < List.length (split path LOOKUP_SEP))%nat
                        ∧ r = take i (split path LOOKUP_SEP)).
Proof.
  destruct (omit_tree_spec omit_fields) as (root & Hroot & Hall & Homit & Hnodes).
  exists root. split; [exact Hroot|]. split; [exact Hall|].
  split; [exact Homit | exact Hnodes].
Qed.

(** ** From an include request to the exposed fields *)

Lemma take_nil_lookup {A : Type} (l : list A) (i : nat) (x : A) :
  [] = take i l → l !! i = Some x → ∃ rest, l = x :: rest.
Proof.
  destruct i as [|i], l as [|y l]; cbn; try discriminate.
  intros _ [= ->]. eauto.
Qed.

Lemma take_singleton_lookup {A : Type} (l : list A) (i : nat) (a x : A) :
  [a] = take i l → l !! i = Some x → ∃ rest, l = a :: x :: rest.
Proof.
  destruct i as [|i], l as [|y l]; cbn; try discriminate.
  intros [= <- Hnil] Hx. destruct (take_nil_lookup _ _ _ Hnil Hx) as (rest & ->). eauto.
Qed.

Lemma take_singleton_lt {A : Type} (l : list A) (i : nat) (a : A) :
  (i < List.length l)%nat → [a] = take i l → ∃ s rest, l = a :: s :: rest.
Proof.
  intros Hi Htake. destruct (l !! i) as [x|] eqn:Hx.
  - destruct (take_singleton_lookup _ _ _ _ Htake Hx) as (rest & ->). eauto.
  - apply lookup_ge_None in Hx. lia.
Qed.

Lemma is_child_multiple_with_serializer (child : Field) (s : Serializer) :
  is_child_multiple (with_serializer child s) = is_child_multiple child.
Proof. destruct child as [|s0|[|s0|c]]; reflexivity. Qed.

(** Nested cascade of an include request. A serializer is constructed
    with a non-empty include list and no omit list, and [a] is a
    declared field holding a selection-capable node without selection
    node of its own, named as first segment by some include path.
    Then the top level binds exactly the declared fields that are the
    first segment of an include path, [a] among them. The node under
    [a] binds all its fields when no include path goes below [a], and
    otherwise exactly those of its fields that some include path names
    as second segment after [a]. *)
Theorem include_request_cascades (relational : list string)
    (declared : list (string * Field)) (filter_fields : list string)
    (a : string) (child_field : Field) (child : Serializer) :
  dict_get declared a = Some child_field →
  extract_serializer_from_child child_field = Ok child →
  dr_meta child = None →
  (∃ path rest, In path filter_fields ∧ split path LOOKUP_SEP = a :: rest) →
  ∃ self bound bound_field child' bound_child,
    __init__ relational declared (Some filter_fields) None = Ok self
    ∧ fields self = Ok bound
    ∧ (∀ k, k ∈ keys bound ↔
            k ∈ keys declared
            ∧ ∃ path rest, In path filter_fields ∧ split path LOOKUP_SEP = k :: rest)
    ∧ dict_get bound a = Some bound_field
    ∧ is_child_multiple bound_field = is_child_multiple child_field
    ∧ extract_serializer_from_child bound_field = Ok child'
    ∧ fields child' = Ok bound_child
    ∧ (∀ k, k ∈ keys bound_child ↔
            k ∈ keys (get_fields child)
            ∧ ((¬ ∃ path s rest,
                    In path filter_fields ∧ split path LOOKUP_SEP = a :: s :: rest)
               ∨ ∃ path rest,
                   In path filter_fields ∧ split path LOOKUP_SEP = a :: k :: rest)).
Proof.
  intros Hdeclared Hextract Hchild_meta (path_a & rest_a & Hpath_a & Hsplit_a).
  destruct (include_tree_spec filter_fields)
    as (root & Hroot & Hinv & Hnames & Hnodes).
  assert (filter_fields ≠ []) as Hne by (intros ->; destruct Hpath_a).
  set (self := mk_serializer relational declared (Some root)).
  assert (__init__ relational declared (Some filter_fields) None = Ok self) as Hinit.
  { unfold __init__. cbn [truthy to_tuple andb negb].
    destruct filter_fields as [|f fs]; [congruence|].
    rewrite andb_false_r. cbn [nonempty negb orb]. rewrite Hroot. reflexivity. }
  (* the top level *)
  destruct (fields_spec self) as (bound & Hbound & Hkeys & Hget).
  cbn zeta in Hkeys. cbn [self dr_meta get_fields] in Hkeys, Hget.
  destruct (Hinv [] root eq_refl) as [Hset Homit].
  rewrite bool_decide_eq_false_2 in Hkeys by (rewrite Homit; congruence).
  assert (∀ k, k ∈ keys bound ↔
               k ∈ keys declared
               ∧ ∃ path rest, In path filter_fields ∧ split path LOOKUP_SEP = k :: rest)
    as Htop.
  { intros k. rewrite Hkeys.
    assert (k ∈ names_at [] root ↔
            ∃ path rest, In path filter_fields ∧ split path LOOKUP_SEP = k :: rest)
      as Hk.
    { rewrite Hnames. split.
      - intros (path & i & Hpath & Htake & Hi).
        destruct (take_nil_lookup _ _ _ Htake Hi) as (rest & Hrest). eauto.
      - intros (path & rest & Hpath & Hsplit). exists path, 0.
        rewrite Hsplit. split; [exact Hpath|]. split; reflexivity. }
    unfold names_at in Hk. cbn [node_at] in Hk.
    destruct (meta_fields root) as [|names]; [congruence|].
    rewrite elem_of_intersection. tauto. }
  (* the field [a] *)
  assert (a ∈ keys bound) as Ha.
  { apply Htop. split; [apply dict_get_is_Some; eauto | eauto]. }
  specialize (Hget a) as Hget_a.
  rewrite bool_decide_eq_true_2, Hdeclared in Hget_a by exact Ha.
  cbn [fmap option_fmap option_map] in Hget_a.
  unfold after_attach, attached_dr_meta in Hget_a.
  rewrite Hextract, Hchild_meta in Hget_a.
  set (child' := set_dr_meta child (dict_get (meta_nested root) a)) in *.
  (* the node under [a] *)
  destruct (fields_spec child') as (bound_child & Hbound_c & Hkeys_c & _).
  cbn zeta in Hkeys_c.
  replace (get_fields child') with (get_fields child) in Hkeys_c
    by (destruct child; reflexivity).
  replace (dr_meta child') with (node_at [a] root) in Hkeys_c
    by (destruct child; cbn; destruct (dict_get (meta_nested root) a); reflexivity).
  exists self, bound, (with_serializer child_field child'), child', bound_child.
  split; [exact Hinit|]. split; [exact Hbound|]. split; [exact Htop|].
  split; [exact Hget_a|]. split; [apply is_child_multiple_with_serializer|].
  split; [eapply extract_with_serializer, Hextract|]. split; [exact Hbound_c|].
  intros k. rewrite Hkeys_c.
  assert (is_Some (node_at [a] root) ↔
          ∃ path s rest, In path filter_fields ∧ split path LOOKUP_SEP = a :: s :: rest)
    as Hnode.
  { rewrite Hnodes. split.
    - intros [H|(path & i & Hpath & Hi & Htake)]; [discriminate|].
      destruct (take_singleton_lt _ _ _ Hi Htake) as (s & rest & Hsplit). eauto.
    - intros (path & s & rest & Hpath & Hsplit). right. exists path, 1.
      rewrite Hsplit. split; [exact Hpath|]. split; [simpl; lia | reflexivity]. }
  assert (k ∈ names_at [a] root ↔
          ∃ path rest, In path filter_fields ∧ split path LOOKUP_SEP = a :: k :: rest)
    as Hk.
  { rewrite Hnames. split.
    - intros (path & i & Hpath & Htake & Hi).
      destruct (take_singleton_lookup _ _ _ _ Htake Hi) as (rest & Hrest). eauto.
    - intros (path & rest & Hpath & Hsplit). exists path, 1.
      rewrite Hsplit. split; [exact Hpath|]. split; reflexivity. }
  unfold names_at in Hk.
  destruct (node_at [a] root) as [n|] eqn:Hn.
  - destruct (Hinv [a] n Hn) as [Hset_n Homit_n].
    rewrite bool_decide_eq_false_2 by (rewrite Homit_n; congruence).
    destruct (meta_fields n) as [|names]; [congruence|].
    rewrite elem_of_intersection, Hk.
    assert (∃ path s rest,
              In path filter_fields ∧ split path LOOKUP_SEP = a :: s :: rest) as Hbelow
      by (apply Hnode; eauto).
    tauto.
  - assert (¬ ∃ path s rest,
                In path filter_fields ∧ split path LOOKUP_SEP = a :: s :: rest) as Hnone.
    { intros H. apply Hnode in H as [x Hx]. discriminate. }
    tauto.
Qed.

Lemma include_request_cascades_witness :
  ∃ self bound bound_field child' bound_child,
    __init__ (relational_fields BookSerializer) (get_fields BookSerializer)
             (Some ["title"; "author__name"]) None = Ok self
    ∧ fields self = Ok bound
    ∧ (∀ k, k ∈ keys bound ↔
            k ∈ keys (get_fields BookSerializer)
            ∧ ∃ path rest, In path ["title"; "author__name"]
                           ∧ split path LOOKUP_SEP = k :: rest)
    ∧ dict_get bound "author" = Some bound_field
    ∧ is_child_multiple bound_field
      = is_child_multiple (DynamicSerializer AuthorSerializer)
    ∧ extract_serializer_from_child bound_field = Ok child'
    ∧ fields child' = Ok bound_child
    ∧ (∀ k, k ∈ keys bound_child ↔
            k ∈ keys (get_fields AuthorSerializer)
            ∧ ((¬ ∃ path s rest,
                    In path ["title"; "author__name"]
                    ∧ split path LOOKUP_SEP = "author" :: s :: rest)
               ∨ ∃ path rest,
                   In path ["title"; "author__name"]
                   ∧ split path LOOKUP_SEP = "author" :: k :: rest)).
Proof.
  apply (include_request_cascades (relational_fields BookSerializer)
           (get_fields BookSerializer) ["title"; "author__name"] "author"
           (DynamicSerializer AuthorSerializer) AuthorSerializer).
  - reflexivity.
  - reflexivity.
  - reflexivity.
  - exists "author__name", ["name"]. split; [right; left; reflexivity | reflexivity].
Defined.

(** Nested cascade of an omit request. A serializer is constructed
    with a non-empty omit list and no include list, and [a] is a
    declared field holding a selection-capable node without selection
    node of its own, which no omit path names as its only segment.
    Then the top level binds exactly the declared fields that no omit
    path names as its only segment, [a] among them, and the node under
    [a] binds exactly those of its fields [k] for which no omit path
    has the two segments [a], [k]. *)
Theorem omit_request_cascades (relational : list string)
    (declared : list (string * Field)) (omit_fields : list string)
    (a : string) (child_field : Field) (child : Serializer) :
  omit_fields ≠ [] →
  dict_get declared a = Some child_field →
  extract_serializer_from_child child_field = Ok child →
  dr_meta child = None →
  (¬ ∃ path, In path omit_fields ∧ split path LOOKUP_SEP = [a]) →
  ∃ self bound bound_field child' bound_child,
    __init__ relational declared None (Some omit_fields) = Ok self
    ∧ fields self = Ok bound
    ∧ (∀ k, k ∈ keys bound ↔
            k ∈ keys declared
            ∧ ¬ ∃ path, In path omit_fields ∧ split path LOOKUP_SEP = [k])
    ∧ dict_get bound a = Some bound_field
    ∧ is_child_multiple bound_field = is_child_multiple child_field
    ∧ extract_serializer_from_child bound_field = Ok child'
    ∧ fields child' = Ok bound_child
    ∧ (∀ k, k ∈ keys bound_child ↔
            k ∈ keys (get_fields child)
            ∧ ¬ ∃ path, In path omit_fields ∧ split path LOOKUP_SEP = [a; k]).
Proof.
  intros Hne Hdeclared Hextract Hchild_meta Hkept.
  destruct (omit_tree_spec omit_fields)
    as (root & Hroot & Hall & Homit & Hnodes).
  specialize (Hall Hne).
  set (self := mk_serializer relational declared (Some root)).
  assert (__init__ relational declared None (Some omit_fields) = Ok self) as Hinit.
  { unfold __init__. cbn [truthy to_tuple andb negb].
    destruct omit_fields as [|o os]; [congruence|].
    cbn [nonempty negb orb]. rewrite Hroot. reflexivity. }
  (* resolution at a node marked ALL_FIELDS *)
  assert (∀ (n : dr_meta_t) (F : gset string),
            meta_fields n = ALL_FIELDS →
            (if bool_decide (meta_omit n ≠ ∅) then F ∖ meta_omit n
             else match meta_fields n with
                  | ALL_FIELDS => F
                  | field_set names => names ∩ F
                  end) = F ∖ meta_omit n) as Hresolve.
  { intros n F Hn. case_bool_decide as Hdec; [reflexivity|]. rewrite Hn.
    assert (meta_omit n = ∅) as -> by (destruct (decide (meta_omit n = ∅)); tauto).
    set_solver. }
  (* the top level *)
  destruct (fields_spec self) as (bound & Hbound & Hkeys & Hget).
  cbn zeta in Hkeys. cbn [self dr_meta get_fields] in Hkeys, Hget.
  rewrite (Hresolve root _ (Hall [] root eq_refl)) in Hkeys.
  assert (∀ k, k ∈ keys bound ↔
               k ∈ keys declared
               ∧ ¬ ∃ path, In path omit_fields ∧ split path LOOKUP_SEP = [k]) as Htop.
  { intros k. rewrite Hkeys, elem_of_difference.
    change (meta_omit root) with (omit_at [] root). rewrite Homit. reflexivity. }
  (* the field [a] *)
  assert (a ∈ keys bound) as Ha.
  { apply Htop. split; [apply dict_get_is_Some; eauto | exact Hkept]. }
  specialize (Hget a) as Hget_a.
  rewrite bool_decide_eq_true_2, Hdeclared in Hget_a by exact Ha.
  cbn [fmap option_fmap option_map] in Hget_a.
  unfold after_attach, attached_dr_meta in Hget_a.
  rewrite Hextract, Hchild_meta in Hget_a.
  set (child' := set_dr_meta child (dict_get (meta_nested root) a)) in *.
  (* the node under [a] *)
  destruct (fields_spec child') as (bound_child & Hbound_c & Hkeys_c & _).
  cbn zeta in Hkeys_c.
  replace (get_fields child') with (get_fields child) in Hkeys_c
    by (destruct child; reflexivity).
  replace (dr_meta child') with (node_at [a] root) in Hkeys_c
    by (destruct child; cbn; destruct (dict_get (meta_nested root) a); reflexivity).
  exists self, bound, (with_serializer child_field child'), child', bound_child.
  split; [exact Hinit|]. split; [exact Hbound|]. split; [exact Htop|].
  split; [exact Hget_a|]. split; [apply is_child_multiple_with_serializer|].
  split; [eapply extract_with_serializer, Hextract|]. split; [exact Hbound_c|].
  intros k. rewrite Hkeys_c.
  pose proof (Homit [a] k) as Hk. unfold omit_at in Hk. cbn [app] in Hk.
  destruct (node_at [a] root) as [n|] eqn:Hn.
  - rewrite (Hresolve n _ (Hall [a] n Hn)), elem_of_difference, Hk. reflexivity.
  - rewrite <- Hk. split; [|tauto]. intros Hin. split; [exact Hin | set_solver].
Qed.

Lemma omit_request_cascades_witness :
  ∃ self bound bound_field child' bound_child,
    __init__ (relational_fields BookSerializer) (get_fields BookSerializer)
             None (Some ["title"; "author__name"]) = Ok self
    ∧ fields self = Ok bound
    ∧ (∀ k, k ∈ keys bound ↔
            k ∈ keys (get_fields BookSerializer)
            ∧ ¬ ∃ path, In path ["title"; "author__name"]
                        ∧ split path LOOKUP_SEP = [k])
    ∧ dict_get bound "author" = Some bound_field
    ∧ is_child_multiple bound_field
      = is_child_multiple (DynamicSerializer AuthorSerializer)
    ∧ extract_serializer_from_child bound_field = Ok child'
    ∧ fields child' = Ok bound_child
    ∧ (∀ k, k ∈ keys bound_child ↔
            k ∈ keys (get_fields AuthorSerializer)
            ∧ ¬ ∃ path, In path ["title"; "author__name"]
                        ∧ split path LOOKUP_SEP = ["author"; k]).
Proof.
  apply (omit_request_cascades (relational_fields BookSerializer)
           (get_fields BookSerializer) ["title"; "author__name"] "author"
           (DynamicSerializer AuthorSerializer) AuthorSerializer).
  - discriminate.
  - reflexivity.
  - reflexivity.
  - reflexivity.
  - intros (path & [<-|[<-|[]]] & H); vm_compute in H; discriminate H.
Defined.

(** ** Instances of the statements above *)

Lemma get_prefetch_select_within_tier1_witness :
  let tier2 :=
    get_prefetch_select (["author"], ["reviews"; "reviews__reviewer"]) [] ["author"] in
  (∀ each, In each tier2.1 → In each ["author"])
  ∧ (∀ each, In each tier2.2 → In each ["reviews"; "reviews__reviewer"])
  ∧ (([] : list string) = [] →
     tier2.1 `sublist_of` ["author"]
     ∧ tier2.2 `sublist_of` ["reviews"; "reviews__reviewer"]).
Proof.
  exact (get_prefetch_select_within_tier1
           ["author"] ["reviews"; "reviews__reviewer"] [] ["author"]).
Defined.

Lemma process_field_options_include_tree_witness :
  ∃ root,
    process_field_options ["title"; "author__name"] [] = Ok root
    ∧ all_nodes (λ n, meta_fields n ≠ ALL_FIELDS ∧ meta_omit n = ∅) root
    ∧ (∀ r s, s ∈ names_at r root ↔
              ∃ path i, In path ["title"; "author__name"]
                        ∧ r = take i (split path LOOKUP_SEP)
                        ∧ split path LOOKUP_SEP !! i = Some s)
    ∧ (∀ r, is_Some (node_at r root) ↔
            r = []
            ∨ ∃ path i, In path ["title"; "author__name"]
                        ∧ (i < List.length (split path LOOKUP_SEP))%nat
                        ∧ r = take i (split path LOOKUP_SEP)).
Proof. exact (process_field_options_include_tree ["title"; "author__name"]). Defined.

Lemma process_field_options_omit_tree_witness :
  ∃ root,
    process_field_options [] ["title"; "author__name"] = Ok root
    ∧ (["title"; "author__name"] ≠ [] →
       all_nodes (λ n, meta_fields n = ALL_FIELDS) root)
    ∧ (∀ r x, x ∈ omit_at r root ↔
              ∃ path, In path ["title"; "author__name"]
                      ∧ split path LOOKUP_SEP = r ++ [x])
    ∧ (∀ r, is_Some (node_at r root) ↔
            r = []
            ∨ ∃ path i, In path ["title"; "author__name"]
                        ∧ (i < List.length (split path LOOKUP_SEP))%nat
                        ∧ r = take i (split path LOOKUP_SEP)).
Proof. exact (process_field_options_omit_tree ["title"; "author__name"]). Defined.

Lemma get_relational_fields_spec_witness :
  let model_fields :=
    [mk_model_field "id" false None;
     mk_model_field "author" true None;
     mk_model_field "review" true (Some (Some "reviews"));
     mk_model_field "tagged" true (Some None)] in
  NoDup (map fst (get_relational_fields model_fields))
  ∧ (∀ k, dict_get (get_relational_fields model_fields) k
          = last (List.filter
                    (λ each, is_relation each && String.eqb (relation_key each) k)
                    model_fields))
  ∧ (∀ k each, In (k, each) (get_relational_fields model_fields) →
               In each model_fields ∧ is_relation each = true
               ∧ relation_key each = k).
Proof.
  exact (get_relational_fields_spec
           [mk_model_field "id" false None;
            mk_model_field "author" true None;
            mk_model_field "review" true (Some (Some "reviews"));
            mk_model_field "tagged" true (Some None)]).
Defined.

(** ** The tree of a request with omit paths *)

(** A statement that keeps [nested] and maps the set of names of the
    node by [g] changes the names behind the reference, and no other. *)
Lemma names_at_modify_at (r : meta_ref) (f : dr_meta_t → result dr_meta_t)
    (g : gset string → gset string) (m m' : dr_meta_t) :
  (∀ n n', f n = Ok n' →
           meta_nested n' = meta_nested n ∧ names_at [] n' = g (names_at [] n)) →
  modify_at r f m = Ok m' →
  ∀ q, names_at q m' = if decide (q = r) then g (names_at q m) else names_at q m.
Proof.
  intros Hf. revert m m'. induction r as [|k r IH]; intros m m' Hmod q.
  - cbn [modify_at] in Hmod. destruct (Hf _ _ Hmod) as [Hnested Hnames].
    destruct q as [|k q].
    + case_decide; [|congruence]. exact Hnames.
    + case_decide; [discriminate|]. rewrite !names_at_cons, Hnested. reflexivity.
  - cbn [modify_at] in Hmod. apply bind_Ok_inv in Hmod as (child' & Hchild & [= <-]).
    destruct q as [|k' q].
    + case_decide; [discriminate | reflexivity].
    + rewrite !names_at_cons. cbn [meta_nested]. rewrite dict_get_set.
      destruct (String.eqb_spec k k') as [<-|Hne].
      * change (default dynamic_read_meta (Some child')) with child'.
        rewrite (IH _ _ Hchild q). repeat case_decide; simplify_eq; reflexivity.
      * case_decide; [congruence | reflexivity].
Qed.

Lemma fields_assign_all_names (n n' : dr_meta_t) :
  fields_assign_all n = Ok n' →
  meta_nested n' = meta_nested n ∧ names_at [] n' = ∅.
Proof. intros [= <-]. split; reflexivity. Qed.

Lemma omit_add_names (x : string) (n n' : dr_meta_t) :
  omit_add x n = Ok n' →
  meta_nested n' = meta_nested n ∧ names_at [] n' = names_at [] n.
Proof. intros [= <-]. split; reflexivity. Qed.

(** The inner loop of the omit pass empties the names of the nodes of
    the chain, and adds no name anywhere. *)
Lemma omit_segments_names (field_list : list string) (m : dr_meta_t)
    (parent_info : option (string * meta_ref))
    (st' : dr_meta_t * option (string * meta_ref)) :
  foldM (segment_step (λ _, fields_assign_all)) field_list (m, parent_info) = Ok st' →
  ∀ q s, s ∈ names_at q st'.1 ↔
         s ∈ names_at q m
         ∧ ¬ ∃ i, (i < List.length field_list)%nat
                  ∧ q = field_meta_ref parent_info ++ take i field_list.
Proof.
  revert m parent_info. induction field_list as [|x rest IH]; intros m parent_info.
  - intros [= <-] q s. cbn [fst]. split; [|tauto].
    intros H. split; [exact H|]. intros (i & Hi & _). simpl in Hi. lia.
  - cbn [foldM segment_step]. set (ref0 := field_meta_ref parent_info).
    intros Hloop q s. apply bind_Ok_inv in Hloop as ([m1 pi1] & Hstep & Hloop).
    apply bind_Ok_inv in Hstep as (m1' & Hm1 & [= <- <-]).
    rewrite (IH _ _ Hloop q s). cbn [field_meta_ref].
    rewrite (names_at_modify_at ref0 fields_assign_all (λ _, ∅) _ _
               fields_assign_all_names Hm1 q).
    split.
    + intros [Hs Hno]. case_decide as Hq; [set_solver|].
      split; [exact Hs|]. intros ([|i] & Hi & ->).
      * apply Hq. cbn [take]. apply app_nil_r.
      * apply Hno. exists i. split; [simpl in Hi; lia|].
        rewrite <- app_assoc. reflexivity.
    + intros [Hs Hno]. case_decide as Hq.
      * destruct Hno. exists 0. split; [simpl; lia|]. cbn [take].
        rewrite app_nil_r. exact Hq.
      * split; [exact Hs|]. intros (i & Hi & ->). apply Hno.
        exists (S i). split; [simpl; lia|]. rewrite <- app_assoc. reflexivity.
Qed.

(** One iteration of the omit pass, on the names: adding the last
    segment to an [omit] set touches no set of names. *)
Lemma process_omit_path_names (m m' : dr_meta_t) (field_list : list string) :
  process_omit_path m field_list = Ok m' →
  ∀ q s, s ∈ names_at q m' ↔
         s ∈ names_at q m
         ∧ ¬ ∃ i, (i < List.length field_list)%nat ∧ q = take i field_list.
Proof.
  unfold process_omit_path.
  destruct (omit_segments_loop field_list m None) as (m1 & Hloop & _).
  pose proof (omit_segments_names _ _ _ _ Hloop) as Hnames.
  rewrite Hloop. cbn [mbind result_bind fst field_meta_ref app] in *. unfold last_item.
  destruct (last field_list) as [x|] eqn:Hlast.
  - cbn [mbind result_bind].
    destruct (modify_at_Ok (take (List.length field_list - 1) field_list)
                (omit_add x) m1 _ eq_refl) as (m2 & Hm2 & _).
    rewrite Hm2. cbn [suppress]. intros [= <-] q s. rewrite <- Hnames.
    rewrite (names_at_modify_at _ (omit_add x) (λ o, o) _ _ (omit_add_names x) Hm2 q).
    case_decide; reflexivity.
  - cbn [mbind result_bind suppress is_IndexError]. intros [= <-]. exact Hnames.
Qed.

Lemma omit_pass_names (paths : list (list string)) (m m' : dr_meta_t) :
  foldM process_omit_path paths m = Ok m' →
  ∀ q s, s ∈ names_at q m' ↔
         s ∈ names_at q m
         ∧ ¬ ∃ field_list i, In field_list paths
                             ∧ (i < List.length field_list)%nat
                             ∧ q = take i field_list.
Proof.
  revert m. induction paths as [|p paths IH]; intros m; cbn [foldM].
  - intros [= <-] q s. split; [|tauto].
    intros H. split; [exact H|]. intros (fl & i & [] & _).
  - intros Hpass q s. apply bind_Ok_inv in Hpass as (m1 & Hstep & Hpass).
    rewrite (IH _ Hpass q s), (process_omit_path_names _ _ _ Hstep q s). split.
    + intros [[Hs Hp] Hrest]. split; [exact Hs|].
      intros (fl & i & [<-|Hfl] & Hi & Hq); [apply Hp | apply Hrest]; eauto.
    + intros [Hs Hno]. split; [split; [exact Hs|]|].
      * intros (i & Hi & Hq). apply Hno. exists p, i. split; [left; reflexivity|tauto].
      * intros (fl & i & Hfl & Hi & Hq). apply Hno. exists fl, i.
        split; [right; exact Hfl | tauto].
Qed.

(** C6 fails as stated: on the single omit path [author__name], with
    the segments [author] and [name], the chain has two levels, the
    root and the node under [author]; the last of them, which receives
    [name] in its [omit] set, is marked [ALL_FIELDS] as well, so the
    marked levels are not the levels except the last. *)
Lemma omit_path_last_level_counterexample :
  ∃ root terminal,
    process_field_options [] ["author__name"] = Ok root
    ∧ split "author__name" LOOKUP_SEP = ["author"; "name"]
    ∧ node_at ["author"] root = Some terminal
    ∧ meta_fields terminal = ALL_FIELDS
    ∧ meta_omit terminal = {[ "name" ]}
    ∧ ¬ (∀ i, (i < 2)%nat →
              marked_all (take i ["author"; "name"]) root ↔ (i < 2 - 1)%nat).
Proof.
  eexists _, _. split; [vm_compute; reflexivity|].
  split; [vm_compute; reflexivity|].
  split; [vm_compute; reflexivity|].
  split; [reflexivity|].
  split; [apply leibniz_equiv; set_solver|].
  intros H. specialize (H 1 ltac:(lia)). destruct H as [H _].
  assert (1 < 2 - 1)%nat as Hlt; [|simpl in Hlt; lia].
  apply H. eexists. split; [vm_compute; reflexivity | reflexivity].
Qed.

(** C6, as the code has it. The selector parser never raises, and for
    any include and omit selectors its tree is this. The levels marked
    [ALL_FIELDS] are exactly the levels of the chains of the omit
    paths: for every omit path, the node reached by each proper initial
    part of its segments, the last level included. A name is in the
    [omit] set of the node reached by the keys [r] exactly when some
    omit path has the segments [r] followed by that name: the final
    segment of each omit path enters its terminal node's [omit] set,
    and nothing else enters any [omit] set. No segment of an omit path
    enters a set of names: the names of an unmarked node are those the
    include paths put there, and a marked node has none. Apart from
    the root, the nodes are those of the chains of the include and the
    omit paths. *)
Theorem process_field_options_omit_levels (filter_fields omit_fields : list string) :
  ∃ root,
    process_field_options filter_fields omit_fields = Ok root
    ∧ (∀ r, marked_all r root ↔
            ∃ path i, In path omit_fields
                      ∧ (i < List.length (split path LOOKUP_SEP))%nat
                      ∧ r = take i (split path LOOKUP_SEP))
    ∧ (∀ r x, x ∈ omit_at r root ↔
              ∃ path, In path omit_fields ∧ split path LOOKUP_SEP = r ++ [x])
    ∧ (∀ r s, s ∈ names_at r root ↔
              ¬ marked_all r root
              ∧ ∃ path i, In path filter_fields
                          ∧ r = take i (split path LOOKUP_SEP)
                          ∧ split path LOOKUP_SEP !! i = Some s)
    ∧ (∀ r, is_Some (node_at r root) ↔
            r = []
            ∨ ∃ path i, In path (filter_fields ++ omit_fields)
                        ∧ (i < List.length (split path LOOKUP_SEP))%nat
                        ∧ r = take i (split path LOOKUP_SEP)).
Proof.
  destruct (include_pass_tree (map (λ each, split each LOOKUP_SEP) filter_fields)
              dynamic_read_meta (all_nodes_default _ include_node_default))
    as (m & Hpass & Hinv & Hnames0 & Hnodes0).
  destruct (omit_pass_spec (map (λ each, split each LOOKUP_SEP) omit_fields) m)
    as (root & Hroot & _).
  destruct (omit_pass_tree _ _ _ Hroot) as (Homit & Hmark & Hnodes).
  pose proof (omit_pass_names _ _ _ Hroot) as Hnames.
  assert (∀ q, ¬ marked_all q m) as Hunmarked.
  { intros q (n & Hn & Hall). destruct (Hinv q n Hn) as [Hset _]. congruence. }
  assert (∀ q, omit_at q m = ∅) as Hnone.
  { intros q. unfold omit_at. destruct (node_at q m) as [n|] eqn:Hn; [|reflexivity].
    destruct (Hinv q n Hn) as [_ Hempty]. exact Hempty. }
  assert (∀ r, marked_all r root ↔
               ∃ path i, In path omit_fields
                         ∧ (i < List.length (split path LOOKUP_SEP))%nat
                         ∧ r = take i (split path LOOKUP_SEP)) as Hmarked.
  { intros r. rewrite Hmark. split.
    - intros [H|(fl & i & Hfl & Hi & Hr)]; [destruct (Hunmarked r H)|].
      apply in_map_iff in Hfl as (path & <- & Hpath). eauto.
    - intros (path & i & Hpath & Hi & Hr). right.
      exists (split path LOOKUP_SEP), i. split; [apply in_map_iff; eauto | tauto]. }
  exists root. split; [|split; [exact Hmarked|split; [|split]]].
  - unfold process_field_options. rewrite Hpass. exact Hroot.
  - intros r x. rewrite Homit, Hnone. split.
    + intros [H|(fl & Hfl & Heq)]; [set_solver|].
      apply in_map_iff in Hfl as (path & <- & Hpath). eauto.
    + intros (path & Hpath & Heq). right. exists (split path LOOKUP_SEP).
      split; [apply in_map_iff; eauto | exact Heq].
  - intros r s. rewrite Hnames, Hnames0, names_at_default, Hmark. split.
    + intros [[H|(fl & i & Hfl & Hr & Hi)] Hno]; [set_solver|]. split.
      * intros [H|H]; [destruct (Hunmarked r H) | exact (Hno H)].
      * apply in_map_iff in Hfl as (path & <- & Hpath). eauto.
    + intros [Hno (path & i & Hpath & Hr & Hi)]. split; [|tauto].
      right. exists (split path LOOKUP_SEP), i. split; [apply in_map_iff; eauto | tauto].
  - intros r. rewrite Hnodes, Hnodes0, node_at_default. split.
    + intros [[H|(fl & i & Hfl & Hi & Hr)]|(fl & i & Hfl & Hi & Hr)]; [tauto| |];
        right; apply in_map_iff in Hfl as (path & <- & Hpath);
        destruct (prefix_of_take _ _ _ Hi Hr) as (j & Hj & ->);
        exists path, j; (split; [apply in_app_iff; tauto | tauto]).
    + intros [H|(path & i & Hpath & Hi & ->)]; [tauto|].
      apply in_app_iff in Hpath as [Hpath|Hpath]; [left; right | right];
        exists (split path LOOKUP_SEP), i;
        (split; [apply in_map_iff; eauto | split; [exact Hi | reflexivity]]).
Qed.

(** On the include path [title] and the omit path [author__name]: the
    root and the node under [author] are marked, [name] is in the
    [omit] set under [author] and the root's is empty, and the root,
    once marked, has lost the name [title]. *)
Lemma process_field_options_omit_levels_witness :
  ∃ root,
    process_field_options ["title"] ["author__name"] = Ok root
    ∧ marked_all [] root ∧ marked_all ["author"] root
    ∧ "name" ∈ omit_at ["author"] root
    ∧ ("author" ∉ omit_at [] root)
    ∧ ("title" ∉ names_at [] root).
Proof.
  destruct (process_field_options_omit_levels ["title"] ["author__name"])
    as (root & Hroot & Hmark & Homit & Hnames & _).
  exists root. split; [exact Hroot|].
  assert (∀ i, (i < 2)%nat → marked_all (take i ["author"; "name"]) root) as Hchain.
  { intros i Hi. apply Hmark. exists "author__name", i.
    split; [left; reflexivity|]. split; [exact Hi | reflexivity]. }
  split; [exact (Hchain 0%nat ltac:(lia))|].
  split; [exact (Hchain 1%nat ltac:(lia))|].
  split; [|split].
  - apply Homit. exists "author__name". split; [left; reflexivity | reflexivity].
  - intros H. apply Homit in H as (path & [<-|[]] & Heq). discriminate Heq.
  - intros H. apply Hnames in H as [Hno _]. exact (Hno (Hchain 0%nat ltac:(lia))).
Defined.
